(** * dubbo-go: configuration-center backends and the Dubbo invoker

    A shallow embedding of

    - [config_center/zookeeper/impl.go]  (zookeeperDynamicConfiguration),
    - [config_center/apollo/impl.go]     (apolloConfiguration),
    - [protocol/dubbo/dubbo_invoker.go]  (DubboInvoker),

    together with the pieces of the Go standard library they call
    ([strings.LastIndex], string slicing, [strconv.ParseBool],
    [strconv.Itoa], [encoding/base64]).

    Go strings are byte sequences; they are modelled by [string], whose
    characters are 8-bit [ascii] values.  Go [int] indices are [Z].  A Go
    function that may panic returns an [outcome]. *)

From Stdlib Require Import ZArith Ascii String List Lia DecimalString.
From stdpp Require Import base option list relations gmap strings.

Local Open Scope Z_scope.

(** ** Results of Go calls *)

(** [error] values.  [ErrNew] is [perrors.New], [ErrWithStack] is
    [perrors.WithStack]; [ErrCorruptInput] is base64's
    [CorruptInputError] (the byte offset it carries is not modelled);
    [ErrSyntax] is strconv's [NumError] with [strconv.ErrSyntax];
    [ErrExternal] is an error produced by a library outside the
    repository (zookeeper, the transport), identified by a code;
    the last three are the error values of package [protocol]. *)
Inductive error : Type :=
| ErrNew (msg : string)
| ErrWithStack (e : error)
| ErrCorruptInput
| ErrSyntax (fn : string) (arg : string)
| ErrExternal (code : Z)
| ErrDestroyedInvoker
| ErrClientClosed
| ErrNoReply.

(** A call either returns or panics. *)
Inductive outcome (A : Type) : Type :=
| Returned (a : A)
| Panicked.
Arguments Returned {A} a.
Arguments Panicked {A}.

Definition outcome_bind {A B} (o : outcome A) (k : A -> outcome B) : outcome B :=
  match o with
  | Returned a => k a
  | Panicked => Panicked
  end.

Notation "x <-! o ; k" := (outcome_bind o (fun x => k))
  (at level 100, o at next level, right associativity).

Definition of_option {A} (o : option A) : outcome A :=
  match o with
  | Some a => Returned a
  | None => Panicked
  end.

(** ** Go strings *)
Module GoString.

Definition len (s : string) : Z := Z.of_nat (String.length s).

(** [s[lo:hi]]: panics (here [None]) unless [0 <= lo <= hi <= len(s)]. *)
Definition slice (s : string) (lo hi : Z) : option string :=
  if (0 <=? lo) && (lo <=? hi) && (hi <=? len s)
  then Some (substring (Z.to_nat lo) (Z.to_nat (hi - lo)) s)
  else None.

(** [s[lo:]] *)
Definition slice_from (s : string) (lo : Z) : option string :=
  slice s lo (len s).

(** [strings.LastIndex(s, sep)] for a one-byte separator: the index of
    the last occurrence of [c] in [s], or [-1]. *)
Fixpoint LastIndexByte (s : string) (c : ascii) : Z :=
  match s with
  | EmptyString => -1
  | String a s' =>
      let r := LastIndexByte s' c in
      if 0 <=? r then r + 1
      else if Ascii.eqb a c then 0 else -1
  end.

(** [c] does not occur in [s]. *)
Fixpoint lacks (c : ascii) (s : string) : bool :=
  match s with
  | EmptyString => true
  | String a s' => negb (Ascii.eqb a c) && lacks c s'
  end.

(** [bytes.Join]-free concatenation of a byte and a string. *)
Definition of_byte (c : ascii) : string := String c EmptyString.

Lemma len_nonneg s : 0 <= len s.
Proof. unfold len. lia. Qed.

Lemma len_cons a s : len (String a s) = len s + 1.
Proof. unfold len. cbn [String.length]. lia. Qed.

Lemma app_nil_l t : "" +:+ t = t.
Proof. reflexivity. Qed.

Lemma app_cons a s t : String a s +:+ t = String a (s +:+ t).
Proof. reflexivity. Qed.

Lemma len_app s t : len (s +:+ t) = len s + len t.
Proof.
  induction s as [|a s IH].
  - reflexivity.
  - rewrite app_cons, !len_cons, IH. lia.
Qed.

Lemma LastIndexByte_lacks s c : lacks c s = true -> LastIndexByte s c = -1.
Proof.
  induction s as [|a s IH]; cbn [lacks LastIndexByte]; [done|].
  intros [Ha Hs]%andb_prop. rewrite IH by done.
  apply negb_true_iff in Ha. rewrite Ha. reflexivity.
Qed.

Lemma LastIndexByte_range s c : -1 <= LastIndexByte s c < len s.
Proof.
  induction s as [|a s IH]; cbn [LastIndexByte].
  - cbv. split; congruence.
  - rewrite len_cons.
    destruct (0 <=? LastIndexByte s c) eqn:E.
    + apply Z.leb_le in E. lia.
    + pose proof (len_nonneg s). destruct (Ascii.eqb a c); lia.
Qed.

Lemma LastIndexByte_app s t c :
  lacks c t = true ->
  LastIndexByte (s +:+ String c t) c = len s.
Proof.
  intros Ht. induction s as [|a s IH].
  - rewrite app_nil_l. cbn [LastIndexByte].
    rewrite (LastIndexByte_lacks t c Ht).
    rewrite Ascii.eqb_refl. reflexivity.
  - rewrite app_cons. cbn [LastIndexByte].
    rewrite IH, len_cons. pose proof (len_nonneg s) as Hs.
    destruct (0 <=? len s) eqn:E; [done|apply Z.leb_gt in E; lia].
Qed.

Lemma substring_0_app s t :
  substring 0 (String.length s) (s +:+ t) = s.
Proof.
  induction s as [|a s IH].
  - rewrite app_nil_l. by destruct t.
  - rewrite app_cons. cbn [String.length substring]. by rewrite IH.
Qed.

Lemma substring_skip_app s t n :
  substring (String.length s) n (s +:+ t) = substring 0 n t.
Proof.
  induction s as [|a s IH]; [done|].
  rewrite app_cons. cbn [String.length substring]. done.
Qed.

Lemma substring_0_all s : substring 0 (String.length s) s = s.
Proof. induction s as [|a s IH]; simpl; [done|by rewrite IH]. Qed.

Lemma app_assoc_cons s c t :
  s +:+ String c t = (s +:+ of_byte c) +:+ t.
Proof.
  induction s as [|a s IH]; [done|].
  by rewrite !app_cons, IH.
Qed.

Lemma append_assoc s t u : (s +:+ t) +:+ u = s +:+ (t +:+ u).
Proof.
  induction s as [|a s IH]; [done|]. by rewrite !app_cons, IH.
Qed.

Lemma slice_prefix s t : slice (s +:+ t) 0 (len s) = Some s.
Proof.
  unfold slice. rewrite len_app.
  pose proof (len_nonneg s). pose proof (len_nonneg t).
  replace ((0 <=? 0) && (0 <=? len s) && (len s <=? len s + len t))
    with true by (symmetry; rewrite !andb_true_iff, !Z.leb_le; lia).
  rewrite Z.sub_0_r. unfold len. rewrite Nat2Z.id.
  change (Z.to_nat 0) with 0%nat.
  by rewrite substring_0_app.
Qed.

Lemma slice_from_suffix s c t :
  slice_from (s +:+ String c t) (len s + 1) = Some t.
Proof.
  unfold slice_from, slice. rewrite len_app, len_cons.
  pose proof (len_nonneg s). pose proof (len_nonneg t).
  replace ((0 <=? len s + 1) && (len s + 1 <=? len s + (len t + 1))
           && (len s + (len t + 1) <=? len s + (len t + 1)))
    with true by (symmetry; rewrite !andb_true_iff, !Z.leb_le; lia).
  f_equal. rewrite app_assoc_cons.
  replace (Z.to_nat (len s + 1)) with (String.length (s +:+ of_byte c)).
  2:{ pose proof (len_app s (of_byte c)) as L.
      unfold of_byte in *. rewrite len_cons in L. unfold len in *.
      cbn [String.length] in L. lia. }
  rewrite substring_skip_app.
  replace (Z.to_nat _) with (String.length t) by (unfold len; lia).
  apply substring_0_all.
Qed.

End GoString.

(** ** encoding/base64, [StdEncoding] *)
Module Base64.

Definition byte_val (c : ascii) : Z := Z.of_N (N_of_ascii c).

(** The conversion [byte(v)] of an unsigned integer. *)
Definition to_byte (v : Z) : ascii := ascii_of_N (Z.to_N (v mod 256)).

Definition encodeStd : string :=
  "ABCDEFGHIJKLMNOPQRSTUVWXYZabcdefghijklmnopqrstuvwxyz0123456789+/".

Definition padChar : ascii := "="%char.

(** [enc.encode[v]]; the table has 64 entries and is only indexed with
    6-bit values. *)
Definition encode_at (v : Z) : ascii :=
  match String.get (Z.to_nat v) encodeStd with
  | Some c => c
  | None => "000"%char
  end.

Fixpoint index_in (c : ascii) (s : string) (i : Z) : Z :=
  match s with
  | EmptyString => 255
  | String a s' => if Ascii.eqb a c then i else index_in c s' (i + 1)
  end.

(** [enc.decodeMap[c]]: the position of [c] in the alphabet, [0xff]
    for every other byte. *)
Definition decodeMap (c : ascii) : Z := index_in c encodeStd 0.

Definition valid (c : ascii) : bool := negb (decodeMap c =? 255).

Definition sextet (val shift : Z) : ascii :=
  encode_at (Z.land (Z.shiftr val shift) 63).

(** [Encoding.EncodeToString]: three source bytes give four
    characters; a remainder of one or two bytes is padded with ['=']. *)
Fixpoint EncodeToString (src : string) : string :=
  match src with
  | EmptyString => EmptyString
  | String a EmptyString =>
      let val := Z.shiftl (byte_val a) 16 in
      String (sextet val 18) (String (sextet val 12)
        (String padChar (String padChar EmptyString)))
  | String a (String b EmptyString) =>
      let val := Z.lor (Z.shiftl (byte_val a) 16) (Z.shiftl (byte_val b) 8) in
      String (sextet val 18) (String (sextet val 12)
        (String (sextet val 6) (String padChar EmptyString)))
  | String a (String b (String c rest)) =>
      let val := Z.lor (Z.lor (Z.shiftl (byte_val a) 16)
                              (Z.shiftl (byte_val b) 8)) (byte_val c) in
      String (sextet val 18) (String (sextet val 12)
        (String (sextet val 6) (String (sextet val 0)
          (EncodeToString rest))))
  end.

Definition is_newline (c : ascii) : bool :=
  Ascii.eqb c "010"%char || Ascii.eqb c "013"%char.

(** The decoder skips ['\n'] and ['\r'] wherever they occur. *)
Fixpoint strip_newlines (s : string) : string :=
  match s with
  | EmptyString => EmptyString
  | String a s' =>
      if is_newline a then strip_newlines s' else String a (strip_newlines s')
  end.

(** The integer assembled from four 6-bit values. *)
Definition assemble (d0 d1 d2 d3 : Z) : Z :=
  Z.lor (Z.lor (Z.lor (Z.shiftl d0 18) (Z.shiftl d1 12)) (Z.shiftl d2 6)) d3.

(** [decodeQuantum] repeated over newline-free input: a full quantum
    gives three bytes; padding is accepted only in the last quantum
    (["xx=="] one byte, ["xxx="] two bytes); anything else is a
    [CorruptInputError], here [None].  Decoding is not strict: the
    unused low bits of a padded quantum are not checked. *)
Fixpoint decode_quanta (s : string) : option string :=
  match s with
  | EmptyString => Some EmptyString
  | String a (String b (String c (String d rest))) =>
      if valid a && valid b then
        if valid c then
          if valid d then
            let val := assemble (decodeMap a) (decodeMap b) (decodeMap c) (decodeMap d) in
            match decode_quanta rest with
            | Some out =>
                Some (String (to_byte (Z.shiftr val 16))
                       (String (to_byte (Z.shiftr val 8))
                         (String (to_byte val) out)))
            | None => None
            end
          else if Ascii.eqb d padChar then
            match rest with
            | EmptyString =>
                let val := assemble (decodeMap a) (decodeMap b) (decodeMap c) 0 in
                Some (String (to_byte (Z.shiftr val 16))
                       (String (to_byte (Z.shiftr val 8)) EmptyString))
            | _ => None
            end
          else None
        else if Ascii.eqb c padChar && Ascii.eqb d padChar then
          match rest with
          | EmptyString =>
              let val := assemble (decodeMap a) (decodeMap b) 0 0 in
              Some (String (to_byte (Z.shiftr val 16)) EmptyString)
          | _ => None
          end
        else None
      else None
  | _ => None
  end.

(** [Encoding.DecodeString] *)
Definition DecodeString (s : string) : option string :=
  decode_quanta (strip_newlines s).

Example encode_foobar : EncodeToString "foobar" = "Zm9vYmFy"%string.
Proof. reflexivity. Qed.

Example encode_fo : EncodeToString "fo" = "Zm8="%string.
Proof. reflexivity. Qed.

Example decode_f : DecodeString "Zg==" = Some "f"%string.
Proof. reflexivity. Qed.

Example decode_corrupt : DecodeString "Zg=" = None.
Proof. reflexivity. Qed.

(** *** Arithmetic reading of the shifts and masks *)

Lemma land_disjoint x y k :
  0 <= k -> 0 <= y < 2 ^ k -> Z.land (Z.shiftl x k) y = 0.
Proof.
  intros Hk Hy. apply Z.bits_inj'. intros n Hn.
  rewrite Z.land_spec, Z.bits_0.
  destruct (Z.lt_ge_cases n k) as [Hlt|Hge].
  - rewrite Z.shiftl_spec_low by lia. reflexivity.
  - rewrite <- (Z.mod_small y (2 ^ k)) by lia.
    rewrite Z.mod_pow2_bits_high by lia. apply andb_false_r.
Qed.

Lemma lor_shiftl_add x y k :
  0 <= k -> 0 <= y < 2 ^ k -> Z.lor (Z.shiftl x k) y = x * 2 ^ k + y.
Proof.
  intros Hk Hy. pose proof (land_disjoint x y k Hk Hy) as Hd.
  rewrite <- Z.lxor_lor by exact Hd.
  rewrite <- Z.add_nocarry_lxor by exact Hd.
  by rewrite Z.shiftl_mul_pow2.
Qed.

Lemma lor_add_aligned x y k :
  0 <= k -> x mod 2 ^ k = 0 -> 0 <= y < 2 ^ k -> Z.lor x y = x + y.
Proof.
  intros Hk Hx Hy.
  assert (x = Z.shiftl (x / 2 ^ k) k) as ->.
  { rewrite Z.shiftl_mul_pow2 by lia.
    pose proof (Z.div_mod x (2 ^ k)). lia. }
  rewrite lor_shiftl_add by lia. by rewrite Z.shiftl_mul_pow2.
Qed.

Lemma byte_val_range c : 0 <= byte_val c < 256.
Proof.
  unfold byte_val. pose proof (N_ascii_bounded c) as Hb. lia.
Qed.

Lemma to_byte_val c : to_byte (byte_val c) = c.
Proof.
  unfold to_byte. rewrite Z.mod_small by apply byte_val_range.
  unfold byte_val. rewrite N2Z.id. apply ascii_N_embedding.
Qed.

Lemma mask63 x : Z.land x 63 = x mod 64.
Proof. change 63 with (Z.ones 6). by rewrite Z.land_ones. Qed.

(** Evaluate the powers of two, then linear arithmetic with the
    equations of [/] and [mod]. *)
Ltac pow2_lia :=
  repeat match goal with
    | |- context [2 ^ ?k] =>
        let v := eval cbv in (2 ^ k) in change (2 ^ k) with v
    end;
  Z.div_mod_to_equations; lia.

Lemma pack3 a b c :
  0 <= a < 256 -> 0 <= b < 256 -> 0 <= c < 256 ->
  Z.lor (Z.lor (Z.shiftl a 16) (Z.shiftl b 8)) c = a * 65536 + b * 256 + c.
Proof.
  intros Ha Hb Hc.
  rewrite (Z.shiftl_mul_pow2 b 8) by lia.
  rewrite (lor_shiftl_add a (b * 2 ^ 8) 16) by pow2_lia.
  rewrite (lor_add_aligned _ c 8) by pow2_lia.
  pow2_lia.
Qed.

Lemma pack2 a b :
  0 <= a < 256 -> 0 <= b < 256 ->
  Z.lor (Z.shiftl a 16) (Z.shiftl b 8) = a * 65536 + b * 256.
Proof.
  intros Ha Hb. rewrite (Z.shiftl_mul_pow2 b 8) by lia.
  rewrite (lor_shiftl_add a (b * 2 ^ 8) 16) by pow2_lia. pow2_lia.
Qed.

Lemma assemble_add d0 d1 d2 d3 :
  0 <= d0 < 64 -> 0 <= d1 < 64 -> 0 <= d2 < 64 -> 0 <= d3 < 64 ->
  assemble d0 d1 d2 d3 = d0 * 262144 + d1 * 4096 + d2 * 64 + d3.
Proof.
  intros H0 H1 H2 H3. unfold assemble.
  rewrite (Z.shiftl_mul_pow2 d1 12), (Z.shiftl_mul_pow2 d2 6) by lia.
  rewrite (lor_shiftl_add d0 (d1 * 2 ^ 12) 18) by pow2_lia.
  rewrite (lor_add_aligned _ (d2 * 2 ^ 6) 12) by pow2_lia.
  rewrite (lor_add_aligned _ d3 6) by pow2_lia.
  pow2_lia.
Qed.

(** The 6-bit value [val >> shift & 0x3F]. *)
Definition six (val shift : Z) : Z := Z.land (Z.shiftr val shift) 63.

Lemma six_div val shift :
  0 <= shift -> six val shift = (val / 2 ^ shift) mod 64.
Proof. intros. unfold six. by rewrite mask63, Z.shiftr_div_pow2. Qed.

Lemma six_range val shift : 0 <= six val shift < 64.
Proof. unfold six. rewrite mask63. apply Z.mod_pos_bound. lia. Qed.

(** Every property of the 64 table entries is checked entry by entry. *)
Lemma forall_six (P : Z -> Prop) :
  (forall n : nat, (n < 64)%nat -> P (Z.of_nat n)) ->
  forall v, 0 <= v < 64 -> P v.
Proof.
  intros H v Hv. rewrite <- (Z2Nat.id v) by lia. apply H. lia.
Qed.

Lemma decodeMap_encode_at v : 0 <= v < 64 -> decodeMap (encode_at v) = v.
Proof.
  revert v. apply forall_six. intros n Hn.
  do 64 (destruct n as [|n]; [vm_compute; reflexivity|]). lia.
Qed.

Lemma valid_encode_at v : 0 <= v < 64 -> valid (encode_at v) = true.
Proof.
  intros Hv. unfold valid. rewrite decodeMap_encode_at by done.
  apply negb_true_iff, Z.eqb_neq. lia.
Qed.

Lemma encode_at_not_newline v :
  0 <= v < 64 -> is_newline (encode_at v) = false.
Proof.
  revert v. apply forall_six. intros n Hn.
  do 64 (destruct n as [|n]; [vm_compute; reflexivity|]). lia.
Qed.

(** Induction over a string three bytes at a time, the way the
    encoder consumes it. *)
Lemma string_ind3 (P : string -> Prop) :
  P EmptyString ->
  (forall a, P (String a EmptyString)) ->
  (forall a b, P (String a (String b EmptyString))) ->
  (forall a b c rest, P rest -> P (String a (String b (String c rest)))) ->
  forall s, P s.
Proof.
  intros H0 H1 H2 H3.
  assert (forall s, P s /\ (forall a, P (String a s))
                    /\ (forall a b, P (String a (String b s)))) as H.
  { induction s as [|c s (IH0 & IH1 & IH2)].
    - repeat split; auto.
    - split; [apply IH1|]. split; [intros a; apply IH2|].
      intros a b. apply H3, IH0. }
  intros s. apply H.
Qed.

Lemma EncodeToString_3 a b c rest :
  EncodeToString (String a (String b (String c rest))) =
  let val := Z.lor (Z.lor (Z.shiftl (byte_val a) 16)
                          (Z.shiftl (byte_val b) 8)) (byte_val c) in
  String (sextet val 18) (String (sextet val 12)
    (String (sextet val 6) (String (sextet val 0) (EncodeToString rest)))).
Proof. reflexivity. Qed.

Lemma sextet_not_newline val shift : is_newline (sextet val shift) = false.
Proof. apply encode_at_not_newline, six_range. Qed.

Lemma strip_cons_sextet val shift s :
  strip_newlines (String (sextet val shift) s)
  = String (sextet val shift) (strip_newlines s).
Proof. cbn [strip_newlines]. by rewrite sextet_not_newline. Qed.

Lemma strip_encoded src :
  strip_newlines (EncodeToString src) = EncodeToString src.
Proof.
  induction src as [|a|a b|a b c rest IH] using string_ind3.
  - reflexivity.
  - cbn [EncodeToString]. cbv zeta. by rewrite !strip_cons_sextet.
  - cbn [EncodeToString]. cbv zeta. by rewrite !strip_cons_sextet.
  - rewrite EncodeToString_3. cbv zeta.
    by rewrite !strip_cons_sextet, IH.
Qed.

Lemma decodeMap_sextet val shift : decodeMap (sextet val shift) = six val shift.
Proof. apply decodeMap_encode_at, six_range. Qed.

Lemma valid_sextet val shift : valid (sextet val shift) = true.
Proof. apply valid_encode_at, six_range. Qed.

Lemma to_byte_eq v c : v mod 256 = byte_val c -> to_byte v = c.
Proof.
  intros H. unfold to_byte. rewrite H. unfold byte_val.
  rewrite N2Z.id. apply ascii_N_embedding.
Qed.

(** Four sextets of a packed value give the value back, hence the
    three bytes. *)
Lemma quantum3 a b c :
  let val := Z.lor (Z.lor (Z.shiftl (byte_val a) 16)
                          (Z.shiftl (byte_val b) 8)) (byte_val c) in
  let v := assemble (six val 18) (six val 12) (six val 6) (six val 0) in
  to_byte (Z.shiftr v 16) = a /\ to_byte (Z.shiftr v 8) = b /\ to_byte v = c.
Proof.
  intros val v. subst v val.
  pose proof (byte_val_range a) as Ha. pose proof (byte_val_range b) as Hb.
  pose proof (byte_val_range c) as Hc.
  rewrite pack3 by done.
  rewrite assemble_add by apply six_range.
  rewrite !six_div by lia. rewrite !Z.shiftr_div_pow2 by lia.
  repeat split; apply to_byte_eq; pow2_lia.
Qed.

Lemma quantum2 a b :
  let val := Z.lor (Z.shiftl (byte_val a) 16) (Z.shiftl (byte_val b) 8) in
  let v := assemble (six val 18) (six val 12) (six val 6) 0 in
  to_byte (Z.shiftr v 16) = a /\ to_byte (Z.shiftr v 8) = b.
Proof.
  intros val v. subst v val.
  pose proof (byte_val_range a) as Ha. pose proof (byte_val_range b) as Hb.
  rewrite pack2 by done.
  rewrite assemble_add by (try apply six_range; lia).
  rewrite !six_div by lia. rewrite !Z.shiftr_div_pow2 by lia.
  repeat split; apply to_byte_eq; pow2_lia.
Qed.

Lemma quantum1 a :
  let val := Z.shiftl (byte_val a) 16 in
  let v := assemble (six val 18) (six val 12) 0 0 in
  to_byte (Z.shiftr v 16) = a.
Proof.
  intros val v. subst v val.
  pose proof (byte_val_range a) as Ha.
  rewrite (Z.shiftl_mul_pow2 (byte_val a)) by lia.
  rewrite assemble_add by (try apply six_range; lia).
  rewrite !six_div by lia. rewrite !Z.shiftr_div_pow2 by lia.
  apply to_byte_eq; pow2_lia.
Qed.

Lemma decode_quanta_4 a b c d rest :
  decode_quanta (String a (String b (String c (String d rest)))) =
  if valid a && valid b then
    if valid c then
      if valid d then
        let val := assemble (decodeMap a) (decodeMap b) (decodeMap c) (decodeMap d) in
        match decode_quanta rest with
        | Some out =>
            Some (String (to_byte (Z.shiftr val 16))
                   (String (to_byte (Z.shiftr val 8))
                     (String (to_byte val) out)))
        | None => None
        end
      else if Ascii.eqb d padChar then
        match rest with
        | EmptyString =>
            let val := assemble (decodeMap a) (decodeMap b) (decodeMap c) 0 in
            Some (String (to_byte (Z.shiftr val 16))
                   (String (to_byte (Z.shiftr val 8)) EmptyString))
        | _ => None
        end
      else None
    else if Ascii.eqb c padChar && Ascii.eqb d padChar then
      match rest with
      | EmptyString =>
          let val := assemble (decodeMap a) (decodeMap b) 0 0 in
          Some (String (to_byte (Z.shiftr val 16)) EmptyString)
      | _ => None
      end
    else None
  else None.
Proof. reflexivity. Qed.

Lemma valid_padChar : valid padChar = false.
Proof. reflexivity. Qed.

Lemma decode_quanta_encoded src :
  decode_quanta (EncodeToString src) = Some src.
Proof.
  induction src as [|a|a b|a b c rest IH] using string_ind3.
  - reflexivity.
  - cbn [EncodeToString]. cbv zeta. rewrite decode_quanta_4.
    rewrite !valid_sextet, valid_padChar, Ascii.eqb_refl. cbn [andb]. cbv zeta.
    rewrite !decodeMap_sextet. by rewrite quantum1.
  - cbn [EncodeToString]. cbv zeta. rewrite decode_quanta_4.
    rewrite !valid_sextet, valid_padChar, Ascii.eqb_refl. cbn [andb]. cbv zeta.
    rewrite !decodeMap_sextet.
    destruct (quantum2 a b) as [-> ->]. done.
  - rewrite EncodeToString_3. cbv zeta. rewrite decode_quanta_4.
    rewrite !valid_sextet. cbn [andb]. cbv zeta.
    rewrite !decodeMap_sextet, IH.
    destruct (quantum3 a b c) as (-> & -> & ->). done.
Qed.

(** Decoding an encoded string gives the string back. *)
Lemma DecodeString_EncodeToString src :
  DecodeString (EncodeToString src) = Some src.
Proof.
  unfold DecodeString. rewrite strip_encoded. apply decode_quanta_encoded.
Qed.

End Base64.

(** ** config_center: options shared by the backends *)
Module ConfigCenter.

(** [config_center.Options]; the backends below read only [Group]. *)
Record Options : Type := mkOptions { Group : string; Timeout : Z }.

(** [config_center.Option] is a function that updates an [Options]
    in place. *)
Definition Option : Type := Options -> Options.

Definition WithGroup (group : string) : Option :=
  fun o => {| Group := group; Timeout := Timeout o |}.

Definition WithTimeout (t : Z) : Option :=
  fun o => {| Group := Group o; Timeout := t |}.

(** [tmpOpts := &Options{}; for _, opt := range opts { opt(tmpOpts) }] *)
Definition apply_opts (opts : list Option) : Options :=
  fold_left (fun o opt => opt o) opts {| Group := EmptyString; Timeout := 0 |}.

End ConfigCenter.

(** ** config_center/zookeeper/impl.go *)
Module Zookeeper.
Import GoString ConfigCenter.

Definition pathSeparator : string := "/".

(** The fields of [zookeeperDynamicConfiguration] that [GetProperties],
    [PublishConfig] and [getPath] read.  The zookeeper client is passed
    separately, as the state of the ensemble it talks to. *)
Record zookeeperDynamicConfiguration : Type := {
  rootPath : string;
  base64Enabled : bool;
}.

Section Client.
(** [gxzookeeper.ZookeeperClient] lives outside the repository: its
    state and the two calls made on it are parameters.
    [GetContent] returns the content and the error (the [*Stat] is
    discarded by the caller); [CreateWithValue] returns the error. *)
Variable ZkClient : Type.
Variable GetContent : ZkClient -> string -> string * option error.
Variable CreateWithValue : ZkClient -> string -> string -> ZkClient * option error.
(** [config_center.DEFAULT_GROUP] *)
Variable DEFAULT_GROUP : string.

(** The first half of [GetProperties]: the path handed to
    [c.client.GetContent].  Slicing [key[0:i]] panics when
    [strings.LastIndex] returned [-1]. *)
Definition GetProperties_path (c : zookeeperDynamicConfiguration)
    (key : string) (opts : list Option) : outcome string :=
  let tmpOpts := apply_opts opts in
  if negb (len (Group tmpOpts) =? 0) then
    let key := (Group tmpOpts +:+ "/") +:+ key in
    Returned ((rootPath c +:+ "/") +:+ key)
  else
    let i := LastIndexByte key "."%char in
    pre <-! of_option (slice key 0 i);
    post <-! of_option (slice_from key (i + 1));
    let key := (pre +:+ "/") +:+ post in
    Returned ((rootPath c +:+ "/") +:+ key).

Definition GetProperties (c : zookeeperDynamicConfiguration) (zk : ZkClient)
    (key : string) (opts : list Option) : outcome (string * option error) :=
  path <-! GetProperties_path c key opts;
  let '(content, err) := GetContent zk path in
  match err with
  | Some e => Returned (EmptyString, Some (ErrWithStack e))
  | None =>
      if negb (base64Enabled c) then Returned (content, None)
      else
        match Base64.DecodeString content with
        | None => Returned (EmptyString, Some (ErrWithStack ErrCorruptInput))
        | Some decoded => Returned (decoded, None)
        end
  end.

Definition buildPath (c : zookeeperDynamicConfiguration) (group : string) : string :=
  let group := if len group =? 0 then DEFAULT_GROUP else group in
  (rootPath c +:+ pathSeparator) +:+ group.

Definition getPath (c : zookeeperDynamicConfiguration) (key group : string) : string :=
  if len key =? 0 then buildPath c group
  else (buildPath c group +:+ pathSeparator) +:+ key.

Definition PublishConfig (c : zookeeperDynamicConfiguration) (zk : ZkClient)
    (key group value : string) : ZkClient * option error :=
  let path := getPath c key group in
  let valueBytes := if base64Enabled c then Base64.EncodeToString value else value in
  let '(zk', err) := CreateWithValue zk path valueBytes in
  match err with
  | Some e => (zk', Some (ErrWithStack e))
  | None => (zk', None)
  end.

End Client.

(** A zookeeper ensemble as a map from node paths to contents: reading
    a missing node and creating an existing one fail. *)
Abbreviation MapZk := (gmap string string).

Definition ErrNoNode : error := ErrExternal (-101).
Definition ErrNodeExists : error := ErrExternal (-110).

Definition map_GetContent (zk : MapZk) (path : string) : string * option error :=
  match zk !! path with
  | Some v => (v, None)
  | None => (EmptyString, Some ErrNoNode)
  end.

Definition map_CreateWithValue (zk : MapZk) (path value : string)
    : MapZk * option error :=
  match zk !! path with
  | Some _ => (zk, Some ErrNodeExists)
  | None => (<[path := value]> zk, None)
  end.

Definition demo : zookeeperDynamicConfiguration :=
  {| rootPath := "/dubbo/config"; base64Enabled := false |}.

Definition demo64 : zookeeperDynamicConfiguration :=
  {| rootPath := "/dubbo/config"; base64Enabled := true |}.

Example path_governance :
  GetProperties_path demo "org.apache.dubbo.DemoService.configurators" []
  = Returned "/dubbo/config/org.apache.dubbo.DemoService/configurators"%string.
Proof. reflexivity. Qed.

Example path_startup :
  GetProperties_path demo "dubbo.properties" [WithGroup "dubbo"]
  = Returned "/dubbo/config/dubbo/dubbo.properties"%string.
Proof. reflexivity. Qed.

Example path_no_dot : GetProperties_path demo "dubbo" [] = Panicked.
Proof. reflexivity. Qed.

Lemma len_zero_iff s : len s = 0 <-> s = EmptyString.
Proof.
  destruct s as [|a s]; [done|].
  rewrite len_cons. pose proof (len_nonneg s). split; [lia|done].
Qed.

Lemma group_test_nonempty g : g <> EmptyString -> negb (len g =? 0) = true.
Proof.
  intros Hg. apply negb_true_iff, Z.eqb_neq. by rewrite len_zero_iff.
Qed.

(** With a group option the fetched path is root/group/key. *)
Lemma GetProperties_path_group c key opts :
  Group (apply_opts opts) <> EmptyString ->
  GetProperties_path c key opts
  = Returned ((rootPath c +:+ "/") +:+ ((Group (apply_opts opts) +:+ "/") +:+ key)).
Proof.
  intros Hg. unfold GetProperties_path. by rewrite group_test_nonempty.
Qed.

(** Without a group the key is cut at its last ['.'] only. *)
Lemma GetProperties_path_split c p q opts :
  Group (apply_opts opts) = EmptyString ->
  lacks "." q = true ->
  GetProperties_path c (p +:+ String "." q) opts
  = Returned ((rootPath c +:+ "/") +:+ ((p +:+ "/") +:+ q)).
Proof.
  intros Hg Hq. unfold GetProperties_path. rewrite Hg.
  change (negb (len "" =? 0)) with false. cbv iota zeta.
  rewrite LastIndexByte_app by done.
  rewrite slice_prefix, slice_from_suffix. reflexivity.
Qed.

(** Without a group and without a ['.'] in the key, slicing panics. *)
Lemma GetProperties_path_no_dot c key opts :
  Group (apply_opts opts) = EmptyString ->
  lacks "." key = true ->
  GetProperties_path c key opts = Panicked.
Proof.
  intros Hg Hk. unfold GetProperties_path. rewrite Hg.
  change (negb (len "" =? 0)) with false. cbv iota zeta.
  by rewrite LastIndexByte_lacks.
Qed.

(** C6, as the code has it: with a non-empty group option the fetched
    path is [rootPath + "/" + group + "/" + key]; with no group the key
    is cut at its final ['.'] into exactly two segments, the earlier
    dots staying in the first one.  So the governance-rule key
    ["org.apache.dubbo.DemoService.configurators"] resolves to
    ["org.apache.dubbo.DemoService/configurators"] under the root, and
    group ["dubbo"] with key ["dubbo.properties"] to
    ["dubbo/dubbo.properties"]. *)
Theorem GetProperties_path_resolution c :
  (forall key opts,
      Group (apply_opts opts) <> EmptyString ->
      GetProperties_path c key opts
      = Returned ((rootPath c +:+ "/") +:+ ((Group (apply_opts opts) +:+ "/") +:+ key)))
  /\ (forall p q opts,
      Group (apply_opts opts) = EmptyString ->
      lacks "." q = true ->
      GetProperties_path c (p +:+ String "." q) opts
      = Returned ((rootPath c +:+ "/") +:+ ((p +:+ "/") +:+ q)))
  /\ GetProperties_path c "org.apache.dubbo.DemoService.configurators" []
     = Returned ((rootPath c +:+ "/") +:+ "org.apache.dubbo.DemoService/configurators")
  /\ GetProperties_path c "dubbo.properties" [WithGroup "dubbo"]
     = Returned ((rootPath c +:+ "/") +:+ "dubbo/dubbo.properties").
Proof.
  split; [apply GetProperties_path_group|].
  split; [apply GetProperties_path_split|].
  split.
  - apply (GetProperties_path_split c "org.apache.dubbo.DemoService"
             "configurators" []); reflexivity.
  - rewrite GetProperties_path_group by (cbn; discriminate). reflexivity.
Qed.

(** The rule at the two keys of the source comments. *)
Lemma GetProperties_path_resolution_witness :
  GetProperties_path demo "dubbo.properties" [WithGroup "dubbo"]
  = Returned "/dubbo/config/dubbo/dubbo.properties"%string
  /\ GetProperties_path demo ("org.apache.dubbo.DemoService" +:+ String "." "condition-router") []
  = Returned "/dubbo/config/org.apache.dubbo.DemoService/condition-router"%string.
Proof.
  destruct (GetProperties_path_resolution demo) as (Hg & Hs & _ & _).
  split.
  - apply (Hg "dubbo.properties" [WithGroup "dubbo"]). cbn. discriminate.
  - apply (Hs "org.apache.dubbo.DemoService" "condition-router" []); reflexivity.
Defined.

(** The dotted key is not turned into one path segment per component:
    the content stored under [org/apache/dubbo/DemoService/configurators]
    is not the one [GetProperties] fetches. *)
Lemma GetProperties_path_not_all_dots :
  GetProperties_path demo "org.apache.dubbo.DemoService.configurators" []
  <> Returned ((rootPath demo +:+ "/") +:+ "org/apache/dubbo/DemoService/configurators")
  /\ GetProperties MapZk map_GetContent demo
       {[ "/dubbo/config/org/apache/dubbo/DemoService/configurators"%string := "rule"%string ]}
       "org.apache.dubbo.DemoService.configurators" []
     = Returned (EmptyString, Some (ErrWithStack ErrNoNode))
  /\ GetProperties MapZk map_GetContent demo
       {[ "/dubbo/config/org.apache.dubbo.DemoService/configurators"%string := "rule"%string ]}
       "org.apache.dubbo.DemoService.configurators" []
     = Returned ("rule"%string, None).
Proof.
  split; [vm_compute; discriminate|].
  split; vm_compute; reflexivity.
Qed.

(** C9: with no group option and a key without ['.'],
    [strings.LastIndex] returns [-1], the slice [key[0:-1]] is out of
    range and [GetProperties] panics: it returns no value and no error,
    whatever the zookeeper client would have answered. *)
Theorem GetProperties_no_dot_panics
    (ZkClient : Type) (GetContent : ZkClient -> string -> string * option error)
    c zk key opts :
  Group (apply_opts opts) = EmptyString ->
  lacks "." key = true ->
  LastIndexByte key "." = -1
  /\ slice key 0 (LastIndexByte key ".") = None
  /\ GetProperties ZkClient GetContent c zk key opts = Panicked.
Proof.
  intros Hg Hk. split; [by apply LastIndexByte_lacks|]. split.
  - rewrite LastIndexByte_lacks by done. reflexivity.
  - unfold GetProperties. by rewrite GetProperties_path_no_dot.
Qed.

(** The panic is reached through the public method with a plain key. *)
Lemma GetProperties_no_dot_panics_witness :
  LastIndexByte "dubbo" "." = -1
  /\ slice "dubbo" 0 (LastIndexByte "dubbo" ".") = None
  /\ GetProperties MapZk map_GetContent demo
       {[ "/dubbo/config/dubbo"%string := "x"%string ]} "dubbo" [] = Panicked.
Proof.
  apply (GetProperties_no_dot_panics MapZk map_GetContent demo _ "dubbo" []);
    reflexivity.
Defined.

Lemma map_create_then_get (zk : MapZk) path v (zk' : MapZk) :
  map_CreateWithValue zk path v = (zk', None) ->
  map_GetContent zk' path = (v, None).
Proof.
  unfold map_CreateWithValue, map_GetContent.
  destruct (zk !! path) eqn:E; [discriminate|].
  intros [= <-]. by rewrite lookup_insert_eq.
Qed.

Section RoundTrip.
Variable ZkClient : Type.
Variable GetContent : ZkClient -> string -> string * option error.
Variable CreateWithValue : ZkClient -> string -> string -> ZkClient * option error.
Variable DEFAULT_GROUP : string.

(** What is asked of the zookeeper client: a node that was created
    without error reads back with the content it was created with. *)
Hypothesis create_then_get : forall zk path v zk',
  CreateWithValue zk path v = (zk', None) ->
  GetContent zk' path = (v, None).

Lemma PublishConfig_stores c zk key group value zk' :
  PublishConfig ZkClient CreateWithValue DEFAULT_GROUP c zk key group value = (zk', None) ->
  GetContent zk' (getPath DEFAULT_GROUP c key group)
  = (if base64Enabled c then Base64.EncodeToString value else value, None).
Proof.
  unfold PublishConfig.
  destruct (CreateWithValue zk _ _) as [zk1 [e|]] eqn:E; [discriminate|].
  intros [= <-]. exact (create_then_get _ _ _ _ E).
Qed.

Lemma getPath_with_group c key group :
  key <> EmptyString -> group <> EmptyString ->
  GetProperties_path c key [WithGroup group]
  = Returned (getPath DEFAULT_GROUP c key group).
Proof.
  intros Hk Hg. rewrite GetProperties_path_group by done.
  unfold getPath, buildPath, pathSeparator. cbn [apply_opts fold_left WithGroup Group].
  destruct (len key =? 0) eqn:E1.
  { apply Z.eqb_eq, len_zero_iff in E1. done. }
  destruct (len group =? 0) eqn:E2.
  { apply Z.eqb_eq, len_zero_iff in E2. done. }
  f_equal. by rewrite !append_assoc.
Qed.

(** C7: [PublishConfig] stores the base64 encoding of the value when the
    flag is set and the value itself otherwise; a [GetProperties] that
    resolves to the path just published returns the original value, for
    either setting of the flag; for a non-empty key and group that is
    the [GetProperties] of the same key with the group option. *)
Theorem PublishConfig_GetProperties_roundtrip c zk key group value zk' :
  PublishConfig ZkClient CreateWithValue DEFAULT_GROUP c zk key group value = (zk', None) ->
  GetContent zk' (getPath DEFAULT_GROUP c key group)
  = (if base64Enabled c then Base64.EncodeToString value else value, None)
  /\ (forall key' opts',
        GetProperties_path c key' opts' = Returned (getPath DEFAULT_GROUP c key group) ->
        GetProperties ZkClient GetContent c zk' key' opts' = Returned (value, None))
  /\ (key <> EmptyString -> group <> EmptyString ->
        GetProperties ZkClient GetContent c zk' key [WithGroup group]
        = Returned (value, None)).
Proof.
  intros Hpub. pose proof (PublishConfig_stores _ _ _ _ _ _ Hpub) as Hst.
  assert (forall key' opts',
    GetProperties_path c key' opts' = Returned (getPath DEFAULT_GROUP c key group) ->
    GetProperties ZkClient GetContent c zk' key' opts' = Returned (value, None)) as Hget.
  { intros key' opts' Hp. unfold GetProperties. rewrite Hp.
    cbn [outcome_bind]. rewrite Hst.
    destruct (base64Enabled c); cbn [negb]; [|reflexivity].
    by rewrite Base64.DecodeString_EncodeToString. }
  split; [exact Hst|]. split; [exact Hget|].
  intros Hk Hg. apply Hget. by apply getPath_with_group.
Qed.

End RoundTrip.

(** The round trip on the map model of zookeeper, with base64 on. *)
Lemma PublishConfig_GetProperties_roundtrip_witness :
  map_GetContent
    {[ "/dubbo/config/dubbo/dubbo.properties"%string := "YT1i"%string ]}
    "/dubbo/config/dubbo/dubbo.properties"
  = ("YT1i"%string, None)
  /\ GetProperties MapZk map_GetContent demo64
       {[ "/dubbo/config/dubbo/dubbo.properties"%string := "YT1i"%string ]}
       "dubbo.properties" [WithGroup "dubbo"]
     = Returned ("a=b"%string, None).
Proof.
  destruct (PublishConfig_GetProperties_roundtrip MapZk map_GetContent
              map_CreateWithValue "dubbo" map_create_then_get demo64 ∅
              "dubbo.properties" "dubbo" "a=b"
              {[ "/dubbo/config/dubbo/dubbo.properties"%string := "YT1i"%string ]})
    as (Hst & _ & Hget).
  - reflexivity.
  - split; [exact Hst|]. apply Hget; discriminate.
Defined.

(** *** The keys of a group, groupless publishing, and the base64 flag *)

Section Keys.
Variable ZkClient : Type.
(** [c.client.GetChildren]: the names of the children of a node, and
    the error. *)
Variable GetChildren : ZkClient -> string -> list string * option error.
Variable DEFAULT_GROUP : string.

(** [gxset.HashSet] as a finite set of strings; the loop adds the
    children one by one. *)
Definition GetConfigKeysByGroup (c : zookeeperDynamicConfiguration) (zk : ZkClient)
    (group : string) : option (gset string) * option error :=
  let path := getPath DEFAULT_GROUP c "" group in
  let '(result, err) := GetChildren zk path in
  match err with
  | Some e => (None, Some (ErrWithStack e))
  | None =>
      if Z.of_nat (length result) =? 0
      then (None, Some (ErrNew ("could not find keys with group: " +:+ group)))
      else (Some (fold_left (fun set e => {[ e ]} ∪ set) result ∅), None)
  end.

Lemma fold_add_elem (l : list string) (acc : gset string) k :
  k ∈ fold_left (fun set e => {[ e ]} ∪ set) l acc <-> k ∈ l \/ k ∈ acc.
Proof.
  revert acc. induction l as [|x l IH]; intros acc; cbn [fold_left].
  - rewrite elem_of_nil. tauto.
  - rewrite IH, elem_of_cons, elem_of_union, elem_of_singleton. tauto.
Qed.

(** X9: [GetConfigKeysByGroup] lists the children of the node
    [rootPath/group], of [rootPath/DEFAULT_GROUP] when the group is
    empty.  An error of the client comes back wrapped and without a
    set; a node without children is an error that names the group as
    it was given; otherwise the set returned holds exactly the names of
    the children, so it is never empty, and no error. *)
Theorem GetConfigKeysByGroup_spec c zk group children err :
  GetChildren zk (getPath DEFAULT_GROUP c "" group) = (children, err) ->
  getPath DEFAULT_GROUP c "" group
  = (rootPath c +:+ "/") +:+ (if len group =? 0 then DEFAULT_GROUP else group)
  /\ (forall e, err = Some e ->
     GetConfigKeysByGroup c zk group = (None, Some (ErrWithStack e)))
  /\ (err = None -> children = [] ->
      GetConfigKeysByGroup c zk group
      = (None, Some (ErrNew ("could not find keys with group: " +:+ group))))
  /\ (err = None -> children <> [] ->
      exists set,
        GetConfigKeysByGroup c zk group = (Some set, None)
        /\ (forall k, k ∈ set <-> k ∈ children)
        /\ set <> ∅).
Proof.
  intros Hch. split; [reflexivity|].
  unfold GetConfigKeysByGroup. cbv zeta. rewrite Hch.
  split; [by intros e ->|]. split.
  - by intros -> ->.
  - intros -> Hne. destruct children as [|x l]; [done|].
    change (Z.of_nat (length (x :: l)) =? 0) with false. cbv iota.
    eexists. split; [reflexivity|]. split.
    + intros k. rewrite fold_add_elem, elem_of_empty. tauto.
    + intros Hset.
      assert (x ∈ fold_left (fun set e => {[ e ]} ∪ set) (x :: l) (∅ : gset string))
        as Hx by (apply fold_add_elem; left; by left).
      rewrite Hset in Hx. by apply elem_of_empty in Hx.
Qed.

End Keys.

(** A client whose state is the list of the children of the node
    [/dubbo/config/dubbo], the only node that has any. *)
Definition demo_children (zk : list string) (path : string)
    : list string * option error :=
  (if String.eqb path "/dubbo/config/dubbo" then zk else [], None).

Lemma GetConfigKeysByGroup_spec_witness :
  exists set,
    GetConfigKeysByGroup (list string) demo_children "dubbo" demo
      ["a.properties"; "b.properties"; "a.properties"]%string ""
    = (Some set, None)
    /\ (forall k, k ∈ set <-> k ∈ ["a.properties"; "b.properties"; "a.properties"]%string)
    /\ set <> ∅.
Proof.
  destruct (GetConfigKeysByGroup_spec (list string) demo_children "dubbo" demo
              ["a.properties"; "b.properties"; "a.properties"]%string ""
              ["a.properties"; "b.properties"; "a.properties"]%string None)
    as (_ & _ & _ & H); [reflexivity|].
  apply H; [reflexivity|discriminate].
Defined.





Section Groupless.
Variable ZkClient : Type.
Variable GetContent : ZkClient -> string -> string * option error.
Variable CreateWithValue : ZkClient -> string -> string -> ZkClient * option error.
Variable DEFAULT_GROUP : string.

Hypothesis create_then_get : forall zk path v zk',
  CreateWithValue zk path v = (zk', None) ->
  GetContent zk' path = (v, None).



End Groupless.


(** The encoding of a string that is not empty is longer than the
    string, and what decodes is longer than what it decodes to. *)
Lemma EncodeToString_longer src :
  src <> EmptyString ->
  (String.length src < String.length (Base64.EncodeToString src))%nat.
Proof.
  intros Hne.
  assert (src = EmptyString
          \/ (String.length src < String.length (Base64.EncodeToString src))%nat)
    as [H|H]; [|done|done].
  clear Hne. induction src as [|a|a b|a b c rest IH] using Base64.string_ind3.
  - by left.
  - right. cbn. lia.
  - right. cbn. lia.
  - right. rewrite Base64.EncodeToString_3. cbv zeta. cbn [String.length].
    destruct IH as [->|IH]; [cbn; lia|lia].
Qed.

Lemma decode_quanta_shorter s out :
  Base64.decode_quanta s = Some out ->
  (4 * String.length out <= 3 * String.length s)%nat.
Proof.
  assert (forall n s, (String.length s <= n)%nat -> forall out,
            Base64.decode_quanta s = Some out ->
            (4 * String.length out <= 3 * String.length s)%nat) as H.
  { clear. induction n as [|n IH]; intros s Hn out.
    - destruct s; [|cbn in Hn; lia]. intros [= <-]. cbn. lia.
    - destruct s as [|a [|b [|c [|d rest]]]]; try discriminate.
      { intros [= <-]. cbn. lia. }
      rewrite Base64.decode_quanta_4. cbn [String.length] in Hn |- *.
      destruct (Base64.valid a && Base64.valid b); [|discriminate].
      destruct (Base64.valid c).
      + destruct (Base64.valid d).
        * destruct (Base64.decode_quanta rest) as [o|] eqn:E; [|discriminate].
          cbv zeta. intros [= <-]. cbn [String.length].
          assert (String.length rest <= n)%nat as Hr by lia.
          pose proof (IH rest Hr o E). lia.
        * destruct (Ascii.eqb d Base64.padChar); [|discriminate].
          destruct rest; [|discriminate]. cbv zeta. intros [= <-]. cbn. lia.
      + destruct (Ascii.eqb c Base64.padChar && Ascii.eqb d Base64.padChar);
          [|discriminate].
        destruct rest; [|discriminate]. cbv zeta. intros [= <-]. cbn. lia. }
  by apply (H (String.length s)).
Qed.

Lemma strip_newlines_length s :
  (String.length (Base64.strip_newlines s) <= String.length s)%nat.
Proof.
  induction s as [|a s IH]; [done|]. cbn [Base64.strip_newlines].
  destruct (Base64.is_newline a); cbn [String.length]; lia.
Qed.

Lemma DecodeString_not_itself v : v <> EmptyString -> Base64.DecodeString v <> Some v.
Proof.
  intros Hne H. unfold Base64.DecodeString in H.
  apply decode_quanta_shorter in H.
  pose proof (strip_newlines_length v).
  destruct v; [done|]. cbn [String.length] in *. lia.
Qed.

Section FlagMismatch.
Variable ZkClient : Type.
Variable GetContent : ZkClient -> string -> string * option error.
Variable CreateWithValue : ZkClient -> string -> string -> ZkClient * option error.
Variable DEFAULT_GROUP : string.

Hypothesis create_then_get : forall zk path v zk',
  CreateWithValue zk path v = (zk', None) ->
  GetContent zk' path = (v, None).

(** X11: writer and reader must agree on the base64 flag.  When the
    configuration that publishes a value that is not empty and the one
    that reads the node differ in the flag, the read never returns the
    value published: with the flag on the writer's side only, it
    returns the base64 text as if it were the value, without error;
    with the flag on the reader's side only, it returns an error or
    what the value decodes to, which is not the value. *)
Theorem base64_flag_mismatch cw cr zk key group value zk' key' opts' :
  base64Enabled cr = negb (base64Enabled cw) ->
  value <> EmptyString ->
  PublishConfig ZkClient CreateWithValue DEFAULT_GROUP cw zk key group value
  = (zk', None) ->
  GetProperties_path cr key' opts' = Returned (getPath DEFAULT_GROUP cw key group) ->
  GetProperties ZkClient GetContent cr zk' key' opts' <> Returned (value, None)
  /\ (base64Enabled cw = true ->
      GetProperties ZkClient GetContent cr zk' key' opts'
      = Returned (Base64.EncodeToString value, None))
  /\ (base64Enabled cw = false ->
      GetProperties ZkClient GetContent cr zk' key' opts'
      = match Base64.DecodeString value with
        | Some decoded => Returned (decoded, None)
        | None => Returned (EmptyString, Some (ErrWithStack ErrCorruptInput))
        end).
Proof.
  intros Hflag Hne Hpub Hp.
  pose proof (PublishConfig_stores _ _ _ _ create_then_get _ _ _ _ _ _ Hpub) as Hst.
  unfold GetProperties. rewrite Hp. cbn [outcome_bind]. rewrite Hst, Hflag.
  destruct (base64Enabled cw); cbn [negb].
  - split; [|split; [done|discriminate]].
    intros [= H]. pose proof (EncodeToString_longer value Hne) as Hl.
    rewrite H in Hl. lia.
  - split; [|split; [discriminate|done]].
    pose proof (DecodeString_not_itself value Hne) as Hd.
    destruct (Base64.DecodeString value) as [d|]; [|discriminate].
    intros [= ->]. done.
Qed.

End FlagMismatch.

(** Published with the flag on, read with the flag off. *)
Lemma base64_flag_mismatch_witness :
  GetProperties MapZk map_GetContent demo
    {[ "/dubbo/config/dubbo/dubbo.properties"%string := "YT1i"%string ]}
    "dubbo.properties" [WithGroup "dubbo"]
  <> Returned ("a=b"%string, None)
  /\ GetProperties MapZk map_GetContent demo
       {[ "/dubbo/config/dubbo/dubbo.properties"%string := "YT1i"%string ]}
       "dubbo.properties" [WithGroup "dubbo"]
     = Returned ("YT1i"%string, None).
Proof.
  destruct (base64_flag_mismatch MapZk map_GetContent map_CreateWithValue "dubbo"
              map_create_then_get demo64 demo ∅ "dubbo.properties" "dubbo" "a=b"
              {[ "/dubbo/config/dubbo/dubbo.properties"%string := "YT1i"%string ]}
              "dubbo.properties" [WithGroup "dubbo"])
    as (Hne & Hon & _); [reflexivity|discriminate|reflexivity|reflexivity|].
  split; [exact Hne|]. apply Hon. reflexivity.
Defined.

Lemma LastIndexByte_found s c : lacks c s = false -> 0 <= LastIndexByte s c.
Proof.
  induction s as [|a s IH]; cbn [lacks LastIndexByte]; [done|].
  intros H. destruct (0 <=? LastIndexByte s c) eqn:E.
  - apply Z.leb_le in E. lia.
  - destruct (Ascii.eqb a c); [done|]. cbn [negb andb] in H.
    apply IH in H. apply Z.leb_gt in E. lia.
Qed.

Lemma GetProperties_path_panics_iff c key opts :
  GetProperties_path c key opts = Panicked
  <-> Group (apply_opts opts) = EmptyString /\ lacks "." key = true.
Proof.
  split; [|intros [Hg Hk]; by apply GetProperties_path_no_dot].
  unfold GetProperties_path.
  destruct (len (Group (apply_opts opts)) =? 0) eqn:Hg; cbn [negb]; [|done].
  apply Z.eqb_eq, len_zero_iff in Hg. cbv zeta.
  destruct (lacks "." key) eqn:Hk; [done|].
  pose proof (LastIndexByte_found _ _ Hk) as H0.
  pose proof (LastIndexByte_range key ".") as [_ H1].
  unfold slice_from, slice.
  replace ((0 <=? 0) && (0 <=? LastIndexByte key ".")
           && (LastIndexByte key "." <=? len key))
    with true by (symmetry; rewrite !andb_true_iff, !Z.leb_le; lia).
  replace ((0 <=? LastIndexByte key "." + 1)
           && (LastIndexByte key "." + 1 <=? len key) && (len key <=? len key))
    with true by (symmetry; rewrite !andb_true_iff, !Z.leb_le; lia).
  done.
Qed.

Section Outcome.
Variable ZkClient : Type.
Variable GetContent : ZkClient -> string -> string * option error.

(** X16: how [GetProperties] ends.  It panics exactly when no group is
    given and the key has no ['.']; otherwise it asks the client for
    one path and returns.  What it returns is the wrapped error of the
    client with an empty string; or, the flag being set and the content
    not base64, the wrapped corrupt-input error with an empty string;
    or a value without error, which is the content, decoded when the
    flag is set.  It never returns an error together with a value. *)
Theorem GetProperties_outcome c zk key opts :
  (GetProperties ZkClient GetContent c zk key opts = Panicked
   <-> Group (apply_opts opts) = EmptyString /\ lacks "." key = true)
  /\ (forall path content err,
        GetProperties_path c key opts = Returned path ->
        GetContent zk path = (content, err) ->
        GetProperties ZkClient GetContent c zk key opts
        = Returned
            match err with
            | Some e => (EmptyString, Some (ErrWithStack e))
            | None =>
                if base64Enabled c then
                  match Base64.DecodeString content with
                  | Some decoded => (decoded, None)
                  | None => (EmptyString, Some (ErrWithStack ErrCorruptInput))
                  end
                else (content, None)
            end)
  /\ (forall v e,
        GetProperties ZkClient GetContent c zk key opts = Returned (v, Some e) ->
        v = EmptyString /\ exists e0, e = ErrWithStack e0).
Proof.
  split; [|split].
  - rewrite <- (GetProperties_path_panics_iff c key opts). unfold GetProperties.
    destruct (GetProperties_path c key opts) as [path|]; [|by split].
    cbn [outcome_bind].
    destruct (GetContent zk path) as [content [e|]]; [by split|].
    destruct (base64Enabled c); cbn [negb]; [|by split].
    by destruct (Base64.DecodeString content); split.
  - intros path content err Hp Hc. unfold GetProperties.
    rewrite Hp. cbn [outcome_bind]. rewrite Hc.
    destruct err as [e|]; [done|].
    destruct (base64Enabled c); cbn [negb]; [|done].
    by destruct (Base64.DecodeString content).
  - intros v e. unfold GetProperties.
    destruct (GetProperties_path c key opts) as [path|]; [|done].
    cbn [outcome_bind]. destruct (GetContent zk path) as [content [e0|]].
    + intros [= <- <-]. split; [done|by eexists].
    + destruct (base64Enabled c); cbn [negb]; [|done].
      destruct (Base64.DecodeString content); [done|].
      intros [= <- <-]. split; [done|by eexists].
Qed.

End Outcome.

End Zookeeper.

(** ** config_center/apollo/impl.go *)
Module Apollo.
Import GoString ConfigCenter.

(** [config.AppConfig] of agollo; [GetProperties] reads the namespace. *)
Record AppConfig : Type := { NamespaceName : string }.

Record apolloConfiguration : Type := { appConf : AppConfig }.

(** The configurations agollo holds, by namespace: [agollo.GetConfig]
    looks a namespace up and gives [nil] when there is none;
    [GetContent] is the content string of the configuration found. *)
Abbreviation AgolloCache := (gmap string string).

Definition agollo_GetConfig (cache : AgolloCache) (namespace : string)
    : option string :=
  cache !! namespace.

(** [fmt.Sprintf("nothing in namespace:%s ", key)] *)
Definition nothing_in_namespace (key : string) : error :=
  ErrNew (("nothing in namespace:" +:+ key) +:+ " ").

(** [PublishConfig] ignores its three arguments and touches nothing;
    the cache is threaded through to say so. *)
Definition PublishConfig (c : apolloConfiguration) (cache : AgolloCache)
    (key group value : string) : AgolloCache * option error :=
  (cache, Some (ErrNew "unsupport operation")).

(** [content = string(b[8:])] panics when [len(b) < 8]. *)
Definition GetProperties (c : apolloConfiguration) (cache : AgolloCache)
    (key : string) (opts : list Option) : outcome (string * option error) :=
  let key := if String.eqb key EmptyString then NamespaceName (appConf c) else key in
  match agollo_GetConfig cache key with
  | None => Returned (EmptyString, Some (nothing_in_namespace key))
  | Some content =>
      if len content =? 0
      then Returned (EmptyString, Some (nothing_in_namespace key))
      else
        content <-! of_option (slice_from content 8);
        Returned (content, None)
  end.

Definition demo : apolloConfiguration :=
  {| appConf := {| NamespaceName := "dubbo" |} |}.

Example strip_prefix :
  GetProperties demo {[ "dubbo"%string := "content=a=b"%string ]} "" []
  = Returned ("a=b"%string, None).
Proof. reflexivity. Qed.

Example strip_other :
  GetProperties demo {[ "app.yml"%string := "timeout: 5s"%string ]} "app.yml" []
  = Returned (" 5s"%string, None).
Proof. reflexivity. Qed.

Example short_panics :
  GetProperties demo {[ "app.yml"%string := "a=b"%string ]} "app.yml" [] = Panicked.
Proof. reflexivity. Qed.

(** The namespace [GetProperties] looks up. *)
Definition effective_key (c : apolloConfiguration) (key : string) : string :=
  if String.eqb key EmptyString then NamespaceName (appConf c) else key.

Lemma len_length s : len s = Z.of_nat (String.length s).
Proof. reflexivity. Qed.

Lemma slice_from_8 pre rest :
  String.length pre = 8%nat -> slice_from (pre +:+ rest) 8 = Some rest.
Proof.
  intros Hp. unfold slice_from, slice. rewrite len_app.
  assert (len pre = 8) as Hl by (unfold len; lia).
  rewrite Hl. pose proof (len_nonneg rest).
  replace ((0 <=? 8) && (8 <=? 8 + len rest) && (8 + len rest <=? 8 + len rest))
    with true by (symmetry; rewrite !andb_true_iff, !Z.leb_le; lia).
  f_equal. replace (Z.to_nat 8) with (String.length pre) by lia.
  rewrite substring_skip_app.
  replace (Z.to_nat _) with (String.length rest) by (unfold len; lia).
  apply substring_0_all.
Qed.

Lemma slice_from_short s : len s < 8 -> slice_from s 8 = None.
Proof.
  intros Hs. unfold slice_from, slice.
  replace (8 <=? len s) with false by (symmetry; apply Z.leb_gt; lia).
  reflexivity.
Qed.

(** C8: [PublishConfig] fails with the "unsupport operation" error for
    every key, group and value, and leaves the configurations as they
    were, so that every later read answers as before. *)
Theorem PublishConfig_unsupported c cache key group value :
  PublishConfig c cache key group value
  = (cache, Some (ErrNew "unsupport operation"))
  /\ forall k opts,
       GetProperties c (fst (PublishConfig c cache key group value)) k opts
       = GetProperties c cache k opts.
Proof. split; reflexivity. Qed.

(** C10: the first 8 bytes of a non-empty content are dropped whatever
    they are: a content made of any 8 bytes followed by [rest] comes
    back as [rest]; a content of 1 to 7 bytes makes the slice [b[8:]]
    out of range and the call panics. *)
Theorem GetProperties_drops_8_bytes c cache key opts content :
  agollo_GetConfig cache (effective_key c key) = Some content ->
  (forall pre rest,
      content = pre +:+ rest -> String.length pre = 8%nat ->
      GetProperties c cache key opts = Returned (rest, None))
  /\ (8 <= len content ->
      GetProperties c cache key opts
      = Returned (substring 8 (String.length content - 8) content, None))
  /\ (1 <= len content <= 7 ->
      GetProperties c cache key opts = Panicked).
Proof.
  intros Hc. unfold GetProperties. fold (effective_key c key). rewrite Hc.
  split; [|split].
  - intros pre rest -> Hp.
    assert ((len (pre +:+ rest) =? 0) = false) as ->.
    { apply Z.eqb_neq. rewrite len_app. pose proof (len_nonneg rest).
      unfold len at 1. lia. }
    by rewrite slice_from_8.
  - intros Hl.
    assert ((len content =? 0) = false) as -> by (apply Z.eqb_neq; lia).
    unfold slice_from, slice.
    replace ((0 <=? 8) && (8 <=? len content) && (len content <=? len content))
      with true by (symmetry; rewrite !andb_true_iff, !Z.leb_le; lia).
    cbn [of_option outcome_bind]. do 3 f_equal.
    unfold len in *. lia.
  - intros Hl.
    assert ((len content =? 0) = false) as -> by (apply Z.eqb_neq; lia).
    rewrite slice_from_short by lia. reflexivity.
Qed.

(** A content that does not start with ["content="] loses its first 8
    bytes all the same, and a 3-byte content panics. *)
Lemma GetProperties_drops_8_bytes_witness :
  GetProperties demo {[ "app.yml"%string := "timeout: 5s"%string ]} "app.yml" []
  = Returned (" 5s"%string, None)
  /\ GetProperties demo {[ "app.yml"%string := "a=b"%string ]} "app.yml" []
  = Panicked.
Proof.
  split.
  - refine (proj1 (GetProperties_drops_8_bytes demo
                {[ "app.yml"%string := "timeout: 5s"%string ]} "app.yml" []
                "timeout: 5s" _) "timeout:" " 5s" _ _); reflexivity.
  - refine (proj2 (proj2 (GetProperties_drops_8_bytes demo
                {[ "app.yml"%string := "a=b"%string ]} "app.yml" []
                "a=b" _)) _); [reflexivity|].
    vm_compute. split; discriminate.
Defined.

(** X14: the ways [GetProperties] ends without a value.  It answers the
    error "nothing in namespace:" with the key it looked up, and an
    empty string, exactly when agollo has no configuration of that name
    or one whose content is empty; it answers no other error, and never
    an error together with a value.  The key looked up is the namespace
    of the configuration when the key given is empty.  A content of
    exactly 8 bytes is an empty value without error. *)
Theorem GetProperties_nothing c cache key opts :
  (GetProperties c cache key opts
   = Returned (EmptyString, Some (nothing_in_namespace (effective_key c key)))
   <-> agollo_GetConfig cache (effective_key c key) = None
       \/ agollo_GetConfig cache (effective_key c key) = Some EmptyString)
  /\ (forall v e,
        GetProperties c cache key opts = Returned (v, Some e) ->
        v = EmptyString /\ e = nothing_in_namespace (effective_key c key))
  /\ effective_key c EmptyString = NamespaceName (appConf c)
  /\ (forall k, k <> EmptyString -> effective_key c k = k)
  /\ (forall content,
        agollo_GetConfig cache (effective_key c key) = Some content ->
        String.length content = 8%nat ->
        GetProperties c cache key opts = Returned (EmptyString, None)).
Proof.
  unfold GetProperties. fold (effective_key c key).
  split; [|split; [|split; [|split]]].
  - destruct (agollo_GetConfig cache (effective_key c key)) as [content|] eqn:E.
    + destruct content as [|a content].
      * split; [by right|done].
      * assert ((len (String a content) =? 0) = false) as ->.
        { apply Z.eqb_neq. rewrite len_cons. pose proof (len_nonneg content). lia. }
        split; [|by intros [|]].
        by destruct (slice_from (String a content) 8).
    + split; [by left|done].
  - intros v e.
    destruct (agollo_GetConfig cache (effective_key c key)) as [content|].
    + destruct (len content =? 0); [by intros [= <- <-]|].
      by destruct (slice_from content 8).
    + by intros [= <- <-].
  - reflexivity.
  - intros k Hk. unfold effective_key.
    destruct (String.eqb_spec k EmptyString); done.
  - intros content -> Hl.
    assert ((len content =? 0) = false) as ->
      by (apply Z.eqb_neq; unfold len; lia).
    replace content with (content +:+ EmptyString).
    2:{ clear. induction content as [|a s IH]; [done|]. by rewrite app_cons, IH. }
    by rewrite slice_from_8.
Qed.

End Apollo.

(** ** strconv and strings *)
Module GoStd.
Import GoString.

(** [strconv.ParseBool]: the value and the error. *)
Definition ParseBool (str : string) : bool * option error :=
  if String.eqb str "1" || String.eqb str "t" || String.eqb str "T"
     || String.eqb str "TRUE" || String.eqb str "true" || String.eqb str "True"
  then (true, None)
  else if String.eqb str "0" || String.eqb str "f" || String.eqb str "F"
     || String.eqb str "FALSE" || String.eqb str "false" || String.eqb str "False"
  then (false, None)
  else (false, Some (ErrSyntax "ParseBool" str)).

(** [strconv.Itoa] *)
Definition Itoa (i : Z) : string := NilZero.string_of_int (Z.to_int i).

(** [strings.Join] *)
Fixpoint Join (elems : list string) (sep : string) : string :=
  match elems with
  | [] => EmptyString
  | [x] => x
  | x :: rest => (x +:+ sep) +:+ Join rest sep
  end.

(** [time.Duration] counts nanoseconds; [Milliseconds] divides,
    truncating toward zero. *)
Definition Millisecond : Z := 1000000.
Definition Second : Z := 1000 * Millisecond.
Definition Milliseconds (d : Z) : Z := Z.quot d Millisecond.

Example Itoa_5000 : Itoa (Milliseconds (5 * Second)) = "5000"%string.
Proof. reflexivity. Qed.

Example Join_method : Join ["methods"; "foo"; "timeout"]%string "." = "methods.foo.timeout"%string.
Proof. reflexivity. Qed.

End GoStd.

(** ** protocol/dubbo/dubbo_invoker.go *)
Module Dubbo.
Import GoString GoStd.

(** Modelled from the spec: the keys of package [common/constant], which
    is not among the sources; each is the name the specification gives
    the URL parameter or attachment. *)
Module constant.
Definition INTERFACE_KEY : string := "interface".
Definition GROUP_KEY : string := "group".
Definition TOKEN_KEY : string := "token".
Definition TIMEOUT_KEY : string := "timeout".
Definition VERSION_KEY : string := "version".
Definition PATH_KEY : string := "path".
Definition SERIALIZATION_KEY : string := "serialization".
Definition HESSIAN2_SERIALIZATION : string := "hessian2".
Definition ASYNC_KEY : string := "async".
Definition GENERIC_KEY : string := "generic".
Definition METHOD_KEYS : string := "methods".
End constant.
Import constant.

Definition attachmentKey : list string :=
  [INTERFACE_KEY; GROUP_KEY; TOKEN_KEY; TIMEOUT_KEY; VERSION_KEY].

(** Values of type [interface{}]: [nil], a string, a function of type
    [func(response common.CallbackResponse)], a pointer, anything else. *)
Inductive any : Type :=
| Nil
| Str (s : string)
| CallbackFunc (f : N)
| Ptr (addr : N)
| Other (tag : N).

(** Modelled from the spec: [common.URL], an endpoint ([Location]) and
    string parameters; [GetParam] gives the default for a parameter that
    is absent or empty. *)
Record URL : Type := { Location : string; params : gmap string string }.

Definition GetParam (u : URL) (s d : string) : string :=
  match params u !! s with
  | Some r => if len r =? 0 then d else r
  | None => d
  end.

Definition SetParam (u : URL) (key value : string) : URL :=
  {| Location := Location u; params := <[key := value]> (params u) |}.

Definition GetParamBool (u : URL) (key : string) (d : bool) : bool :=
  let '(r, err) := ParseBool (GetParam u key "") in
  match err with
  | Some _ => d
  | None => r
  end.

(** Modelled from the spec: [protocol.BaseInvoker], the URL and the
    lifecycle flags; an invoker starts available and [Destroy] marks it
    destroyed and unavailable. *)
Record BaseInvoker : Type := {
  url : URL;
  available : bool;
  destroyed : bool;
}.

Definition NewBaseInvoker (u : URL) : BaseInvoker :=
  {| url := u; available := true; destroyed := false |}.

Definition BaseInvoker_IsAvailable (bi : BaseInvoker) : bool := available bi.

Definition BaseInvoker_Destroy (bi : BaseInvoker) : BaseInvoker :=
  {| url := url bi; available := false; destroyed := true |}.

(** [DubboInvoker].  [client] is the pointer to the exchange client
    ([None] is [nil]); [quitOnce] is the done flag of the [sync.Once];
    [timeout] is in nanoseconds.  [clientGuard] has no state of its own
    outside a call. *)
Record DubboInvoker : Type := {
  base : BaseInvoker;
  client : option N;
  quitOnce : bool;
  timeout : Z;
}.

Definition GetURL (di : DubboInvoker) : URL := url (base di).

Definition with_base (di : DubboInvoker) (b : BaseInvoker) : DubboInvoker :=
  {| base := b; client := client di; quitOnce := quitOnce di; timeout := timeout di |}.

Definition with_url (di : DubboInvoker) (u : URL) : DubboInvoker :=
  with_base di {| url := u; available := available (base di);
                  destroyed := destroyed (base di) |}.

Definition setClient (di : DubboInvoker) (c : option N) : DubboInvoker :=
  {| base := base di; client := c; quitOnce := quitOnce di; timeout := timeout di |}.

Definition getClient (di : DubboInvoker) : option N := client di.

(** Modelled from the spec: [invocation.RPCInvocation], the method name,
    the arguments, the string attachments, the reply slot and the
    callback. *)
Record RPCInvocation : Type := {
  methodName : string;
  arguments : list any;
  reply : any;
  callBack : any;
  attachments : gmap string string;
}.

Definition with_attachments (inv : RPCInvocation) (a : gmap string string)
    : RPCInvocation :=
  {| methodName := methodName inv; arguments := arguments inv;
     reply := reply inv; callBack := callBack inv; attachments := a |}.

Definition SetAttachments (inv : RPCInvocation) (key value : string) : RPCInvocation :=
  with_attachments inv (<[key := value]> (attachments inv)).

Definition AttachmentsByKey (inv : RPCInvocation) (key defaultValue : string) : string :=
  match attachments inv !! key with
  | Some v => v
  | None => defaultValue
  end.

(** [protocol.RPCResult] *)
Record RPCResult : Type := {
  Attrs : gmap string string;
  Err : option error;
  Rest : any;
}.

(** A call made on the exchange client, with its arguments. *)
Inductive client_call : Type :=
| CallAsyncRequest (c : N) (inv : RPCInvocation) (u : URL) (timeout : Z) (callBack : N)
| CallSend (c : N) (inv : RPCInvocation) (u : URL) (timeout : Z)
| CallRequest (c : N) (inv : RPCInvocation) (u : URL) (timeout : Z).

(** A line handed to the logger: the call and its format string, and
    the error for [Errorf]. *)
Inductive log_entry : Type :=
| Warnf (format : string)
| Debugf (format : string)
| Errorf (format : string) (e : error).

(** What a call of [Invoke] leaves behind. *)
Record invoked (Mem : Type) : Type := {
  result : RPCResult;
  invoker_after : DubboInvoker;
  invocation_after : RPCInvocation;
  mem_after : Mem;
  calls : list client_call;
  logs : list log_entry;
}.
Arguments result {Mem} _.
Arguments invoker_after {Mem} _.
Arguments invocation_after {Mem} _.
Arguments mem_after {Mem} _.
Arguments calls {Mem} _.
Arguments logs {Mem} _.

Section Invoker.
(** What lies outside the sources is a parameter: [time.ParseDuration]
    (nanoseconds, [None] for an error), the duration
    [URL.GetParamDuration] falls back to, the spans and what
    [injectTraceCtx] makes of the attachments, and the three calls on
    [remoting.ExchangeClient], which act on the memory [Mem] the
    transport can reach (the reply objects among it) and return the
    error, and for the calls given a result slot its attributes. *)
Variable ParseDuration : string -> option Z.
Variable fallbackTimeout : Z.
Variable Span : Type.
Variable injectTraceCtx :
  Span -> gmap string string -> gmap string string * option error.
Variable Mem : Type.
Variable client_Request :
  N -> RPCInvocation -> URL -> Z -> Mem -> option error * gmap string string * Mem.
Variable client_AsyncRequest :
  N -> RPCInvocation -> URL -> Z -> N -> Mem -> option error * gmap string string * Mem.
Variable client_Send :
  N -> RPCInvocation -> URL -> Z -> Mem -> option error * Mem.

(** Modelled from the spec: [URL.GetParamDuration], the parameter (or
    the default) parsed as a duration. *)
Definition GetParamDuration (u : URL) (s d : string) : Z :=
  match ParseDuration (GetParam u s d) with
  | Some t => t
  | None => fallbackTimeout
  end.

(** [rt] is [config.GetConsumerConfig().RequestTimeout]. *)
Definition NewDubboInvoker (rt : string) (u : URL) (c : option N) : DubboInvoker :=
  let timeout := GetParamDuration u TIMEOUT_KEY rt in
  {| base := NewBaseInvoker u; client := c; quitOnce := false; timeout := timeout |}.

(** [getTimeout]: the invocation with its timeout attachment, and the
    timeout.  The assertion [invocation.Arguments()[0].(string)] panics
    when there is no first argument or it is not a string. *)
Definition getTimeout (di : DubboInvoker) (invocation : RPCInvocation)
    : outcome (RPCInvocation * Z) :=
  methodName <-!
    (if GetParamBool (GetURL di) GENERIC_KEY false then
       match arguments invocation with
       | Str s :: _ => Returned s
       | _ => Panicked
       end
     else Returned (methodName invocation));
  (* the fall-through at the end of the function *)
  let service :=
    (SetAttachments invocation TIMEOUT_KEY (Itoa (Milliseconds (timeout di))),
     timeout di) in
  let timeout :=
    GetParam (GetURL di) (Join [METHOD_KEYS; methodName; TIMEOUT_KEY] ".") "" in
  Returned
    (if negb (len timeout =? 0) then
       match ParseDuration timeout with
       | Some t => (SetAttachments invocation TIMEOUT_KEY (Itoa (Milliseconds t)), t)
       | None => service
       end
     else service).

(** "init param": the path attachment, then the allow-listed URL
    parameters that are present and not empty. *)
Definition initAttachments (u : URL) (inv : RPCInvocation) : RPCInvocation :=
  let inv := SetAttachments inv PATH_KEY (GetParam u INTERFACE_KEY "") in
  fold_left
    (fun inv k =>
       let v := GetParam u k "" in
       if 0 <? len v then SetAttachments inv k v else inv)
    attachmentKey inv.

(** [appendCtx]; [ctx] is the span [opentracing.SpanFromContext] finds
    in the context, if any. *)
Definition appendCtx (ctx : option Span) (inv : RPCInvocation)
    : RPCInvocation * list log_entry :=
  match ctx with
  | Some currentSpan =>
      let '(injected, err) := injectTraceCtx currentSpan (attachments inv) in
      let inv := with_attachments inv injected in
      match err with
      | Some e =>
          (inv, [Errorf "Could not inject the span context into attachments: %v" e])
      | None => (inv, [])
      end
  | None => (inv, [])
  end.

(** "default hessian2 serialization": [url.SetParam] writes through the
    pointer, into the invoker's URL. *)
Definition defaultSerialization (u : URL) : URL :=
  if String.eqb (GetParam u SERIALIZATION_KEY "") ""
  then SetParam u SERIALIZATION_KEY HESSIAN2_SERIALIZATION
  else u.

(** The async flag, with the line logged when it does not parse. *)
Definition asyncFlag (inv : RPCInvocation) : bool * list log_entry :=
  let '(async, err) := ParseBool (AttachmentsByKey inv ASYNC_KEY "false") in
  match err with
  | Some e => (false, [Errorf "ParseBool - error: %v" e])
  | None => (async, [])
  end.

Definition early (di : DubboInvoker) (inv : RPCInvocation) (mem : Mem)
    (e : error) (l : list log_entry) : invoked Mem :=
  {| result := {| Attrs := ∅; Err := Some e; Rest := Nil |};
     invoker_after := di; invocation_after := inv; mem_after := mem;
     calls := []; logs := l |}.

(** The call made on the client [c], by mode: the error, the attributes
    left in the result slot [rest], the memory afterwards and the call.
    A synchronous call with a nil reply makes no call. *)
Definition dispatch (c : N) (async : bool) (inv : RPCInvocation) (url : URL)
    (timeout : Z) (mem : Mem)
    : option error * gmap string string * Mem * list client_call :=
  if async then
    match callBack inv with
    | CallbackFunc callBack =>
        let '(err, attrs, mem) := client_AsyncRequest c inv url timeout callBack mem in
        (err, attrs, mem, [CallAsyncRequest c inv url timeout callBack])
    | _ =>
        let '(err, mem) := client_Send c inv url timeout mem in
        (err, ∅, mem, [CallSend c inv url timeout])
    end
  else
    match reply inv with
    | Nil => (Some ErrNoReply, ∅, mem, [])
    | _ =>
        let '(err, attrs, mem) := client_Request c inv url timeout mem in
        (err, attrs, mem, [CallRequest c inv url timeout])
    end.

(** [result.Rest] and [result.Attrs] are set when [result.Err] is nil. *)
Definition conclude (err : option error) (attrs : gmap string string)
    (inv : RPCInvocation) : RPCResult :=
  match err with
  | None => {| Attrs := attrs; Err := None; Rest := reply inv |}
  | Some e => {| Attrs := ∅; Err := Some e; Rest := Nil |}
  end.

(** [Invoke] from the point where the read lock on the client is held
    and [di.client] was found not to be nil ([c]), and the invoker
    available. *)
Definition Invoke_dispatch (di : DubboInvoker) (c : N) (mem : Mem)
    (ctx : option Span) (inv : RPCInvocation) : outcome (invoked Mem) :=
  (* init param *)
  let inv := initAttachments (GetURL di) inv in
  (* put the ctx into attachment *)
  let '(inv, logs_ctx) := appendCtx ctx inv in
  (* default hessian2 serialization, compatible *)
  let url := defaultSerialization (GetURL di) in
  let di := with_url di url in
  (* async *)
  let '(async, logs_async) := asyncFlag inv in
  resolved <-! getTimeout di inv;
  let '(inv, timeout) := resolved in
  let '(err, attrs, mem, called) := dispatch c async inv url timeout mem in
  Returned
    {| result := conclude err attrs inv; invoker_after := di;
       invocation_after := inv; mem_after := mem; calls := called;
       logs := logs_ctx ++ logs_async ++ [Debugf "result.Err: %v, result.Rest: %v"] |}.

(** [Invoke].  The availability test comes twice, before and after the
    read lock on the client is taken; [interfere] is what the other
    goroutines (a [Destroy] under way) did to the invoker in between. *)
Definition Invoke_with (interfere : DubboInvoker -> DubboInvoker)
    (di : DubboInvoker) (mem : Mem) (ctx : option Span) (inv : RPCInvocation)
    : outcome (invoked Mem) :=
  if negb (BaseInvoker_IsAvailable (base di)) then
    Returned (early di inv mem ErrDestroyedInvoker
                [Warnf "this dubboInvoker is destroyed"])
  else
    (* di.clientGuard.RLock() *)
    let di := interfere di in
    match client di with
    | None =>
        Returned (early di inv mem ErrClientClosed [Debugf "result.Err: %v"])
    | Some c =>
        if negb (BaseInvoker_IsAvailable (base di)) then
          Returned (early di inv mem ErrDestroyedInvoker
                      [Warnf "this dubboInvoker is destroying"])
        else Invoke_dispatch di c mem ctx inv
    end.

(** [Invoke] with no other goroutine at work. *)
Definition Invoke : DubboInvoker -> Mem -> option Span -> RPCInvocation
    -> outcome (invoked Mem) :=
  Invoke_with (fun di => di).

(** *** Facts about [Invoke] and [getTimeout] *)

(** Attachments apart, two invocations are the same call. *)
Definition same_call (a b : RPCInvocation) : Prop :=
  methodName a = methodName b /\ arguments a = arguments b
  /\ reply a = reply b /\ callBack a = callBack b.

Lemma same_call_refl a : same_call a a.
Proof. by repeat split. Qed.

Lemma same_call_trans a b c : same_call a b -> same_call b c -> same_call a c.
Proof. intros (?&?&?&?) (?&?&?&?). repeat split; congruence. Qed.

Lemma same_call_with_attachments inv a : same_call (with_attachments inv a) inv.
Proof. by repeat split. Qed.

Lemma initAttachments_same_call u inv : same_call (initAttachments u inv) inv.
Proof.
  unfold initAttachments.
  assert (forall keys i, same_call i inv ->
    same_call (fold_left (fun inv k =>
       let v := GetParam u k "" in
       if 0 <? len v then SetAttachments inv k v else inv) keys i) inv) as H.
  { induction keys as [|k keys IH]; intros i Hi; [done|].
    cbn [fold_left]. apply IH. cbv zeta.
    destruct (0 <? len (GetParam u k "")); [|done].
    eapply same_call_trans; [apply same_call_with_attachments|done]. }
  apply H, same_call_with_attachments.
Qed.

Lemma appendCtx_same_call ctx inv : same_call (fst (appendCtx ctx inv)) inv.
Proof.
  unfold appendCtx. destruct ctx as [sp|]; [|apply same_call_refl].
  destruct (injectTraceCtx sp (attachments inv)) as [a [e|]];
    apply same_call_with_attachments.
Qed.

(** The invocation as it stands when the async flag is read. *)
Definition prepared (di : DubboInvoker) (ctx : option Span) (inv : RPCInvocation)
    : RPCInvocation :=
  fst (appendCtx ctx (initAttachments (GetURL di) inv)).

Lemma prepared_same_call di ctx inv : same_call (prepared di ctx inv) inv.
Proof.
  eapply same_call_trans; [apply appendCtx_same_call|apply initAttachments_same_call].
Qed.

(** The allow-list and the path key leave the async flag alone. *)
Lemma initAttachments_async u inv d :
  AttachmentsByKey (initAttachments u inv) ASYNC_KEY d
  = AttachmentsByKey inv ASYNC_KEY d.
Proof.
  unfold AttachmentsByKey.
  assert (attachments (initAttachments u inv) !! ASYNC_KEY
          = attachments inv !! ASYNC_KEY) as ->; [|done].
  unfold initAttachments, attachmentKey. cbn [fold_left]. cbv zeta.
  repeat match goal with
    | |- context [if ?b then _ else _] => destruct b
    end;
    cbn [SetAttachments with_attachments attachments];
    rewrite ?lookup_insert_ne by discriminate; reflexivity.
Qed.

Lemma prepared_async_no_span di inv d :
  AttachmentsByKey (prepared di None inv) ASYNC_KEY d
  = AttachmentsByKey inv ASYNC_KEY d.
Proof. unfold prepared. cbn [appendCtx fst]. apply initAttachments_async. Qed.

(** The method whose timeout parameter is looked up. *)
Definition resolved_method (di : DubboInvoker) (inv : RPCInvocation) : option string :=
  if GetParamBool (GetURL di) GENERIC_KEY false then
    match arguments inv with
    | Str s :: _ => Some s
    | _ => None
    end
  else Some (methodName inv).

Definition method_timeout (di : DubboInvoker) (name : string) : string :=
  GetParam (GetURL di) (Join [METHOD_KEYS; name; TIMEOUT_KEY] ".") "".

Definition service_timeout (di : DubboInvoker) (inv : RPCInvocation)
    : RPCInvocation * Z :=
  (SetAttachments inv TIMEOUT_KEY (Itoa (Milliseconds (timeout di))), timeout di).

Lemma getTimeout_resolved di inv name :
  resolved_method di inv = Some name ->
  getTimeout di inv
  = Returned
      (if negb (len (method_timeout di name) =? 0) then
         match ParseDuration (method_timeout di name) with
         | Some t => (SetAttachments inv TIMEOUT_KEY (Itoa (Milliseconds t)), t)
         | None => service_timeout di inv
         end
       else service_timeout di inv).
Proof.
  unfold resolved_method, getTimeout.
  destruct (GetParamBool (GetURL di) GENERIC_KEY false).
  - destruct (arguments inv) as [|[| s | | |] args]; try discriminate.
    intros [= ->]. reflexivity.
  - intros [= ->]. reflexivity.
Qed.

Lemma getTimeout_unresolved di inv :
  resolved_method di inv = None -> getTimeout di inv = Panicked.
Proof.
  unfold resolved_method, getTimeout.
  destruct (GetParamBool (GetURL di) GENERIC_KEY false); [|discriminate].
  destruct (arguments inv) as [|[| s | | |] args]; try discriminate; reflexivity.
Qed.

Lemma getTimeout_attachment di inv inv' t :
  getTimeout di inv = Returned (inv', t) ->
  attachments inv' !! TIMEOUT_KEY = Some (Itoa (Milliseconds t))
  /\ same_call inv' inv.
Proof.
  destruct (resolved_method di inv) as [name|] eqn:E.
  - rewrite (getTimeout_resolved _ _ _ E). unfold service_timeout.
    destruct (negb _); [destruct (ParseDuration _)|]; intros [= <- <-];
      (split; [apply lookup_insert_eq|apply same_call_with_attachments]).
  - by rewrite (getTimeout_unresolved _ _ E).
Qed.

Lemma len_nonzero s : s <> EmptyString -> negb (len s =? 0) = true.
Proof.
  intros Hs. apply negb_true_iff, Z.eqb_neq.
  destruct s as [|a s]; [done|]. rewrite len_cons. pose proof (len_nonneg s). lia.
Qed.

(** C3, as the code has it.  The method whose parameter is looked up is
    the invocation's method name, or the first argument when the URL's
    generic parameter is true.  Where that name resolves: if the URL
    parameter [methods.<name>.timeout] is not empty and parses, that
    duration is returned and its milliseconds are written into the
    timeout attachment in decimal; otherwise the invoker's service
    timeout is returned and written instead; either way the attachment
    holds the milliseconds of the timeout returned.  The service timeout
    is the one computed at construction from the URL's timeout
    parameter, with the consumer's request timeout as its default. *)
Theorem getTimeout_cascade (rt : string) di inv name :
  resolved_method di inv = Some name ->
  (forall t,
      method_timeout di name <> EmptyString ->
      ParseDuration (method_timeout di name) = Some t ->
      getTimeout di inv
      = Returned (SetAttachments inv TIMEOUT_KEY (Itoa (Milliseconds t)), t))
  /\ (method_timeout di name = EmptyString
      \/ ParseDuration (method_timeout di name) = None ->
      getTimeout di inv
      = Returned (SetAttachments inv TIMEOUT_KEY (Itoa (Milliseconds (timeout di))),
                  timeout di))
  /\ (exists inv' t,
      getTimeout di inv = Returned (inv', t)
      /\ attachments inv' !! TIMEOUT_KEY = Some (Itoa (Milliseconds t)))
  /\ (forall u c v t,
      params u !! TIMEOUT_KEY = Some v -> v <> EmptyString ->
      ParseDuration v = Some t ->
      timeout (NewDubboInvoker rt u c) = t)
  /\ (forall u c t,
      params u !! TIMEOUT_KEY = None -> ParseDuration rt = Some t ->
      timeout (NewDubboInvoker rt u c) = t).
Proof.
  intros Hname. pose proof (getTimeout_resolved _ _ _ Hname) as Hget.
  split; [|split; [|split; [|split]]].
  - intros t Hv Ht. rewrite Hget, len_nonzero, Ht by done. reflexivity.
  - intros [Hv|Hv]; rewrite Hget.
    + rewrite Hv. reflexivity.
    + rewrite Hv. by destruct (negb _).
  - destruct (getTimeout di inv) as [[inv' t]|] eqn:E; [|by rewrite Hget in E].
    exists inv', t. split; [done|]. by apply (getTimeout_attachment di inv).
  - intros u c v t Hu Hv Ht. cbn. unfold GetParamDuration, GetParam.
    rewrite Hu. pose proof (len_nonzero v Hv) as Hl.
    apply negb_true_iff in Hl. by rewrite Hl, Ht.
  - intros u c t Hu Ht. cbn. unfold GetParamDuration, GetParam.
    by rewrite Hu, Ht.
Qed.

(** C1: an invoker that is not available answers [ErrDestroyedInvoker]
    at once, whatever its client (nil or not) and whatever happens
    meanwhile: no call is made on the client and nothing is written.
    An available invoker whose client is nil once the read lock is held
    answers [ErrClientClosed]; one that is no longer available then
    answers [ErrDestroyedInvoker]; in both cases the invocation keeps
    its attachments and no call is made. *)
Theorem Invoke_fast_fail interfere di mem ctx inv :
  (BaseInvoker_IsAvailable (base di) = false ->
     exists out,
       Invoke_with interfere di mem ctx inv = Returned out
       /\ Err (result out) = Some ErrDestroyedInvoker
       /\ calls out = [] /\ invocation_after out = inv
       /\ mem_after out = mem /\ invoker_after out = di)
  /\ (BaseInvoker_IsAvailable (base di) = true ->
      client (interfere di) = None ->
      exists out,
       Invoke_with interfere di mem ctx inv = Returned out
       /\ Err (result out) = Some ErrClientClosed
       /\ calls out = [] /\ invocation_after out = inv /\ mem_after out = mem)
  /\ (BaseInvoker_IsAvailable (base di) = true ->
      client (interfere di) <> None ->
      BaseInvoker_IsAvailable (base (interfere di)) = false ->
      exists out,
       Invoke_with interfere di mem ctx inv = Returned out
       /\ Err (result out) = Some ErrDestroyedInvoker
       /\ calls out = [] /\ invocation_after out = inv /\ mem_after out = mem).
Proof.
  unfold Invoke_with. split; [|split].
  - intros ->. cbn [negb]. eexists. split; [reflexivity|]. by repeat split.
  - intros -> ->. cbn [negb]. eexists. split; [reflexivity|]. by repeat split.
  - intros -> Hc Ha. cbn [negb].
    destruct (client (interfere di)) as [c|]; [|done].
    rewrite Ha. cbn [negb]. eexists. split; [reflexivity|]. by repeat split.
Qed.

(** [Invoke] past its three tests. *)
Lemma Invoke_with_dispatch interfere di c mem ctx inv :
  BaseInvoker_IsAvailable (base di) = true ->
  client (interfere di) = Some c ->
  BaseInvoker_IsAvailable (base (interfere di)) = true ->
  Invoke_with interfere di mem ctx inv
  = Invoke_dispatch (interfere di) c mem ctx inv.
Proof. unfold Invoke_with. by intros -> -> ->. Qed.

(** The URL the client is called with. *)
Definition served_url (di : DubboInvoker) : URL := defaultSerialization (GetURL di).

Lemma Invoke_dispatch_returns di c mem ctx inv inv3 t :
  getTimeout (with_url di (served_url di)) (prepared di ctx inv) = Returned (inv3, t) ->
  let async := fst (asyncFlag (prepared di ctx inv)) in
  let d := dispatch c async inv3 (served_url di) t mem in
  Invoke_dispatch di c mem ctx inv
  = Returned
      {| result := conclude (fst (fst (fst d))) (snd (fst (fst d))) inv3;
         invoker_after := with_url di (served_url di);
         invocation_after := inv3;
         mem_after := snd (fst d);
         calls := snd d;
         logs := snd (appendCtx ctx (initAttachments (GetURL di) inv))
                 ++ snd (asyncFlag (prepared di ctx inv))
                 ++ [Debugf "result.Err: %v, result.Rest: %v"] |}.
Proof.
  unfold Invoke_dispatch, prepared, served_url. intros Hget. cbv zeta.
  destruct (appendCtx ctx (initAttachments (GetURL di) inv)) as [inv1 l1].
  cbn [fst snd] in *.
  destruct (asyncFlag inv1) as [async l2]. cbn [fst snd].
  rewrite Hget. cbn [outcome_bind].
  by destruct (dispatch c async inv3 _ t mem) as [[[err attrs] mem'] called].
Qed.

(** The flag read is the parsed attachment, false when it does not
    parse, and the failure is logged. *)
Lemma asyncFlag_spec inv :
  fst (asyncFlag inv)
  = match ParseBool (AttachmentsByKey inv ASYNC_KEY "false") with
    | (b, None) => b
    | (_, Some _) => false
    end
  /\ forall e,
       snd (ParseBool (AttachmentsByKey inv ASYNC_KEY "false")) = Some e ->
       fst (asyncFlag inv) = false
       /\ snd (asyncFlag inv) = [Errorf "ParseBool - error: %v" e].
Proof.
  unfold asyncFlag.
  destruct (ParseBool (AttachmentsByKey inv ASYNC_KEY "false")) as [b [e|]];
    cbn [fst snd]; split; try done.
  by intros e' [= ->].
Qed.

Lemma dispatch_sync_nil c inv url t mem :
  reply inv = Nil ->
  dispatch c false inv url t mem = (Some ErrNoReply, ∅, mem, []).
Proof. unfold dispatch. by intros ->. Qed.

Lemma dispatch_sync c inv url t mem :
  reply inv <> Nil ->
  dispatch c false inv url t mem
  = (client_Request c inv url t mem, [CallRequest c inv url t]).
Proof.
  unfold dispatch. intros Hr.
  destruct (reply inv); [done|..];
    by destruct (client_Request c inv url t mem) as [[err attrs] mem'].
Qed.

Lemma dispatch_async_callback c inv url t mem f :
  callBack inv = CallbackFunc f ->
  dispatch c true inv url t mem
  = (client_AsyncRequest c inv url t f mem, [CallAsyncRequest c inv url t f]).
Proof.
  unfold dispatch. intros ->.
  by destruct (client_AsyncRequest c inv url t f mem) as [[err attrs] mem'].
Qed.

Lemma dispatch_async_send c inv url t mem :
  (forall f, callBack inv <> CallbackFunc f) ->
  dispatch c true inv url t mem
  = (fst (client_Send c inv url t mem), ∅, snd (client_Send c inv url t mem),
     [CallSend c inv url t]).
Proof.
  unfold dispatch. intros Hcb.
  destruct (callBack inv) as [| s | f | a | tag];
    try (by destruct (client_Send c inv url t mem)).
  by destruct (Hcb f).
Qed.

(** C4, as the code has it.  For an invocation that passes the three
    tests and whose timeout resolves, the flag is the async attachment
    as it stands after the attachments were filled in (the caller's own
    when the context has no span), parsed as a boolean with default
    "false"; a value that does not parse is logged and counts as false.
    Async with a callback of the expected type: one [AsyncRequest].
    Async with anything else as callback: one [Send], the memory is what
    [Send] left and [Invoke] writes nothing of its own.  Not async: one
    [Request] when the reply slot is not nil, and no call at all, with
    [ErrNoReply], when it is nil. *)
Theorem Invoke_call_mode interfere di c mem ctx inv inv3 t :
  BaseInvoker_IsAvailable (base di) = true ->
  client (interfere di) = Some c ->
  BaseInvoker_IsAvailable (base (interfere di)) = true ->
  getTimeout (with_url (interfere di) (served_url (interfere di)))
             (prepared (interfere di) ctx inv) = Returned (inv3, t) ->
  let flag := AttachmentsByKey (prepared (interfere di) ctx inv) ASYNC_KEY "false" in
  let async := fst (asyncFlag (prepared (interfere di) ctx inv)) in
  let url := served_url (interfere di) in
  (ctx = None -> flag = AttachmentsByKey inv ASYNC_KEY "false")
  /\ async = match ParseBool flag with (b, None) => b | (_, Some _) => false end
  /\ exists out,
      Invoke_with interfere di mem ctx inv = Returned out
      /\ (forall e, snd (ParseBool flag) = Some e ->
            async = false /\ In (Errorf "ParseBool - error: %v" e) (logs out))
      /\ (async = true -> forall f, callBack inv = CallbackFunc f ->
            calls out = [CallAsyncRequest c inv3 url t f]
            /\ Err (result out) = fst (fst (client_AsyncRequest c inv3 url t f mem)))
      /\ (async = true -> (forall f, callBack inv <> CallbackFunc f) ->
            calls out = [CallSend c inv3 url t]
            /\ Err (result out) = fst (client_Send c inv3 url t mem)
            /\ mem_after out = snd (client_Send c inv3 url t mem))
      /\ (async = false -> reply inv <> Nil ->
            calls out = [CallRequest c inv3 url t])
      /\ (async = false -> reply inv = Nil ->
            calls out = [] /\ Err (result out) = Some ErrNoReply
            /\ mem_after out = mem).
Proof.
  intros Ha Hc Ha' Hget flag async url.
  destruct (getTimeout_attachment _ _ _ _ Hget) as [_ Hsame3].
  pose proof (prepared_same_call (interfere di) ctx inv) as Hsame1.
  destruct (same_call_trans _ _ _ Hsame3 Hsame1) as (_ & _ & Hreply & Hcb).
  split; [|split].
  - intros ->. apply prepared_async_no_span.
  - apply asyncFlag_spec.
  - eexists. split.
    { rewrite (Invoke_with_dispatch interfere di c mem ctx inv Ha Hc Ha').
      rewrite (Invoke_dispatch_returns _ c mem ctx inv inv3 t Hget).
      cbv zeta. reflexivity. }
    fold async url. cbn [logs calls result mem_after].
    split; [|split; [|split; [|split]]].
    + intros e He. destruct (asyncFlag_spec (prepared (interfere di) ctx inv)) as [_ H].
      destruct (H e He) as [H1 H2]. split; [done|].
      rewrite H2. apply in_or_app. right. apply in_or_app. left. by left.
    + intros -> f Hf. rewrite <- Hcb in Hf.
      rewrite (dispatch_async_callback _ _ _ _ _ _ Hf).
      destruct (client_AsyncRequest c inv3 url t f mem) as [[[e|] attrs] mem'];
        by cbn.
    + intros -> Hf. rewrite <- Hcb in Hf.
      rewrite (dispatch_async_send _ _ _ _ _ Hf). cbn [fst snd].
      by destruct (fst (client_Send c inv3 url t mem)).
    + intros -> Hr. rewrite <- Hreply in Hr.
      by rewrite (dispatch_sync _ _ _ _ _ Hr).
    + intros -> Hr. rewrite <- Hreply in Hr.
      by rewrite (dispatch_sync_nil _ _ _ _ _ Hr).
Qed.

(** C5: for an invocation that passes the three tests, whose timeout
    resolves and whose async flag is false: with a nil reply slot the
    result carries [ErrNoReply] and no call is made on the client; with
    a reply slot the one call is the blocking [Request], the result
    carries its error, and when that is nil the result carries the reply
    slot, which the request was given to fill, and the attributes the
    request left. *)
Theorem Invoke_synchronous interfere di c mem ctx inv inv3 t :
  BaseInvoker_IsAvailable (base di) = true ->
  client (interfere di) = Some c ->
  BaseInvoker_IsAvailable (base (interfere di)) = true ->
  getTimeout (with_url (interfere di) (served_url (interfere di)))
             (prepared (interfere di) ctx inv) = Returned (inv3, t) ->
  fst (asyncFlag (prepared (interfere di) ctx inv)) = false ->
  exists out,
    Invoke_with interfere di mem ctx inv = Returned out
    /\ (reply inv = Nil ->
          Err (result out) = Some ErrNoReply /\ calls out = []
          /\ mem_after out = mem)
    /\ (reply inv <> Nil ->
          let r := client_Request c inv3 (served_url (interfere di)) t mem in
          calls out = [CallRequest c inv3 (served_url (interfere di)) t]
          /\ reply inv3 = reply inv
          /\ Err (result out) = fst (fst r)
          /\ mem_after out = snd r
          /\ (fst (fst r) = None ->
                Rest (result out) = reply inv
                /\ Attrs (result out) = snd (fst r))).
Proof.
  intros Ha Hc Ha' Hget Hasync.
  destruct (getTimeout_attachment _ _ _ _ Hget) as [_ Hsame3].
  pose proof (prepared_same_call (interfere di) ctx inv) as Hsame1.
  destruct (same_call_trans _ _ _ Hsame3 Hsame1) as (_ & _ & Hreply & _).
  eexists. split.
  { rewrite (Invoke_with_dispatch interfere di c mem ctx inv Ha Hc Ha').
    rewrite (Invoke_dispatch_returns _ c mem ctx inv inv3 t Hget).
    cbv zeta. reflexivity. }
  rewrite Hasync. cbn [logs calls result mem_after]. split.
  - intros Hr. rewrite <- Hreply in Hr.
    by rewrite (dispatch_sync_nil _ _ _ _ _ Hr).
  - intros Hr. pose proof Hr as Hr3. rewrite <- Hreply in Hr3.
    rewrite (dispatch_sync _ _ _ _ _ Hr3). cbv zeta. cbn [fst snd].
    destruct (client_Request c inv3 _ t mem) as [[[e|] attrs] mem'];
      cbn; repeat split; try done.
Qed.

(** *** More about [Invoke] *)

Definition call_client (k : client_call) : N :=
  match k with
  | CallAsyncRequest c _ _ _ _ | CallSend c _ _ _ | CallRequest c _ _ _ => c
  end.

Definition call_invocation (k : client_call) : RPCInvocation :=
  match k with
  | CallAsyncRequest _ inv _ _ _ | CallSend _ inv _ _ | CallRequest _ inv _ _ => inv
  end.

Definition call_url (k : client_call) : URL :=
  match k with
  | CallAsyncRequest _ _ u _ _ | CallSend _ _ u _ | CallRequest _ _ u _ => u
  end.

Definition call_timeout (k : client_call) : Z :=
  match k with
  | CallAsyncRequest _ _ _ t _ | CallSend _ _ _ t | CallRequest _ _ _ t => t
  end.

(** The three early answers of [Invoke], or the dispatch. *)
Lemma Invoke_with_cases interfere di mem ctx inv out :
  Invoke_with interfere di mem ctx inv = Returned out ->
  (exists e l, out = early di inv mem e l)
  \/ (exists e l, out = early (interfere di) inv mem e l)
  \/ (exists c,
        BaseInvoker_IsAvailable (base di) = true
        /\ client (interfere di) = Some c
        /\ BaseInvoker_IsAvailable (base (interfere di)) = true
        /\ Invoke_dispatch (interfere di) c mem ctx inv = Returned out).
Proof.
  unfold Invoke_with.
  destruct (BaseInvoker_IsAvailable (base di)) eqn:Ha; cbn [negb].
  2:{ intros [= <-]. left. by eexists _, _. }
  destruct (client (interfere di)) as [c|] eqn:Hc.
  2:{ intros [= <-]. right. left. by eexists _, _. }
  destruct (BaseInvoker_IsAvailable (base (interfere di))) eqn:Ha'; cbn [negb].
  2:{ intros [= <-]. right. left. by eexists _, _. }
  intros H. right. right. by exists c.
Qed.

(** What the dispatch returns, when it returns. *)
Lemma Invoke_dispatch_inv di c mem ctx inv out :
  Invoke_dispatch di c mem ctx inv = Returned out ->
  exists inv3 t,
    getTimeout (with_url di (served_url di)) (prepared di ctx inv) = Returned (inv3, t)
    /\ out
       = (let d := dispatch c (fst (asyncFlag (prepared di ctx inv))) inv3
                     (served_url di) t mem in
          {| result := conclude (fst (fst (fst d))) (snd (fst (fst d))) inv3;
             invoker_after := with_url di (served_url di);
             invocation_after := inv3;
             mem_after := snd (fst d);
             calls := snd d;
             logs := snd (appendCtx ctx (initAttachments (GetURL di) inv))
                     ++ snd (asyncFlag (prepared di ctx inv))
                     ++ [Debugf "result.Err: %v, result.Rest: %v"] |}).
Proof.
  intros H.
  destruct (getTimeout (with_url di (served_url di)) (prepared di ctx inv))
    as [[inv3 t]|] eqn:Hget.
  - exists inv3, t. split; [done|].
    rewrite (Invoke_dispatch_returns di c mem ctx inv inv3 t Hget) in H.
    cbv zeta in H. by injection H as <-.
  - exfalso. revert H Hget. unfold Invoke_dispatch, prepared, served_url.
    destruct (appendCtx ctx (initAttachments (GetURL di) inv)) as [inv1 l1].
    cbn [fst]. destruct (asyncFlag inv1) as [async l2].
    intros H Hget. by rewrite Hget in H.
Qed.

(** What [dispatch] hands to the client. *)
Lemma dispatch_calls c async inv url t mem k :
  In k (snd (dispatch c async inv url t mem)) ->
  snd (dispatch c async inv url t mem) = [k]
  /\ call_client k = c /\ call_invocation k = inv
  /\ call_url k = url /\ call_timeout k = t.
Proof.
  unfold dispatch. destruct async.
  - destruct (callBack inv) as [| s | f | a | tag];
      try (destruct (client_Send c inv url t mem) as [err mem'];
           cbn [snd]; intros [<-|[]]; by repeat split).
    destruct (client_AsyncRequest c inv url t f mem) as [[err attrs] mem'].
    cbn [snd]. intros [<-|[]]. by repeat split.
  - destruct (reply inv) as [| s | f | a | tag]; cbn [snd]; [intros []|..];
      destruct (client_Request c inv url t mem) as [[err attrs] mem'];
      cbn [snd]; intros [<-|[]]; by repeat split.
Qed.

Lemma dispatch_no_error c async inv url t mem :
  fst (fst (fst (dispatch c async inv url t mem))) = None ->
  exists k, snd (dispatch c async inv url t mem) = [k].
Proof.
  unfold dispatch. destruct async.
  - destruct (callBack inv) as [| s | f | a | tag];
      try (destruct (client_Send c inv url t mem) as [err mem']; by eexists).
    destruct (client_AsyncRequest c inv url t f mem) as [[err attrs] mem'].
    by eexists.
  - destruct (reply inv) as [| s | f | a | tag]; [discriminate|..];
      destruct (client_Request c inv url t mem) as [[err attrs] mem'];
      by eexists.
Qed.

Lemma dispatch_length c async inv url t mem :
  (length (snd (dispatch c async inv url t mem)) <= 1)%nat.
Proof.
  unfold dispatch. destruct async.
  - destruct (callBack inv) as [| s | f | a | tag];
      try (destruct (client_Send c inv url t mem) as [err mem']; cbn; lia).
    destruct (client_AsyncRequest c inv url t f mem) as [[err attrs] mem'].
    cbn. lia.
  - destruct (reply inv) as [| s | f | a | tag]; [cbn; lia|..];
      destruct (client_Request c inv url t mem) as [[err attrs] mem'];
      cbn; lia.
Qed.

(** X1: whichever way [Invoke] returns, it made at most one call on the
    client; a result without error means exactly one call was made and
    the result carries the caller's reply slot; a result with an error
    carries no reply and no attributes. *)
Theorem Invoke_result_shape interfere di mem ctx inv out :
  Invoke_with interfere di mem ctx inv = Returned out ->
  (length (calls out) <= 1)%nat
  /\ (Err (result out) = None ->
        Rest (result out) = reply inv /\ exists k, calls out = [k])
  /\ (Err (result out) <> None ->
        Rest (result out) = Nil /\ Attrs (result out) = ∅).
Proof.
  intros H.
  destruct (Invoke_with_cases _ _ _ _ _ _ H)
    as [(e & l & ->)|[(e & l & ->)|(c & _ & _ & _ & Hd)]].
  - cbn. split; [lia|]. split; [discriminate|done].
  - cbn. split; [lia|]. split; [discriminate|done].
  - destruct (Invoke_dispatch_inv _ _ _ _ _ _ Hd) as (inv3 & t & Hget & ->).
    cbv zeta. cbn [calls result].
    destruct (getTimeout_attachment _ _ _ _ Hget) as [_ Hsame3].
    pose proof (prepared_same_call (interfere di) ctx inv) as Hsame1.
    destruct (same_call_trans _ _ _ Hsame3 Hsame1) as (_ & _ & Hreply & _).
    split; [apply dispatch_length|].
    set (d := dispatch c _ inv3 _ t mem).
    pose proof (dispatch_no_error c
                  (fst (asyncFlag (prepared (interfere di) ctx inv))) inv3
                  (served_url (interfere di)) t mem) as Hone.
    fold d in Hone.
    destruct (fst (fst (fst d))) as [e|]; cbn [conclude Err Rest Attrs].
    + split; [discriminate|done].
    + split; [|done]. intros _. split; [done|by apply Hone].
Qed.

(** X2: every call [Invoke] makes is made on the client it found under
    the lock, with the invocation as it leaves [Invoke], whose timeout
    attachment is the decimal number of milliseconds of the timeout
    handed to the client; what the caller had put under that key is
    overwritten. *)
Theorem Invoke_call_timeout interfere di mem ctx inv out k :
  Invoke_with interfere di mem ctx inv = Returned out ->
  In k (calls out) ->
  client (interfere di) = Some (call_client k)
  /\ call_invocation k = invocation_after out
  /\ call_url k = served_url (interfere di)
  /\ attachments (invocation_after out) !! TIMEOUT_KEY
     = Some (Itoa (Milliseconds (call_timeout k))).
Proof.
  intros H Hk.
  destruct (Invoke_with_cases _ _ _ _ _ _ H)
    as [(e & l & ->)|[(e & l & ->)|(c & _ & Hc & _ & Hd)]]; [destruct Hk..|].
  destruct (Invoke_dispatch_inv _ _ _ _ _ _ Hd) as (inv3 & t & Hget & ->).
  cbv zeta in *. cbn [calls invocation_after] in *.
  destruct (dispatch_calls _ _ _ _ _ _ _ Hk) as (_ & -> & -> & -> & ->).
  destruct (getTimeout_attachment _ _ _ _ Hget) as [Ht _].
  by repeat split.
Qed.

(** The attachments after the loop over a list of keys. *)
Lemma fold_attachments_lookup u keys i k :
  attachments
    (fold_left
       (fun inv k =>
          let v := GetParam u k "" in
          if 0 <? len v then SetAttachments inv k v else inv)
       keys i) !! k
  = if bool_decide (k ∈ keys) && (0 <? len (GetParam u k ""))
    then Some (GetParam u k "")
    else attachments i !! k.
Proof.
  revert i. induction keys as [|k0 keys IH]; intros i; [done|].
  cbn [fold_left]. rewrite IH. cbv zeta.
  destruct (decide (k = k0)) as [->|Hne].
  - rewrite (bool_decide_eq_true_2 (k0 ∈ k0 :: keys)) by (apply elem_of_cons; by left).
    destruct (0 <? len (GetParam u k0 "")) eqn:Hv.
    + rewrite andb_true_r. cbn [andb SetAttachments with_attachments attachments].
      rewrite lookup_insert_eq. by destruct (bool_decide _).
    + by rewrite !andb_false_r.
  - assert (bool_decide (k ∈ k0 :: keys) = bool_decide (k ∈ keys)) as ->.
    { apply bool_decide_ext. rewrite elem_of_cons.
      split; [by intros [?|?]|by right]. }
    destruct (bool_decide (k ∈ keys) && (0 <? len (GetParam u k ""))); [done|].
    destruct (0 <? len (GetParam u k0 "")); [|done].
    cbn [SetAttachments with_attachments attachments].
    by rewrite lookup_insert_ne.
Qed.

Lemma initAttachments_lookup u inv k :
  attachments (initAttachments u inv) !! k
  = if bool_decide (k ∈ attachmentKey) && (0 <? len (GetParam u k ""))
    then Some (GetParam u k "")
    else if bool_decide (k = PATH_KEY) then Some (GetParam u INTERFACE_KEY "")
    else attachments inv !! k.
Proof.
  unfold initAttachments. rewrite fold_attachments_lookup.
  destruct (bool_decide (k ∈ attachmentKey) && _); [done|].
  cbn [SetAttachments with_attachments attachments].
  destruct (decide (k = PATH_KEY)) as [->|Hne].
  - by rewrite lookup_insert_eq, bool_decide_eq_true_2.
  - by rewrite lookup_insert_ne, bool_decide_eq_false_2.
Qed.

Lemma getTimeout_attachments di inv inv' t :
  getTimeout di inv = Returned (inv', t) ->
  attachments inv'
  = <[TIMEOUT_KEY := Itoa (Milliseconds t)]> (attachments inv).
Proof.
  destruct (resolved_method di inv) as [name|] eqn:E.
  - rewrite (getTimeout_resolved _ _ _ E). unfold service_timeout.
    by destruct (negb _); [destruct (ParseDuration _)|]; intros [= <- <-].
  - by rewrite (getTimeout_unresolved _ _ E).
Qed.

(** X3: the attachments a call reaches the client with, when the context
    has no span.  The timeout attachment is the timeout of the call in
    milliseconds.  An allow-listed key (interface, group, token, version)
    whose URL parameter is not empty carries that parameter; the path key
    carries the URL's interface parameter, empty or not; and every other
    key, an allow-listed one with an empty URL parameter among them,
    keeps what the caller had put there. *)
Theorem Invoke_attachments interfere di mem inv out k key :
  Invoke_with interfere di mem None inv = Returned out ->
  In k (calls out) ->
  let u := GetURL (interfere di) in
  attachments (call_invocation k) !! key
  = if bool_decide (key = TIMEOUT_KEY)
    then Some (Itoa (Milliseconds (call_timeout k)))
    else if bool_decide (key ∈ attachmentKey) && (0 <? len (GetParam u key ""))
    then Some (GetParam u key "")
    else if bool_decide (key = PATH_KEY) then Some (GetParam u INTERFACE_KEY "")
    else attachments inv !! key.
Proof.
  intros H Hk u.
  destruct (Invoke_with_cases _ _ _ _ _ _ H)
    as [(e & l & ->)|[(e & l & ->)|(c & _ & Hc & _ & Hd)]]; [destruct Hk..|].
  destruct (Invoke_dispatch_inv _ _ _ _ _ _ Hd) as (inv3 & t & Hget & ->).
  cbv zeta in Hk. cbn [calls] in Hk.
  destruct (dispatch_calls _ _ _ _ _ _ _ Hk) as (_ & _ & -> & _ & ->).
  rewrite (getTimeout_attachments _ _ _ _ Hget).
  destruct (decide (key = TIMEOUT_KEY)) as [->|Hne].
  - by rewrite lookup_insert_eq, bool_decide_eq_true_2.
  - rewrite lookup_insert_ne, bool_decide_eq_false_2 by done.
    unfold prepared. cbn [appendCtx fst]. apply initAttachments_lookup.
Qed.

(** *** The serialization parameter *)

Lemma GetParam_defaultSerialization_ne u key d :
  key <> SERIALIZATION_KEY ->
  GetParam (defaultSerialization u) key d = GetParam u key d.
Proof.
  intros Hne. unfold defaultSerialization.
  destruct (String.eqb _ _); [|done].
  unfold GetParam, SetParam. cbn [params]. by rewrite lookup_insert_ne.
Qed.

Lemma GetParam_defaultSerialization u :
  GetParam (defaultSerialization u) SERIALIZATION_KEY EmptyString
  = if String.eqb (GetParam u SERIALIZATION_KEY EmptyString) EmptyString
    then HESSIAN2_SERIALIZATION
    else GetParam u SERIALIZATION_KEY EmptyString.
Proof.
  unfold defaultSerialization.
  destruct (String.eqb _ _) eqn:E; [|done].
  unfold GetParam, SetParam. cbn [params]. by rewrite lookup_insert_eq.
Qed.

Lemma defaultSerialization_idemp u :
  defaultSerialization (defaultSerialization u) = defaultSerialization u.
Proof.
  unfold defaultSerialization at 1. rewrite GetParam_defaultSerialization.
  destruct (String.eqb (GetParam u SERIALIZATION_KEY EmptyString) EmptyString)
    eqn:E; [done|].
  by rewrite E.
Qed.

Lemma with_url_GetURL di : with_url di (GetURL di) = di.
Proof. by destruct di as [[u a d] c q t]. Qed.

(** Whether [Invoke] gets past its three tests, with no other goroutine
    at work. *)
Definition accepted (di : DubboInvoker) : bool :=
  BaseInvoker_IsAvailable (base di)
  && match client di with Some _ => true | None => false end.

Lemma Invoke_invoker_after di mem ctx inv out :
  Invoke di mem ctx inv = Returned out ->
  invoker_after out
  = if accepted di then with_url di (served_url di) else di.
Proof.
  unfold Invoke, Invoke_with, accepted. cbv beta.
  destruct (BaseInvoker_IsAvailable (base di)); cbn [negb andb];
    [|by intros [= <-]].
  destruct (client di) as [c|]; [|by intros [= <-]].
  intros Hx.
  by destruct (Invoke_dispatch_inv _ _ _ _ _ _ Hx) as (i3 & t3 & _ & ->).
Qed.

(** X4: [Invoke] writes into the invoker it is called on, and only the
    serialization parameter of its URL: the client, the lifecycle flags,
    the timeout, the location and every other parameter are as before.
    A URL that names a serialization is not touched at all.  Every call
    reaches the client with the invoker's URL as it is afterwards, whose
    serialization parameter is the one it had, or hessian2 when it had
    none; and [Invoke] on the invoker as it is afterwards leaves it as
    it is. *)
Theorem Invoke_serialization di mem ctx inv out :
  Invoke di mem ctx inv = Returned out ->
  let u := GetURL di in
  let u' := GetURL (invoker_after out) in
  invoker_after out = with_url di u'
  /\ Location u' = Location u
  /\ (forall key d, key <> SERIALIZATION_KEY -> GetParam u' key d = GetParam u key d)
  /\ (GetParam u SERIALIZATION_KEY EmptyString <> EmptyString -> u' = u)
  /\ (forall k, In k (calls out) ->
        call_url k = u'
        /\ GetParam u' SERIALIZATION_KEY EmptyString
           = if String.eqb (GetParam u SERIALIZATION_KEY EmptyString) EmptyString
             then HESSIAN2_SERIALIZATION
             else GetParam u SERIALIZATION_KEY EmptyString)
  /\ (forall mem' ctx' inv' out',
        Invoke (invoker_after out) mem' ctx' inv' = Returned out' ->
        invoker_after out' = invoker_after out).
Proof.
  intros H u u'. subst u u'.
  pose proof (Invoke_invoker_after _ _ _ _ _ H) as Hafter.
  assert (forall k, In k (calls out) -> accepted di = true /\ call_url k = served_url di)
    as Hcall.
  { intros k Hk. unfold Invoke in H.
    destruct (Invoke_with_cases _ _ _ _ _ _ H)
      as [(e & l & ->)|[(e & l & ->)|(c0 & Ha & Hc & _ & Hd)]]; [destruct Hk..|].
    destruct (Invoke_dispatch_inv _ _ _ _ _ _ Hd) as (inv3 & t & _ & ->).
    cbv zeta in Hk. cbn [calls] in Hk. unfold accepted. rewrite Ha, Hc.
    by destruct (dispatch_calls _ _ _ _ _ _ _ Hk) as (_ & _ & _ & -> & _). }
  rewrite Hafter.
  split; [|split; [|split; [|split; [|split]]]].
  - destruct (accepted di); [done|by rewrite with_url_GetURL].
  - destruct (accepted di); [|done].
    cbn. unfold served_url, defaultSerialization. by destruct (String.eqb _ _).
  - intros key d Hne. destruct (accepted di); [|done].
    by apply GetParam_defaultSerialization_ne.
  - intros Hs. destruct (accepted di); [|done].
    cbn. unfold served_url, defaultSerialization.
    destruct (String.eqb _ _) eqn:E; [|done].
    by apply String.eqb_eq in E.
  - intros k Hk. destruct (Hcall k Hk) as [-> ->]. split; [done|].
    apply GetParam_defaultSerialization.
  - intros mem' ctx' inv' out' H'.
    rewrite (Invoke_invoker_after _ _ _ _ _ H').
    destruct (accepted di) eqn:Hacc; [|by rewrite Hacc].
    assert (accepted (with_url di (served_url di)) = true) as -> by done.
    unfold served_url, with_url, with_base, GetURL. cbn.
    by rewrite defaultSerialization_idemp.
Qed.

(** The generic flag is read from the URL as [Invoke] found it. *)
Lemma GetParamBool_served di key d :
  key <> SERIALIZATION_KEY ->
  GetParamBool (GetURL (with_url di (served_url di))) key d
  = GetParamBool (GetURL di) key d.
Proof.
  intros Hne. unfold GetParamBool, served_url. cbn.
  by rewrite GetParam_defaultSerialization_ne.
Qed.

(** Handed an [*RPCInvocation], [Invoke] panics where [getTimeout]
    does: past the three tests, on a generic URL, with no first
    argument or one that is not a string. *)
Lemma Invoke_with_panics_iff interfere di mem ctx inv :
  Invoke_with interfere di mem ctx inv = Panicked
  <-> BaseInvoker_IsAvailable (base di) = true
      /\ client (interfere di) <> None
      /\ BaseInvoker_IsAvailable (base (interfere di)) = true
      /\ GetParamBool (GetURL (interfere di)) GENERIC_KEY false = true
      /\ (forall s rest, arguments inv <> Str s :: rest).
Proof.
  assert (forall d,
    resolved_method (with_url d (served_url d)) (prepared d ctx inv) = None
    <-> GetParamBool (GetURL d) GENERIC_KEY false = true
        /\ (forall s rest, arguments inv <> Str s :: rest)) as Hres.
  { intros d. unfold resolved_method.
    rewrite GetParamBool_served by discriminate.
    destruct (prepared_same_call d ctx inv) as (_ & -> & _).
    destruct (GetParamBool (GetURL d) GENERIC_KEY false).
    - destruct (arguments inv) as [|[| s | | |] args]; split; try done;
        try (by intros [_ H]; destruct (H s args)).
    - split; [done|]. by intros [? _]. }
  assert (forall d c,
    Invoke_dispatch d c mem ctx inv = Panicked
    <-> resolved_method (with_url d (served_url d)) (prepared d ctx inv) = None)
    as Hdisp.
  { intros d c. split.
    - intros H.
      destruct (resolved_method (with_url d (served_url d)) (prepared d ctx inv))
        as [name|] eqn:E; [|done].
      pose proof (getTimeout_resolved _ _ _ E) as Hget.
      match type of Hget with _ = Returned ?r => destruct r as [inv3 t] eqn:Er end.
      by rewrite (Invoke_dispatch_returns d c mem ctx inv inv3 t Hget) in H.
    - intros E. pose proof (getTimeout_unresolved _ _ E) as Hget.
      revert Hget. unfold Invoke_dispatch, prepared, served_url.
      destruct (appendCtx ctx (initAttachments (GetURL d) inv)) as [inv1 l1].
      cbn [fst]. destruct (asyncFlag inv1) as [async l2].
      by intros ->. }
  unfold Invoke_with.
  destruct (BaseInvoker_IsAvailable (base di)); cbn [negb].
  2:{ split; [done|]. by intros [? _]. }
  destruct (client (interfere di)) as [c|].
  2:{ split; [done|]. by intros (_ & ? & _). }
  destruct (BaseInvoker_IsAvailable (base (interfere di))); cbn [negb].
  2:{ split; [done|]. by intros (_ & _ & ? & _). }
  rewrite Hdisp, Hres. clear.
  split; [by intros [? ?]|by intros (_ & _ & _ & ? & ?)].
Qed.

End Invoker.
(** Modelled from the spec: [remoting.ExchangeClient] as far as
    [Destroy] uses it, a reference count ([DecreaseActiveNumber]
    decrements it and returns the new value) and the open or closed
    connection. *)
Record ExchangeClient : Type := { activeNum : Z; closed : bool }.

(** The exchange clients, by address, and the pool [exchangeClientMap],
    which maps the location of an endpoint to its client. *)
Record World : Type := {
  clients : gmap N ExchangeClient;
  exchangeClientMap : gmap string N;
}.

(** A pointer always points to a client in Go; where the model is
    handed an address with no client it panics. *)
Definition DecreaseActiveNumber (c : N) (w : World) : outcome (Z * World) :=
  match clients w !! c with
  | Some cl =>
      let n := activeNum cl - 1 in
      Returned (n, {| clients := <[c := {| activeNum := n; closed := closed cl |}]> (clients w);
                      exchangeClientMap := exchangeClientMap w |})
  | None => Panicked
  end.

Definition Close (c : N) (w : World) : outcome World :=
  match clients w !! c with
  | Some cl =>
      Returned {| clients := <[c := {| activeNum := activeNum cl; closed := true |}]> (clients w);
                  exchangeClientMap := exchangeClientMap w |}
  | None => Panicked
  end.

Definition exchangeClientMap_Delete (key : string) (w : World) : World :=
  {| clients := clients w; exchangeClientMap := delete key (exchangeClientMap w) |}.

Definition with_quitOnce (di : DubboInvoker) (done : bool) : DubboInvoker :=
  {| base := base di; client := client di; quitOnce := done; timeout := timeout di |}.

(** The function handed to [di.quitOnce.Do]. *)
Definition Destroy_body (di : DubboInvoker) (w : World)
    : outcome (DubboInvoker * World) :=
  let di := with_base di (BaseInvoker_Destroy (base di)) in
  let client := getClient di in
  match client with
  | Some c =>
      r <-! DecreaseActiveNumber c w;
      let '(activeNumber, w) := r in
      let di := setClient di None in
      if activeNumber =? 0 then
        let w := exchangeClientMap_Delete (Location (GetURL di)) w in
        w <-! Close c w;
        Returned (di, w)
      else Returned (di, w)
  | None => Returned (di, w)
  end.

(** [Destroy]: [sync.Once.Do] runs the function unless it has run. *)
Definition Destroy (di : DubboInvoker) (w : World) : outcome (DubboInvoker * World) :=
  if quitOnce di then Returned (di, w)
  else
    r <-! Destroy_body di w;
    let '(di, w) := r in
    Returned (with_quitOnce di true, w).

(** [n] calls of [Destroy], one after the other. *)
Fixpoint Destroy_times (n : nat) (di : DubboInvoker) (w : World)
    : outcome (DubboInvoker * World) :=
  match n with
  | O => Returned (di, w)
  | S n =>
      r <-! Destroy di w;
      let '(di, w) := r in
      Destroy_times n di w
  end.

(** An invoker of the endpoint [127.0.0.1:20000] bound to the client
    [c], and a world where that client has one reference. *)
Definition demo_invoker_of (c : N) : DubboInvoker :=
  {| base := NewBaseInvoker {| Location := "127.0.0.1:20000"; params := ∅ |};
     client := Some c; quitOnce := false; timeout := 3 * Second |}.

Definition world_one_ref : World :=
  {| clients := {[ 1%N := {| activeNum := 1; closed := false |} ]};
     exchangeClientMap := {[ "127.0.0.1:20000"%string := 1%N ]} |}.

(** *** [Destroy] called by several goroutines *)

(** Where a goroutine that called [Destroy] stands: before the load of
    the done flag in [Once.Do]; before [o.m.Lock()]; holding the mutex
    before the second load; at one of the statements of the function
    handed to [Do]; at the deferred [o.done.Store(1)] and
    [o.m.Unlock()]; back from [Destroy]. *)
Inductive pc : Type :=
| AtDo
| AtLock
| AtCheck
| AtBaseDestroy
| AtGetClient
| AtDecrease (c : N)
| AtSetClient (c : N) (activeNumber : Z)
| AtDelete (c : N)
| AtClose (c : N)
| AtStoreDone
| AtUnlock
| Finished.

(** One statement of the function handed to [Do], or the store of the
    done flag that follows it: where the goroutine goes, and the
    invoker and the world it leaves. *)
Definition body_step (p : pc) (di : DubboInvoker) (w : World)
    : outcome (pc * DubboInvoker * World) :=
  match p with
  | AtBaseDestroy =>
      Returned (AtGetClient, with_base di (BaseInvoker_Destroy (base di)), w)
  | AtGetClient =>
      match getClient di with
      | Some c => Returned (AtDecrease c, di, w)
      | None => Returned (AtStoreDone, di, w)
      end
  | AtDecrease c =>
      r <-! DecreaseActiveNumber c w;
      Returned (AtSetClient c (fst r), di, snd r)
  | AtSetClient c activeNumber =>
      Returned (if activeNumber =? 0 then AtDelete c else AtStoreDone,
                setClient di None, w)
  | AtDelete c =>
      Returned (AtClose c, di, exchangeClientMap_Delete (Location (GetURL di)) w)
  | AtClose c =>
      w <-! Close c w;
      Returned (AtStoreDone, di, w)
  | AtStoreDone => Returned (AtUnlock, with_quitOnce di true, w)
  | _ => Panicked
  end.

(** The goroutines, the invoker and the world they share, the holder
    of the mutex of the [sync.Once], and the statements of the function
    executed so far, oldest first. *)
Record conc : Type := {
  c_di : DubboInvoker;
  c_w : World;
  c_mutex : option nat;
  c_pcs : list pc;
  c_trace : list pc;
}.

Definition move (i : nat) (p : pc) (st : conc) : conc :=
  {| c_di := c_di st; c_w := c_w st; c_mutex := c_mutex st;
     c_pcs := <[i := p]> (c_pcs st); c_trace := c_trace st |}.

Definition with_mutex (m : option nat) (st : conc) : conc :=
  {| c_di := c_di st; c_w := c_w st; c_mutex := m;
     c_pcs := c_pcs st; c_trace := c_trace st |}.

(** One step of goroutine [i]; [None] when it cannot move: it is back
    from [Destroy], or waits for the mutex. *)
Definition thread_step (i : nat) (st : conc) : option conc :=
  match c_pcs st !! i with
  | None => None
  | Some AtDo =>
      Some (move i (if quitOnce (c_di st) then Finished else AtLock) st)
  | Some AtLock =>
      match c_mutex st with
      | None => Some (with_mutex (Some i) (move i AtCheck st))
      | Some _ => None
      end
  | Some AtCheck =>
      Some (move i (if quitOnce (c_di st) then AtUnlock else AtBaseDestroy) st)
  | Some AtUnlock => Some (with_mutex None (move i Finished st))
  | Some Finished => None
  | Some p =>
      match body_step p (c_di st) (c_w st) with
      | Returned (p', di, w) =>
          Some {| c_di := di; c_w := w; c_mutex := c_mutex st;
                  c_pcs := <[i := p']> (c_pcs st);
                  c_trace := c_trace st ++ [p] |}
      | Panicked => None
      end
  end.

Definition step (st st' : conc) : Prop := exists i, thread_step i st = Some st'.

(** The goroutines moved in the order of [schedule]. *)
Fixpoint run_schedule (schedule : list nat) (st : conc) : option conc :=
  match schedule with
  | [] => Some st
  | i :: schedule =>
      match thread_step i st with
      | Some st' => run_schedule schedule st'
      | None => None
      end
  end.

(** [n] goroutines about to call [Destroy] on the same invoker. *)
Definition init (n : nat) (di : DubboInvoker) (w : World) : conc :=
  {| c_di := di; c_w := w; c_mutex := None; c_pcs := replicate n AtDo;
     c_trace := [] |}.

(** The function handed to [Do] run from [p] to its end by one
    goroutine: the statements executed and the outcome. *)
Fixpoint run_body (fuel : nat) (p : pc) (di : DubboInvoker) (w : World)
    : outcome (list pc * DubboInvoker * World) :=
  match p with
  | AtUnlock => Returned ([], di, w)
  | _ =>
      match fuel with
      | O => Panicked
      | S fuel =>
          r <-! body_step p di w;
          let '(p', di', w') := r in
          r' <-! run_body fuel p' di' w';
          let '(tr, dF, wF) := r' in
          Returned (p :: tr, dF, wF)
      end
  end.

(** How many times the count of [c] was decremented in a trace. *)
Definition is_decrease (c : N) (p : pc) : bool :=
  match p with
  | AtDecrease c' => N.eqb c' c
  | _ => false
  end.

Fixpoint decrements (c : N) (tr : list pc) : Z :=
  match tr with
  | [] => 0
  | p :: tr => (if is_decrease c p then 1 else 0) + decrements c tr
  end.

(** What is left for the goroutines to do. *)
Definition weight (p : pc) : nat :=
  match p with
  | AtDo => 12
  | AtLock => 11
  | AtCheck => 10
  | AtBaseDestroy => 9
  | AtGetClient => 8
  | AtDecrease _ => 7
  | AtSetClient _ _ => 6
  | AtDelete _ => 5
  | AtClose _ => 4
  | AtStoreDone => 3
  | AtUnlock => 2
  | Finished => 0
  end.

Fixpoint total_weight (l : list pc) : nat :=
  match l with
  | [] => 0
  | p :: l => weight p + total_weight l
  end.

(** Two goroutines, the second taking the mutex before the first. *)
Example two_goroutines :
  let st0 := init 2 (demo_invoker_of 1%N) world_one_ref in
  (st1 ← thread_step 0 st0; st2 ← thread_step 1 st1; st3 ← thread_step 1 st2;
   st4 ← thread_step 1 st3; Some (c_mutex st4, c_pcs st4))
  = Some (Some 1%nat, [AtLock; AtBaseDestroy]).
Proof. reflexivity. Qed.

(** *** Instances to run the invoker on *)

Definition is_digit (c : ascii) : bool :=
  (48 <=? Base64.byte_val c) && (Base64.byte_val c <=? 57).

Fixpoint leading_digits (s : string) (acc : Z) (seen : bool) : option (Z * string) :=
  match s with
  | String c rest =>
      if is_digit c then leading_digits rest (acc * 10 + (Base64.byte_val c - 48)) true
      else if seen then Some (acc, s) else None
  | EmptyString => if seen then Some (acc, EmptyString) else None
  end.

Definition unit_nanoseconds (u : string) : option Z :=
  if String.eqb u "ns" then Some 1
  else if String.eqb u "us" then Some 1000
  else if String.eqb u "ms" then Some Millisecond
  else if String.eqb u "s" then Some Second
  else if String.eqb u "m" then Some (60 * Second)
  else if String.eqb u "h" then Some (3600 * Second)
  else None.

(** A duration parser for the examples: digits and one unit, which is
    the part of [time.ParseDuration] they need. *)
Definition parseSimpleDuration (s : string) : option Z :=
  match leading_digits s 0 false with
  | Some (n, u) =>
      match unit_nanoseconds u with
      | Some k => Some (n * k)
      | None => None
      end
  | None => None
  end.

Example parse_200ms : parseSimpleDuration "200ms" = Some (200 * Millisecond).
Proof. reflexivity. Qed.

Example parse_bad : parseSimpleDuration "soon" = None.
Proof. reflexivity. Qed.

(** A transport for the examples: the memory holds the reply objects by
    address; [Request] fills the one the invocation points to, the
    other two calls leave the memory alone. *)
Definition demo_Request (c : N) (inv : RPCInvocation) (u : URL) (t : Z)
    (mem : gmap N string) : option error * gmap string string * gmap N string :=
  match reply inv with
  | Ptr p => (None, {[ "remote"%string := Location u ]}, <[p := "pong"%string]> mem)
  | _ => (Some (ErrExternal 1), ∅, mem)
  end.

Definition demo_AsyncRequest (c : N) (inv : RPCInvocation) (u : URL) (t : Z)
    (callBack : N) (mem : gmap N string)
    : option error * gmap string string * gmap N string :=
  (None, ∅, mem).

Definition demo_Send (c : N) (inv : RPCInvocation) (u : URL) (t : Z)
    (mem : gmap N string) : option error * gmap N string :=
  (None, mem).

Definition demo_inject (span : unit) (a : gmap string string)
    : gmap string string * option error :=
  (<["trace-id"%string := "1"%string]> a, None).

Definition demo_Invoke_with :=
  Invoke_with parseSimpleDuration unit demo_inject (gmap N string)
    demo_Request demo_AsyncRequest demo_Send.

Definition demo_getTimeout := getTimeout parseSimpleDuration.

Definition demo_url : URL :=
  {| Location := "127.0.0.1:20000";
     params := {[ "interface"%string := "com.ikurento.user.UserProvider"%string;
                  "methods.foo.timeout"%string := "200ms"%string ]} |}.

Definition generic_url : URL :=
  {| Location := "127.0.0.1:20000";
     params := {[ "generic"%string := "true"%string;
                  "methods.$invoke.timeout"%string := "200ms"%string ]} |}.

Definition demo_invoker (u : URL) (c : option N) : DubboInvoker :=
  {| base := NewBaseInvoker u; client := c; quitOnce := false;
     timeout := 5 * Second |}.

Definition destroyed_invoker : DubboInvoker :=
  {| base := BaseInvoker_Destroy (NewBaseInvoker demo_url); client := None;
     quitOnce := true; timeout := 5 * Second |}.

Definition call (method : string) (args : list any) (reply callBack : any)
    (a : gmap string string) : RPCInvocation :=
  {| methodName := method; arguments := args; reply := reply;
     callBack := callBack; attachments := a |}.

(** A [Destroy] that has marked the invoker destroyed and waits for the
    write lock to detach the client. *)
Definition destroy_under_way (di : DubboInvoker) : DubboInvoker :=
  with_base di (BaseInvoker_Destroy (base di)).

(** *** [Destroy], call after call *)

Lemma Destroy_done di w : quitOnce di = true -> Destroy di w = Returned (di, w).
Proof. unfold Destroy. by intros ->. Qed.

(** The invoker once its [Destroy] has run. *)
Definition destroyed_of (di : DubboInvoker) : DubboInvoker :=
  {| base := BaseInvoker_Destroy (base di); client := None; quitOnce := true;
     timeout := timeout di |}.

(** The world once the client [c], found in state [cl], was released by
    an invoker of the endpoint [loc]. *)
Definition released (c : N) (cl : ExchangeClient) (loc : string) (w : World) : World :=
  let n := activeNum cl - 1 in
  if n =? 0 then
    {| clients := <[c := {| activeNum := n; closed := true |}]> (clients w);
       exchangeClientMap := delete loc (exchangeClientMap w) |}
  else
    {| clients := <[c := {| activeNum := n; closed := closed cl |}]> (clients w);
       exchangeClientMap := exchangeClientMap w |}.

Lemma Destroy_first di w c cl :
  quitOnce di = false -> client di = Some c -> clients w !! c = Some cl ->
  Destroy di w = Returned (destroyed_of di, released c cl (Location (GetURL di)) w).
Proof.
  intros Hq Hc Hcl. unfold Destroy, Destroy_body, released. rewrite Hq.
  cbn [getClient with_base client]. rewrite Hc.
  unfold DecreaseActiveNumber. rewrite Hcl. cbn [outcome_bind]. cbv zeta.
  destruct (activeNum cl - 1 =? 0) eqn:E.
  - unfold Close, exchangeClientMap_Delete. cbn [clients exchangeClientMap].
    rewrite lookup_insert_eq. cbn [outcome_bind activeNum].
    rewrite insert_insert_eq. reflexivity.
  - reflexivity.
Qed.

Lemma Destroy_first_nil di w :
  quitOnce di = false -> client di = None ->
  Destroy di w = Returned (destroyed_of di, w).
Proof.
  intros Hq Hc. unfold Destroy, Destroy_body. rewrite Hq.
  cbn [getClient with_base client]. rewrite Hc. cbn [outcome_bind].
  unfold with_quitOnce, destroyed_of. cbn. by rewrite Hc.
Qed.

Lemma Destroy_times_done n di w :
  quitOnce di = true -> Destroy_times n di w = Returned (di, w).
Proof.
  intros Hq. induction n as [|n IH]; [done|].
  cbn [Destroy_times]. rewrite Destroy_done by done. exact IH.
Qed.

(** *** Facts about the goroutines of [Destroy] *)

Definition is_body (p : pc) : bool :=
  match p with
  | AtBaseDestroy | AtGetClient | AtDecrease _ | AtSetClient _ _
  | AtDelete _ | AtClose _ | AtStoreDone => true
  | _ => false
  end.

(** The count of the client at [c], if there is one. *)
Definition count (c : N) (w : World) : option Z := activeNum <$> clients w !! c.

Lemma body_step_shape p di w p' di' w' :
  body_step p di w = Returned (p', di', w') ->
  is_body p = true
  /\ (weight p' < weight p)%nat
  /\ ((p = AtStoreDone /\ p' = AtUnlock /\ di' = with_quitOnce di true /\ w' = w)
      \/ (p <> AtStoreDone /\ is_body p' = true /\ quitOnce di' = quitOnce di)).
Proof.
  destruct p; cbn [body_step]; try discriminate.
  - intros [= <- <- <-]. cbn. split; [done|]. split; [lia|]. right. by repeat split.
  - destruct (getClient di); intros [= <- <- <-]; cbn;
      (split; [done|]); (split; [lia|]); right; by repeat split.
  - destruct (DecreaseActiveNumber c w) as [[k w1]|]; [|discriminate].
    intros [= <- <- <-]. cbn. split; [done|]. split; [lia|]. right. by repeat split.
  - intros [= <- <- <-]. split; [done|].
    destruct (activeNumber =? 0); cbn; (split; [lia|]); right; by repeat split.
  - intros [= <- <- <-]. cbn. split; [done|]. split; [lia|]. right. by repeat split.
  - destruct (Close c w) as [w1|]; [|discriminate].
    intros [= <- <- <-]. cbn. split; [done|]. split; [lia|]. right. by repeat split.
  - intros [= <- <- <-]. cbn. split; [done|]. split; [lia|]. left. by repeat split.
Qed.

Lemma run_body_unlock fuel di w : run_body fuel AtUnlock di w = Returned ([], di, w).
Proof. by destruct fuel. Qed.

Lemma run_body_inv fuel p di w tr dF wF :
  run_body fuel p di w = Returned (tr, dF, wF) ->
  (p = AtUnlock /\ tr = [] /\ dF = di /\ wF = w)
  \/ exists f p' di' w' tr',
       fuel = S f /\ body_step p di w = Returned (p', di', w')
       /\ run_body f p' di' w' = Returned (tr', dF, wF) /\ tr = p :: tr'.
Proof.
  destruct (decide (is_body p = true)) as [Hb|Hb].
  - intros H. right. destruct fuel as [|f]; [by destruct p|].
    assert (run_body (S f) p di w
            = (r <-! body_step p di w;
               let '(p', di', w') := r in
               r' <-! run_body f p' di' w';
               let '(tr, dF, wF) := r' in Returned (p :: tr, dF, wF))) as E
      by (by destruct p).
    rewrite E in H. clear E.
    destruct (body_step p di w) as [[[p' di'] w']|]; [|discriminate].
    cbn [outcome_bind] in H.
    destruct (run_body f p' di' w') as [[[tr' dF'] wF']|] eqn:E'; [|discriminate].
    injection H as <- <- <-. by exists f, p', di', w', tr'.
  - destruct p; try done.
    + by destruct fuel.
    + by destruct fuel.
    + by destruct fuel.
    + rewrite run_body_unlock. intros [= <- <- <-]. by left.
    + by destruct fuel.
Qed.

Lemma run_body_done fuel p di w tr dF wF :
  is_body p = true ->
  run_body fuel p di w = Returned (tr, dF, wF) -> quitOnce dF = true.
Proof.
  revert p di w tr. induction fuel as [|f IH]; intros p di w tr Hb H.
  - by destruct p.
  - destruct (run_body_inv _ _ _ _ _ _ _ H)
      as [(-> & _)|(f' & p' & di' & w' & tr' & [= <-] & Hs & Hr & ->)];
      [done|].
    destruct (body_step_shape _ _ _ _ _ _ Hs)
      as (_ & _ & [(-> & -> & -> & ->)|(_ & Hb' & _)]).
    + rewrite run_body_unlock in Hr. by injection Hr as <- <- <-.
    + by apply (IH p' di' w' tr').
Qed.

Lemma decrements_app c a b : decrements c (a ++ b) = decrements c a + decrements c b.
Proof. induction a as [|p a IH]; cbn [decrements app]; [done|]. lia. Qed.

Lemma decrements_nonneg c tr : 0 <= decrements c tr.
Proof.
  induction tr as [|p tr IH]; cbn [decrements]; [done|].
  destruct (is_decrease c p); lia.
Qed.

Lemma body_step_count p di w p' di' w' c0 :
  body_step p di w = Returned (p', di', w') ->
  count c0 w' = (fun k => k - (if is_decrease c0 p then 1 else 0)) <$> count c0 w.
Proof.
  assert (forall o : option Z, o = (fun k => k - 0) <$> o) as Hid.
  { intros [k|]; cbn; [f_equal; lia|done]. }
  unfold count. destruct p; cbn [body_step is_decrease]; try discriminate.
  - intros [= <- <- <-]. apply Hid.
  - destruct (getClient di); intros [= <- <- <-]; apply Hid.
  - unfold DecreaseActiveNumber.
    destruct (clients w !! c) as [cl|] eqn:E; [|discriminate].
    cbn [outcome_bind fst snd]. intros [= <- <- <-]. cbn [clients].
    destruct (N.eqb_spec c c0) as [->|Hne].
    + rewrite lookup_insert_eq, E. reflexivity.
    + rewrite lookup_insert_ne by done. apply Hid.
  - intros [= <- <- <-]. apply Hid.
  - intros [= <- <- <-]. apply Hid.
  - unfold Close.
    destruct (clients w !! c) as [cl|] eqn:E; [|discriminate].
    cbn [outcome_bind]. intros [= <- <- <-]. cbn [clients].
    destruct (decide (c = c0)) as [->|Hne].
    + rewrite lookup_insert_eq, E. cbn. f_equal. lia.
    + rewrite lookup_insert_ne by done. apply Hid.
  - intros [= <- <- <-]. apply Hid.
Qed.

Lemma run_body_count fuel p di w tr dF wF c0 :
  run_body fuel p di w = Returned (tr, dF, wF) ->
  count c0 wF = (fun k => k - decrements c0 tr) <$> count c0 w.
Proof.
  revert p di w tr. induction fuel as [|f IH]; intros p di w tr H;
    destruct (run_body_inv _ _ _ _ _ _ _ H)
      as [(-> & -> & -> & ->)|(f' & p' & di' & w' & tr' & Hf & Hs & Hr & ->)];
    try discriminate.
  - destruct (count c0 w); cbn; [f_equal; lia|done].
  - destruct (count c0 w); cbn; [f_equal; lia|done].
  - injection Hf as <-. rewrite (IH _ _ _ _ Hr), (body_step_count _ _ _ _ _ _ c0 Hs).
    cbn [decrements]. destruct (count c0 w); cbn; [f_equal; lia|done].
Qed.

Lemma total_weight_insert l i p p' :
  l !! i = Some p -> (weight p' < weight p)%nat ->
  (total_weight (<[i := p']> l) < total_weight l)%nat.
Proof.
  revert i. induction l as [|q l IH]; intros [|i]; try done.
  - intros [= ->] H. change (<[0%nat := p']> (p :: l)) with (p' :: l).
    cbn [total_weight]. lia.
  - intros Hl H. specialize (IH i Hl H).
    change (<[S i := p']> (q :: l)) with (q :: <[i := p']> l).
    cbn [total_weight]. lia.
Qed.

(** One run of the function from its first statement, for an invoker
    whose client [c] is in state [cl]. *)
Definition one_run (c : N) (cl : ExchangeClient) : list pc :=
  [AtBaseDestroy; AtGetClient; AtDecrease c; AtSetClient c (activeNum cl - 1)]
  ++ (if activeNum cl - 1 =? 0 then [AtDelete c; AtClose c] else [])
  ++ [AtStoreDone].

Lemma run_body_next f p di w p' di' w' :
  body_step p di w = Returned (p', di', w') ->
  run_body (S f) p di w
  = (r' <-! run_body f p' di' w';
     let '(tr, dF, wF) := r' in Returned (p :: tr, dF, wF)).
Proof.
  intros Hs. destruct (body_step_shape _ _ _ _ _ _ Hs) as (Hb & _).
  destruct p; try discriminate; cbn [run_body]; by rewrite Hs.
Qed.

Lemma run_body_start di w c cl :
  client di = Some c -> clients w !! c = Some cl ->
  run_body 7 AtBaseDestroy di w
  = Returned (one_run c cl, destroyed_of di, released c cl (Location (GetURL di)) w).
Proof.
  intros Hc Hcl.
  pose (di1 := with_base di (BaseInvoker_Destroy (base di))).
  pose (w1 := {| clients := <[c := {| activeNum := activeNum cl - 1;
                                      closed := closed cl |}]> (clients w);
                 exchangeClientMap := exchangeClientMap w |}).
  assert (body_step AtGetClient di1 w = Returned (AtDecrease c, di1, w)) as S2.
  { unfold body_step, getClient, di1, with_base. cbn [client]. by rewrite Hc. }
  assert (body_step (AtDecrease c) di1 w
          = Returned (AtSetClient c (activeNum cl - 1), di1, w1)) as S3.
  { unfold body_step, DecreaseActiveNumber. by rewrite Hcl. }
  rewrite (run_body_next 6 AtBaseDestroy di w AtGetClient di1 w eq_refl).
  rewrite (run_body_next 5 _ _ _ _ _ _ S2).
  rewrite (run_body_next 4 _ _ _ _ _ _ S3).
  unfold one_run, released. cbv zeta.
  destruct (activeNum cl - 1 =? 0) eqn:E.
  - assert (body_step (AtSetClient c (activeNum cl - 1)) di1 w1
            = Returned (AtDelete c, setClient di1 None, w1)) as S4.
    { unfold body_step. by rewrite E. }
    assert (body_step (AtClose c) (setClient di1 None)
              (exchangeClientMap_Delete (Location (GetURL di)) w1)
            = Returned (AtStoreDone, setClient di1 None,
                {| clients := <[c := {| activeNum := activeNum cl - 1; closed := true |}]>
                                (clients w);
                   exchangeClientMap :=
                     delete (Location (GetURL di)) (exchangeClientMap w) |})) as S6.
    { unfold body_step, Close, exchangeClientMap_Delete, w1.
      cbn [clients exchangeClientMap]. rewrite lookup_insert_eq.
      cbn [outcome_bind activeNum]. by rewrite insert_insert_eq. }
    rewrite (run_body_next 3 _ _ _ _ _ _ S4).
    rewrite (run_body_next 2 (AtDelete c) (setClient di1 None) w1 (AtClose c)
               (setClient di1 None)
               (exchangeClientMap_Delete (Location (GetURL di)) w1) eq_refl).
    rewrite (run_body_next 1 _ _ _ _ _ _ S6).
    reflexivity.
  - assert (body_step (AtSetClient c (activeNum cl - 1)) di1 w1
            = Returned (AtStoreDone, setClient di1 None, w1)) as S4.
    { unfold body_step. by rewrite E. }
    rewrite (run_body_next 3 _ _ _ _ _ _ S4).
    reflexivity.
Qed.

Lemma decrements_one_run c cl : decrements c (one_run c cl) = 1.
Proof.
  unfold one_run. rewrite !decrements_app. cbn [decrements is_decrease].
  rewrite N.eqb_refl. destruct (activeNum cl - 1 =? 0); reflexivity.
Qed.

Section Goroutines.
(** [n] goroutines call [Destroy] on the invoker [di0] in the world
    [w0]; one goroutine running the function alone from there executes
    the statements [total] and ends with [dF] and [wF]. *)
Variables (di0 : DubboInvoker) (w0 : World).
Variables (dF : DubboInvoker) (wF : World) (total : list pc) (n : nat).
Hypothesis Hq0 : quitOnce di0 = false.
Hypothesis Hrun : run_body 7 AtBaseDestroy di0 w0 = Returned (total, dF, wF).

(** A goroutine outside the critical section. *)
Definition idle (done : bool) (p : pc) : Prop :=
  p = AtDo \/ p = AtLock \/ (done = true /\ p = Finished).

Definition rest_idle (done : bool) (l : list pc) (holder : option nat) : Prop :=
  forall j q, l !! j = Some q -> holder <> Some j -> idle done q.

(** Nobody is inside the function: it has not started, or it is over. *)
Definition settled (st : conc) : Prop :=
  if quitOnce (c_di st)
  then c_di st = dF /\ c_w st = wF /\ c_trace st = total
  else c_di st = di0 /\ c_w st = w0 /\ c_trace st = [].

(** The invariant: only the holder of the mutex is past [o.m.Lock()],
    and what it has executed so far is the beginning of the one run. *)
Definition Inv (st : conc) : Prop :=
  length (c_pcs st) = n
  /\ rest_idle (quitOnce (c_di st)) (c_pcs st) (c_mutex st)
  /\ match c_mutex st with
     | None => settled st
     | Some h =>
         exists p, c_pcs st !! h = Some p
           /\ ((p = AtCheck /\ settled st)
               \/ (p = AtUnlock /\ quitOnce (c_di st) = true /\ settled st)
               \/ (is_body p = true /\ quitOnce (c_di st) = false
                   /\ exists fuel tr,
                        run_body fuel p (c_di st) (c_w st) = Returned (tr, dF, wF)
                        /\ c_trace st ++ tr = total))
     end.

Lemma final_done : quitOnce dF = true.
Proof. by apply (run_body_done 7 AtBaseDestroy di0 w0 total dF wF). Qed.

Lemma idle_mono done p : idle false p -> idle done p.
Proof. intros [->|[->|[? _]]]; [by left|by right; left|done]. Qed.

Lemma rest_idle_mono done l h : rest_idle false l h -> rest_idle done l h.
Proof. intros H j q Hj Hh. apply idle_mono. by apply (H j q). Qed.

Lemma rest_idle_insert done l h i p' :
  rest_idle done l h -> (h <> Some i -> idle done p') ->
  rest_idle done (<[i := p']> l) h.
Proof.
  intros H Hp j q Hj Hh. apply list_lookup_insert_Some in Hj.
  destruct Hj as [(-> & <- & _)|[_ Hj]]; [by apply Hp|by apply (H j q)].
Qed.

Lemma rest_idle_lock done l i p' :
  rest_idle done l None -> rest_idle done (<[i := p']> l) (Some i).
Proof.
  intros H j q Hj Hh. apply list_lookup_insert_Some in Hj.
  destruct Hj as [(-> & _)|[_ Hj]]; [done|by apply (H j q)].
Qed.

Lemma rest_idle_unlock done l i :
  rest_idle done l (Some i) -> done = true ->
  rest_idle done (<[i := Finished]> l) None.
Proof.
  intros H Hd j q Hj _. apply list_lookup_insert_Some in Hj.
  destruct Hj as [(-> & <- & _)|[Hne Hj]].
  - right. by right.
  - apply (H j q Hj). congruence.
Qed.

Lemma Inv_init : Inv (init n di0 w0).
Proof.
  unfold Inv, init, settled. cbn. rewrite Hq0. split; [apply length_replicate|].
  split; [|done]. intros j q [-> _]%lookup_replicate _. by left.
Qed.

(** Who is not idle holds the mutex. *)
Lemma holder_of st i p :
  Inv st -> c_pcs st !! i = Some p -> ~ idle (quitOnce (c_di st)) p ->
  c_mutex st = Some i.
Proof.
  intros (_ & Hidle & _) Hp Hn.
  destruct (decide (c_mutex st = Some i)) as [|Hne]; [done|].
  destruct Hn. by apply (Hidle i p).
Qed.

Lemma not_idle_body done p : is_body p = true -> ~ idle done p.
Proof. intros Hb [->|[->|[_ ->]]]; discriminate. Qed.

(** The holder executes one statement of the function. *)
Lemma Inv_body st i p p' di w :
  Inv st -> c_pcs st !! i = Some p ->
  body_step p (c_di st) (c_w st) = Returned (p', di, w) ->
  Inv {| c_di := di; c_w := w; c_mutex := c_mutex st;
         c_pcs := <[i := p']> (c_pcs st); c_trace := c_trace st ++ [p] |}.
Proof.
  intros HI Hp Hs.
  destruct (body_step_shape _ _ _ _ _ _ Hs) as (Hb & _ & Hshape).
  pose proof (holder_of st i p HI Hp (not_idle_body _ p Hb)) as Hm.
  destruct HI as (Hlen & Hidle & Hh). rewrite Hm in Hh, Hidle.
  destruct Hh as (p0 & Hp0 & Hcase). rewrite Hp in Hp0. injection Hp0 as <-.
  destruct Hcase as [[-> _]|[[-> _]|(_ & Hq & fuel & tr & Hr & Htr)]];
    [discriminate..|].
  destruct (run_body_inv _ _ _ _ _ _ _ Hr)
    as [(-> & _)|(f & p1 & di1 & w1 & tr' & -> & Hs' & Hr' & ->)];
    [discriminate|].
  rewrite Hs in Hs'. injection Hs' as <- <- <-.
  unfold Inv. cbn [c_di c_w c_mutex c_pcs c_trace]. rewrite Hm.
  split; [by rewrite length_insert|].
  assert (i < length (c_pcs st))%nat as Hi by by eapply lookup_lt_Some.
  destruct Hshape as [(-> & -> & -> & ->)|(Hne & Hb' & Hq')].
  - rewrite run_body_unlock in Hr'. injection Hr' as Htr' HdF HwF.
    subst tr'. split.
    { apply rest_idle_insert; [|done]. apply rest_idle_mono.
      by rewrite <- Hq. }
    exists AtUnlock. split; [by apply list_lookup_insert_eq|].
    right. left. unfold settled. simpl.
    split; [reflexivity|]. split; [reflexivity|]. split; [exact HdF|].
    split; [exact HwF|exact Htr].
  - split.
    { apply rest_idle_insert; [|done]. by rewrite Hq'. }
    exists p'. split; [by apply list_lookup_insert_eq|].
    right. right. split; [done|]. split; [by rewrite Hq'|].
    exists f, tr'. split; [done|]. by rewrite <- List.app_assoc.
Qed.

Lemma Inv_step st st' : Inv st -> step st st' -> Inv st'.
Proof.
  intros HI [i Hstep]. unfold thread_step in Hstep.
  destruct (c_pcs st !! i) as [p|] eqn:Hp; [|discriminate].
  assert (i < length (c_pcs st))%nat as Hi by by eapply lookup_lt_Some.
  destruct p;
    try (destruct (body_step _ (c_di st) (c_w st)) as [[[p' di] w]|] eqn:Hs;
         [|discriminate]; injection Hstep as <-;
         by apply (Inv_body st i _ p' di w)).
  - (* the load of the done flag *)
    injection Hstep as <-. destruct HI as (Hlen & Hidle & Hh).
    unfold Inv, move. cbn [c_di c_w c_mutex c_pcs c_trace].
    split; [by rewrite length_insert|]. split.
    { apply rest_idle_insert; [done|]. intros _.
      destruct (quitOnce (c_di st)); [right; by right|right; by left]. }
    destruct (c_mutex st) as [h|]; [|done].
    destruct Hh as (p & Hph & Hcase). exists p. split; [|done].
    rewrite list_lookup_insert_ne; [done|]. intros ->.
    rewrite Hp in Hph. injection Hph as <-.
    destruct Hcase as [[? _]|[[? _]|[? _]]]; discriminate.
  - (* o.m.Lock() *)
    destruct (c_mutex st) as [h|] eqn:Hm; [discriminate|].
    injection Hstep as <-. destruct HI as (Hlen & Hidle & Hh).
    rewrite Hm in Hh, Hidle.
    unfold Inv, with_mutex, move. cbn [c_di c_w c_mutex c_pcs c_trace].
    split; [by rewrite length_insert|]. split; [by apply rest_idle_lock|].
    exists AtCheck. split; [by apply list_lookup_insert_eq|]. by left.
  - (* the second load, under the mutex *)
    injection Hstep as <-.
    assert (c_mutex st = Some i) as Hm.
    { apply (holder_of st i AtCheck HI Hp). intros [?|[?|[_ ?]]]; discriminate. }
    destruct HI as (Hlen & Hidle & Hh). rewrite Hm in Hh, Hidle.
    destruct Hh as (p & Hph & Hcase). rewrite Hp in Hph. injection Hph as <-.
    destruct Hcase as [[_ Hset]|[[? _]|[? _]]]; [|discriminate..].
    unfold Inv, move. cbn [c_di c_w c_mutex c_pcs c_trace]. rewrite Hm.
    split; [by rewrite length_insert|].
    split; [by apply rest_idle_insert|].
    eexists. split; [by apply list_lookup_insert_eq|].
    unfold settled in *. cbn [c_di c_w c_trace].
    destruct (quitOnce (c_di st)) eqn:Hq.
    + right. left. split; [done|]. split; [done|exact Hset].
    + right. right. split; [done|]. split; [done|].
      destruct Hset as (Hd & Hw & Ht). rewrite Hd, Hw, Ht.
      by exists 7%nat, total.
  - (* o.m.Unlock() *)
    injection Hstep as <-.
    assert (c_mutex st = Some i) as Hm.
    { apply (holder_of st i AtUnlock HI Hp). intros [?|[?|[_ ?]]]; discriminate. }
    destruct HI as (Hlen & Hidle & Hh). rewrite Hm in Hh, Hidle.
    destruct Hh as (p & Hph & Hcase). rewrite Hp in Hph. injection Hph as <-.
    destruct Hcase as [[? _]|[(_ & Hq & Hset)|[? _]]]; [discriminate| |discriminate].
    unfold Inv, with_mutex, move. cbn [c_di c_w c_mutex c_pcs c_trace].
    split; [by rewrite length_insert|].
    split; [by apply rest_idle_unlock|]. done.
  - discriminate.
Qed.

Lemma Inv_reachable st : rtc step (init n di0 w0) st -> Inv st.
Proof.
  intros H. revert st H. apply (rtc_ind_r Inv); [apply Inv_init|].
  intros st1 st2 _ Hs IH. by apply (Inv_step st1).
Qed.

End Goroutines.

Lemma run_schedule_rtc schedule st st' :
  run_schedule schedule st = Some st' -> rtc step st st'.
Proof.
  revert st. induction schedule as [|i schedule IH]; intros st; cbn [run_schedule].
  - intros [= ->]. apply rtc_refl.
  - destruct (thread_step i st) as [st1|] eqn:E; [|discriminate].
    intros H. eapply rtc_l; [by exists i|by apply IH].
Qed.

(** All goroutines are back: the one run has been executed. *)
Lemma Inv_finished di0 w0 dF wF total n st :
  Inv di0 w0 dF wF total n st -> (0 < n)%nat ->
  (forall p, p ∈ c_pcs st -> p = Finished) ->
  c_di st = dF /\ c_w st = wF /\ c_trace st = total.
Proof.
  intros (Hlen & Hidle & Hh) Hn Hfin.
  destruct (c_mutex st) as [h|].
  - destruct Hh as (p & Hp & Hcase).
    assert (p = Finished) as -> by (apply Hfin; by eapply list_elem_of_lookup_2).
    destruct Hcase as [[? _]|[[? _]|[? _]]]; discriminate.
  - unfold settled in Hh. destruct (quitOnce (c_di st)); [done|].
    destruct (lookup_lt_is_Some_2 (c_pcs st) 0%nat) as [p Hp]; [lia|].
    assert (p = Finished) as -> by (apply Hfin; by eapply list_elem_of_lookup_2).
    destruct (Hidle 0%nat Finished Hp) as [?|[?|[? _]]]; discriminate.
Qed.

(** At any moment the count of a client is its first value less the
    decrements executed so far, and these are among those of the one
    run. *)
Lemma Inv_count di0 w0 dF wF total n st c0 :
  run_body 7 AtBaseDestroy di0 w0 = Returned (total, dF, wF) ->
  Inv di0 w0 dF wF total n st ->
  count c0 (c_w st) = (fun k => k - decrements c0 (c_trace st)) <$> count c0 w0
  /\ 0 <= decrements c0 (c_trace st) <= decrements c0 total.
Proof.
  intros Hrun (_ & _ & Hh).
  pose proof (run_body_count _ _ _ _ _ _ _ c0 Hrun) as Htot.
  assert (settled di0 w0 dF wF total st ->
    count c0 (c_w st) = (fun k => k - decrements c0 (c_trace st)) <$> count c0 w0
    /\ 0 <= decrements c0 (c_trace st) <= decrements c0 total) as Hset.
  { unfold settled. destruct (quitOnce (c_di st)); intros (_ & -> & ->).
    - split; [done|]. pose proof (decrements_nonneg c0 total). lia.
    - split; [|pose proof (decrements_nonneg c0 total); cbn; lia].
      destruct (count c0 w0); cbn; [f_equal; lia|done]. }
  destruct (c_mutex st) as [h|]; [|by apply Hset].
  destruct Hh as (p & _ & [[_ H]|[(_ & _ & H)|(_ & _ & fuel & tr & Hr & Htr)]]);
    [by apply Hset..|].
  pose proof (run_body_count _ _ _ _ _ _ _ c0 Hr) as Hfut.
  rewrite <- Htr, decrements_app in *.
  pose proof (decrements_nonneg c0 (c_trace st)).
  pose proof (decrements_nonneg c0 tr).
  split; [|lia]. rewrite Htot in Hfut.
  destruct (count c0 w0) as [k0|], (count c0 (c_w st)) as [k|];
    cbn [fmap option_fmap option_map] in Hfut |- *; try discriminate; [|done].
  injection Hfut as Hk. f_equal. lia.
Qed.

(** While a goroutine is not back, some goroutine can move. *)
Lemma Inv_progress di0 w0 dF wF total n st :
  Inv di0 w0 dF wF total n st ->
  (exists p, p ∈ c_pcs st /\ p <> Finished) ->
  exists st', step st st'.
Proof.
  intros (Hlen & Hidle & Hh) (q & Hq & Hnf).
  destruct (c_mutex st) as [h|] eqn:Hm.
  - destruct Hh as (p & Hp & Hcase). unfold step, thread_step.
    destruct Hcase as [[-> _]|[[-> _]|(Hb & _ & fuel & tr & Hr & _)]].
    + exists (move h (if quitOnce (c_di st) then AtUnlock else AtBaseDestroy) st), h.
      by rewrite Hp.
    + exists (with_mutex None (move h Finished st)), h. by rewrite Hp.
    + destruct (run_body_inv _ _ _ _ _ _ _ Hr)
        as [(-> & _)|(f & p' & di' & w' & tr' & _ & Hs & _)]; [discriminate|].
      eexists. exists h. rewrite Hp.
      destruct p; try discriminate; by rewrite Hs.
  - apply list_elem_of_lookup_1 in Hq as [i Hi]. unfold step, thread_step.
    destruct (Hidle i q Hi) as [->|[->|[_ ->]]]; [done| | |done].
    + exists (move i (if quitOnce (c_di st) then Finished else AtLock) st), i.
      by rewrite Hi.
    + exists (with_mutex (Some i) (move i AtCheck st)), i. by rewrite Hi, Hm.
Qed.

(** Every step uses up some of what is left to do: no run goes on for
    ever. *)
Lemma step_weight st st' :
  step st st' -> (total_weight (c_pcs st') < total_weight (c_pcs st))%nat.
Proof.
  intros [i Hstep]. unfold thread_step in Hstep.
  destruct (c_pcs st !! i) as [p|] eqn:Hp; [|discriminate].
  destruct p;
    try (destruct (body_step _ (c_di st) (c_w st)) as [[[p' di] w]|] eqn:Hs;
         [|discriminate]; injection Hstep as <-;
         destruct (body_step_shape _ _ _ _ _ _ Hs) as (_ & Hw & _);
         by apply (total_weight_insert _ _ _ _ Hp)).
  - injection Hstep as <-. apply (total_weight_insert _ _ _ _ Hp).
    destruct (quitOnce (c_di st)); cbn; lia.
  - destruct (c_mutex st); [discriminate|]. injection Hstep as <-.
    apply (total_weight_insert _ _ _ _ Hp). cbn. lia.
  - injection Hstep as <-. apply (total_weight_insert _ _ _ _ Hp).
    destruct (quitOnce (c_di st)); cbn; lia.
  - injection Hstep as <-. apply (total_weight_insert _ _ _ _ Hp). cbn. lia.
  - discriminate.
Qed.

(** The calls of [Destroy] one after the other. *)
Lemma Destroy_sequential di w c cl :
  quitOnce di = false -> client di = Some c -> clients w !! c = Some cl ->
  let di' := destroyed_of di in
  let w' := released c cl (Location (GetURL di)) w in
  Destroy di w = Returned (di', w')
  /\ (forall n, Destroy_times (S n) di w = Returned (di', w'))
  /\ (forall w'', Destroy di' w'' = Returned (di', w''))
  /\ client di' = None /\ quitOnce di' = true
  /\ BaseInvoker_IsAvailable (base di') = false
  /\ (exists cl',
        clients w' !! c = Some cl'
        /\ activeNum cl' = activeNum cl - 1
        /\ (0 < activeNum cl -> 0 <= activeNum cl')
        /\ closed cl' = (if activeNum cl' =? 0 then true else closed cl))
  /\ (forall c', c' <> c -> clients w' !! c' = clients w !! c')
  /\ exchangeClientMap w'
     = (if activeNum cl - 1 =? 0
        then delete (Location (GetURL di)) (exchangeClientMap w)
        else exchangeClientMap w).
Proof.
  intros Hq Hc Hcl di' w'. subst di' w'.
  pose proof (Destroy_first di w c cl Hq Hc Hcl) as H1.
  split; [exact H1|]. split.
  { intros n. cbn [Destroy_times]. rewrite H1. cbn [outcome_bind].
    by apply Destroy_times_done. }
  split; [intros w''; by apply Destroy_done|].
  do 3 (split; [reflexivity|]).
  unfold released. cbv zeta.
  destruct (activeNum cl - 1 =? 0) eqn:E; cbn [clients exchangeClientMap].
  - split.
    { eexists. split; [apply lookup_insert_eq|]. cbn [activeNum closed].
      rewrite E. repeat split; [lia]. }
    split; [|done]. intros c' Hne. by rewrite lookup_insert_ne.
  - split.
    { eexists. split; [apply lookup_insert_eq|]. cbn [activeNum closed].
      rewrite E. repeat split; [lia]. }
    split; [|done]. intros c' Hne. by rewrite lookup_insert_ne.
Qed.

(** C2.  One call after the other: however many times [Destroy] is
    called on an invoker whose client is [c], the outcome is that of the
    first call; the count of [c] is one less than before (and not
    negative if the invoker's own reference was counted), the invoker
    has no client, is marked done and unavailable; [c] is taken out of
    the pool and closed exactly when the new count is zero; no other
    client changes; a further [Destroy] changes nothing.
    Any number of goroutines at once, interleaved statement by
    statement: at every moment the count of [c] is its first value less
    the decrements executed, of which there is at most one; as long as
    a goroutine is not back one of them can move, and every step brings
    the end nearer; when all are back the function has run once, and
    the invoker and the world are those of a single call. *)
Theorem Destroy_exactly_once di w c cl :
  quitOnce di = false -> client di = Some c -> clients w !! c = Some cl ->
  exists di' w',
    Destroy di w = Returned (di', w')
    /\ (forall n, Destroy_times (S n) di w = Returned (di', w'))
    /\ (forall w'', Destroy di' w'' = Returned (di', w''))
    /\ client di' = None /\ quitOnce di' = true
    /\ BaseInvoker_IsAvailable (base di') = false
    /\ (exists cl',
          clients w' !! c = Some cl'
          /\ activeNum cl' = activeNum cl - 1
          /\ (0 < activeNum cl -> 0 <= activeNum cl')
          /\ closed cl' = (if activeNum cl' =? 0 then true else closed cl))
    /\ (forall c', c' <> c -> clients w' !! c' = clients w !! c')
    /\ exchangeClientMap w'
       = (if activeNum cl - 1 =? 0
          then delete (Location (GetURL di)) (exchangeClientMap w)
          else exchangeClientMap w)
    /\ forall n st, rtc step (init n di w) st ->
         (exists cl',
             clients (c_w st) !! c = Some cl'
             /\ activeNum cl' = activeNum cl - decrements c (c_trace st)
             /\ 0 <= decrements c (c_trace st) <= 1)
         /\ ((exists p, p ∈ c_pcs st /\ p <> Finished) -> exists st', step st st')
         /\ (forall st', step st st' ->
               (total_weight (c_pcs st') < total_weight (c_pcs st))%nat)
         /\ ((0 < n)%nat -> (forall p, p ∈ c_pcs st -> p = Finished) ->
               c_di st = di' /\ c_w st = w' /\ c_trace st = one_run c cl).
Proof.
  intros Hq Hc Hcl.
  exists (destroyed_of di), (released c cl (Location (GetURL di)) w).
  destruct (Destroy_sequential di w c cl Hq Hc Hcl)
    as (H1 & H2 & H3 & H4 & H5 & H6 & H7 & H8 & H9).
  do 9 (split; [assumption|]).
  intros n st Hreach.
  pose proof (run_body_start di w c cl Hc Hcl) as Hrun.
  pose proof (Inv_reachable di w _ _ _ n Hq Hrun st Hreach) as HI.
  split; [|split; [|split]].
  - destruct (Inv_count _ _ _ _ _ _ _ c Hrun HI) as [Hcount Hdec].
    rewrite decrements_one_run in Hdec. unfold count in Hcount.
    rewrite Hcl in Hcount. cbn in Hcount.
    destruct (clients (c_w st) !! c) as [cl'|]; [|discriminate].
    injection Hcount as Hk. by exists cl'.
  - by apply (Inv_progress _ _ _ _ _ _ _ HI).
  - apply step_weight.
  - by apply (Inv_finished _ _ _ _ _ _ _ HI).
Qed.

(** *** The theorems at work *)

Definition world_two_refs : World :=
  {| clients := {[ 1%N := {| activeNum := 2; closed := false |} ]};
     exchangeClientMap := {[ "127.0.0.1:20000"%string := 1%N ]} |}.

Definition world_last_ref : World :=
  {| clients := {[ 1%N := {| activeNum := 1; closed := false |} ]};
     exchangeClientMap := {[ "127.0.0.1:20000"%string := 1%N ]} |}.

(** Three calls on the last invoker of a client: one release, the
    client closed and out of the pool. *)
Lemma Destroy_exactly_once_witness :
  Destroy_times 3 (demo_invoker demo_url (Some 1%N)) world_last_ref
  = Returned (destroyed_of (demo_invoker demo_url (Some 1%N)),
              {| clients := {[ 1%N := {| activeNum := 0; closed := true |} ]};
                 exchangeClientMap := ∅ |})
  /\ forall st,
       run_schedule [0; 1; 1; 1; 1; 1; 1; 1; 1; 1; 1; 1; 0; 0; 0]%nat
         (init 2 (demo_invoker demo_url (Some 1%N)) world_last_ref) = Some st ->
       c_pcs st = [Finished; Finished]
       /\ c_w st = {| clients := {[ 1%N := {| activeNum := 0; closed := true |} ]};
                      exchangeClientMap := ∅ |}.
Proof.
  destruct (Destroy_exactly_once (demo_invoker demo_url (Some 1%N)) world_last_ref
              1%N {| activeNum := 1; closed := false |})
    as (di' & w' & H1 & Hn & _ & _ & _ & _ & _ & _ & _ & Hconc); [reflexivity..|].
  assert (w' = {| clients := {[ 1%N := {| activeNum := 0; closed := true |} ]};
                  exchangeClientMap := ∅ |}) as Hw'.
  { assert (Returned (di', w')
            = Destroy (demo_invoker demo_url (Some 1%N)) world_last_ref)
      as E by (by rewrite H1).
    by injection E as _ ->. }
  split.
  - rewrite (Hn 2%nat), <- H1. reflexivity.
  - intros st Hst.
    destruct (Hconc 2%nat st (run_schedule_rtc _ _ _ Hst)) as (_ & _ & _ & Hend).
    assert (c_pcs st = [Finished; Finished]) as Hpcs.
    { assert (Some (c_pcs st) = Some [Finished; Finished]) as E; [|by injection E].
      change (c_pcs <$> Some st = Some [Finished; Finished]). by rewrite <- Hst. }
    split; [exact Hpcs|].
    destruct Hend as (_ & Hw & _); [lia| |by rewrite Hw].
    rewrite Hpcs. clear. intros p Hp.
    apply elem_of_cons in Hp as [->|Hp]; [reflexivity|].
    apply elem_of_cons in Hp as [->|Hp]; [reflexivity|].
    by apply elem_of_nil in Hp.
Defined.

Example Destroy_shared :
  Destroy (demo_invoker demo_url (Some 1%N)) world_two_refs
  = Returned (destroyed_of (demo_invoker demo_url (Some 1%N)),
              {| clients := {[ 1%N := {| activeNum := 1; closed := false |} ]};
                 exchangeClientMap := {[ "127.0.0.1:20000"%string := 1%N ]} |}).
Proof. reflexivity. Qed.

Definition foo_call : RPCInvocation := call "foo" [] (Ptr 7) Nil ∅.
Definition bar_call : RPCInvocation := call "bar" [] (Ptr 7) Nil ∅.
Definition no_reply_call : RPCInvocation := call "foo" [] Nil Nil ∅.
Definition oneway_call : RPCInvocation :=
  call "foo" [] (Ptr 7) Nil {[ "async"%string := "true"%string ]}.
Definition callback_call : RPCInvocation :=
  call "foo" [] (Ptr 7) (CallbackFunc 3) {[ "async"%string := "true"%string ]}.
Definition odd_flag_call : RPCInvocation :=
  call "foo" [] (Ptr 7) Nil {[ "async"%string := "yes"%string ]}.
Definition generic_call : RPCInvocation := call "$invoke" [Str "foo"] (Ptr 7) Nil ∅.
Definition generic_call_no_args : RPCInvocation := call "$invoke" [] (Ptr 7) Nil ∅.

Definition same (di : DubboInvoker) : DubboInvoker := di.

(** The three early answers: a destroyed invoker (with a nil client),
    an available invoker with a nil client, and an invoker that a
    [Destroy] marks while [Invoke] waits for the lock. *)
Lemma Invoke_fast_fail_witness :
  (exists out,
     demo_Invoke_with same destroyed_invoker ∅ None foo_call = Returned out
     /\ Err (result out) = Some ErrDestroyedInvoker
     /\ calls out = [] /\ invocation_after out = foo_call
     /\ mem_after out = ∅ /\ invoker_after out = destroyed_invoker)
  /\ (exists out,
     demo_Invoke_with same (demo_invoker demo_url None) ∅ None foo_call = Returned out
     /\ Err (result out) = Some ErrClientClosed
     /\ calls out = [] /\ invocation_after out = foo_call /\ mem_after out = ∅)
  /\ (exists out,
     demo_Invoke_with destroy_under_way (demo_invoker demo_url (Some 1%N)) ∅ None foo_call
     = Returned out
     /\ Err (result out) = Some ErrDestroyedInvoker
     /\ calls out = [] /\ invocation_after out = foo_call /\ mem_after out = ∅).
Proof.
  split; [|split].
  - apply (Invoke_fast_fail parseSimpleDuration unit demo_inject (gmap N string)
             demo_Request demo_AsyncRequest demo_Send same destroyed_invoker).
    reflexivity.
  - apply (Invoke_fast_fail parseSimpleDuration unit demo_inject (gmap N string)
             demo_Request demo_AsyncRequest demo_Send same
             (demo_invoker demo_url None)); reflexivity.
  - apply (Invoke_fast_fail parseSimpleDuration unit demo_inject (gmap N string)
             demo_Request demo_AsyncRequest demo_Send destroy_under_way
             (demo_invoker demo_url (Some 1%N)));
      [reflexivity|discriminate|reflexivity].
Defined.

(** The example of the specification: service timeout 5s and
    [methods.foo.timeout=200ms] give 200ms and "200" for [foo], 5s and
    "5000" for another method. *)
Lemma getTimeout_cascade_witness :
  demo_getTimeout (demo_invoker demo_url (Some 1%N)) foo_call
  = Returned (SetAttachments foo_call "timeout" "200", 200 * Millisecond)
  /\ demo_getTimeout (demo_invoker demo_url (Some 1%N)) bar_call
  = Returned (SetAttachments bar_call "timeout" "5000", 5 * Second).
Proof.
  split.
  - refine (proj1 (getTimeout_cascade parseSimpleDuration (3 * Second) "3s"
                     (demo_invoker demo_url (Some 1%N)) foo_call "foo" _)
                  (200 * Millisecond) _ _);
      [reflexivity|vm_compute; discriminate|reflexivity].
  - refine (proj1 (proj2 (getTimeout_cascade parseSimpleDuration (3 * Second) "3s"
                     (demo_invoker demo_url (Some 1%N)) bar_call "bar" _)) _);
      [reflexivity|left; reflexivity].
Defined.

(** On a generic URL the parameter looked up is the one of the first
    argument, not the one of the invocation's method: with
    [methods.$invoke.timeout=200ms] the call of [$invoke] for [foo]
    gets the service timeout; and with no first argument there is no
    timeout at all. *)
Lemma getTimeout_generic_counterexample :
  methodName generic_call = "$invoke"%string
  /\ GetParam generic_url (Join ["methods"; methodName generic_call; "timeout"]%string ".") ""
     = "200ms"%string
  /\ parseSimpleDuration "200ms" = Some (200 * Millisecond)
  /\ demo_getTimeout (demo_invoker generic_url (Some 1%N)) generic_call
     <> Returned (SetAttachments generic_call "timeout" "200", 200 * Millisecond)
  /\ demo_getTimeout (demo_invoker generic_url (Some 1%N)) generic_call
     = Returned (SetAttachments generic_call "timeout" "5000", 5 * Second)
  /\ demo_getTimeout (demo_invoker generic_url (Some 1%N)) generic_call_no_args
     = Panicked.
Proof.
  repeat split; try reflexivity. vm_compute. discriminate.
Qed.

Definition demo_di : DubboInvoker := demo_invoker demo_url (Some 1%N).

(** The invocation as the client receives it, after a 200ms timeout
    was resolved. *)
Definition sent (inv : RPCInvocation) : RPCInvocation :=
  SetAttachments (prepared unit demo_inject demo_di None inv) "timeout" "200".

Example sent_attachments :
  attachments (sent oneway_call)
  = {[ "async"%string := "true"%string;
       "interface"%string := "com.ikurento.user.UserProvider"%string;
       "path"%string := "com.ikurento.user.UserProvider"%string;
       "timeout"%string := "200"%string ]}.
Proof. vm_compute. reflexivity. Qed.

(** An async call without callback is one [Send]; an async call with a
    callback is one [AsyncRequest]; a flag that does not parse is
    logged and the call is a blocking [Request]. *)
Lemma Invoke_call_mode_witness :
  (exists out,
     demo_Invoke_with same demo_di ∅ None oneway_call = Returned out
     /\ calls out = [CallSend 1 (sent oneway_call) (served_url demo_di)
                       (200 * Millisecond)]
     /\ Err (result out) = None /\ mem_after out = ∅)
  /\ (exists out,
     demo_Invoke_with same demo_di ∅ None callback_call = Returned out
     /\ calls out = [CallAsyncRequest 1 (sent callback_call) (served_url demo_di)
                       (200 * Millisecond) 3])
  /\ (exists out,
     demo_Invoke_with same demo_di ∅ None odd_flag_call = Returned out
     /\ In (Errorf "ParseBool - error: %v" (ErrSyntax "ParseBool" "yes")) (logs out)
     /\ calls out = [CallRequest 1 (sent odd_flag_call) (served_url demo_di)
                       (200 * Millisecond)]).
Proof.
  split; [|split].
  - destruct (Invoke_call_mode parseSimpleDuration unit demo_inject (gmap N string)
                demo_Request demo_AsyncRequest demo_Send same demo_di 1%N ∅ None
                oneway_call (sent oneway_call) (200 * Millisecond))
      as (_ & _ & out & Hout & _ & _ & Hsend & _); [reflexivity..|].
    exists out. split; [exact Hout|].
    destruct Hsend as (Hc & He & Hm); [reflexivity|discriminate|].
    repeat split; assumption.
  - destruct (Invoke_call_mode parseSimpleDuration unit demo_inject (gmap N string)
                demo_Request demo_AsyncRequest demo_Send same demo_di 1%N ∅ None
                callback_call (sent callback_call) (200 * Millisecond))
      as (_ & _ & out & Hout & _ & Hcb & _); [reflexivity..|].
    exists out. split; [exact Hout|].
    destruct (Hcb eq_refl 3%N eq_refl) as [Hc _]. exact Hc.
  - destruct (Invoke_call_mode parseSimpleDuration unit demo_inject (gmap N string)
                demo_Request demo_AsyncRequest demo_Send same demo_di 1%N ∅ None
                odd_flag_call (sent odd_flag_call) (200 * Millisecond))
      as (_ & _ & out & Hout & Hlog & _ & _ & Hreq & _); [reflexivity..|].
    exists out. split; [exact Hout|]. split.
    + apply (Hlog (ErrSyntax "ParseBool" "yes")). reflexivity.
    + apply Hreq; [reflexivity|discriminate].
Defined.

(** A synchronous call with a nil reply slot issues no [Request]. *)
Lemma Invoke_sync_without_request :
  fst (asyncFlag (prepared unit demo_inject demo_di None no_reply_call)) = false
  /\ exists out,
      demo_Invoke_with same demo_di ∅ None no_reply_call = Returned out
      /\ calls out = []
      /\ Err (result out) = Some ErrNoReply.
Proof.
  split; [reflexivity|]. eexists. split; [reflexivity|]. split; reflexivity.
Qed.

(** A blocking call with a reply slot: the request fills the slot and
    the result carries it; without a slot: [ErrNoReply] and no call. *)
Lemma Invoke_synchronous_witness :
  (exists out,
     demo_Invoke_with same demo_di ∅ None foo_call = Returned out
     /\ calls out = [CallRequest 1 (sent foo_call) (served_url demo_di)
                       (200 * Millisecond)]
     /\ Err (result out) = None
     /\ Rest (result out) = Ptr 7
     /\ mem_after out = {[ 7%N := "pong"%string ]})
  /\ (exists out,
     demo_Invoke_with same demo_di ∅ None no_reply_call = Returned out
     /\ Err (result out) = Some ErrNoReply /\ calls out = []
     /\ mem_after out = ∅).
Proof.
  split.
  - destruct (Invoke_synchronous parseSimpleDuration unit demo_inject (gmap N string)
                demo_Request demo_AsyncRequest demo_Send same demo_di 1%N ∅ None
                foo_call (sent foo_call) (200 * Millisecond))
      as (out & Hout & _ & Hreq); [reflexivity..|].
    exists out. split; [exact Hout|].
    destruct Hreq as (Hc & _ & He & Hm & Hr); [discriminate|].
    destruct (Hr eq_refl) as [Hrest _].
    repeat split; assumption.
  - destruct (Invoke_synchronous parseSimpleDuration unit demo_inject (gmap N string)
                demo_Request demo_AsyncRequest demo_Send same demo_di 1%N ∅ None
                no_reply_call (sent no_reply_call) (200 * Millisecond))
      as (out & Hout & Hnil & _); [reflexivity..|].
    exists out. split; [exact Hout|]. apply Hnil. reflexivity.
Defined.

(** A blocking call without a reply slot that is not answered with
    [ErrNoReply]: on a destroyed invoker the answer is
    [ErrDestroyedInvoker]; on the URL of a generic service, the call
    having no argument, [Invoke] panics in [getTimeout], before the
    reply slot is looked at.  And a blocking call with a reply slot on
    a destroyed invoker issues no request. *)
Lemma Invoke_sync_unserved :
  fst (asyncFlag no_reply_call) = false /\ reply no_reply_call = Nil
  /\ (exists out,
        demo_Invoke_with same destroyed_invoker ∅ None no_reply_call = Returned out
        /\ Err (result out) = Some ErrDestroyedInvoker
        /\ Err (result out) <> Some ErrNoReply)
  /\ demo_Invoke_with same (demo_invoker generic_url (Some 1%N)) ∅ None no_reply_call
     = Panicked
  /\ fst (asyncFlag foo_call) = false /\ reply foo_call <> Nil
  /\ (exists out,
        demo_Invoke_with same destroyed_invoker ∅ None foo_call = Returned out
        /\ calls out = []).
Proof.
  split; [reflexivity|]. split; [reflexivity|]. split.
  { eexists. split; [reflexivity|]. split; [reflexivity|discriminate]. }
  split; [reflexivity|]. split; [reflexivity|]. split; [discriminate|].
  eexists. split; reflexivity.
Qed.

(** *** Tracing, availability, and invokers that share a client *)

Section Lifecycle.
(** The parameters of [Invoke], and [remoting.ExchangeClient.IsAvailable],
    which lies outside the sources as well. *)
Variable ParseDuration : string -> option Z.
Variable fallbackTimeout : Z.
Variable Span : Type.
Variable injectTraceCtx :
  Span -> gmap string string -> gmap string string * option error.
Variable Mem : Type.
Variable client_Request :
  N -> RPCInvocation -> URL -> Z -> Mem -> option error * gmap string string * Mem.
Variable client_AsyncRequest :
  N -> RPCInvocation -> URL -> Z -> N -> Mem -> option error * gmap string string * Mem.
Variable client_Send :
  N -> RPCInvocation -> URL -> Z -> Mem -> option error * Mem.
Variable client_IsAvailable : N -> World -> bool.

(** [DubboInvoker.IsAvailable] *)
Definition IsAvailable (di : DubboInvoker) (w : World) : bool :=
  let client := getClient di in
  match client with
  | Some c => client_IsAvailable c w
  | None => false
  end.

(** An injection that attaches what [injectTraceCtx] attaches and
    reports no error. *)
Definition quiet (span : Span) (a : gmap string string)
    : gmap string string * option error :=
  (fst (injectTraceCtx span a), None).

Definition forget_logs (out : invoked Mem) : invoked Mem :=
  {| result := result out; invoker_after := invoker_after out;
     invocation_after := invocation_after out; mem_after := mem_after out;
     calls := calls out; logs := [] |}.

Definition outcome_map {A B : Type} (f : A -> B) (o : outcome A) : outcome B :=
  match o with
  | Returned a => Returned (f a)
  | Panicked => Panicked
  end.

Lemma appendCtx_quiet ctx inv :
  fst (appendCtx Span quiet ctx inv) = fst (appendCtx Span injectTraceCtx ctx inv).
Proof.
  unfold appendCtx, quiet. destruct ctx as [span|]; [|done].
  by destruct (injectTraceCtx span (attachments inv)) as [a [e|]].
Qed.

Lemma appendCtx_logs span inv e :
  snd (injectTraceCtx span (attachments inv)) = Some e ->
  snd (appendCtx Span injectTraceCtx (Some span) inv)
  = [Errorf "Could not inject the span context into attachments: %v" e].
Proof.
  unfold appendCtx.
  destruct (injectTraceCtx span (attachments inv)) as [a [e'|]]; [|done].
  by intros [= ->].
Qed.

(** X6: a failure of the trace injection is logged and changes nothing
    else: the result, the call made on the client, the invocation, the
    invoker and the memory are those of a run whose injection attached
    the same and reported no error, and a panic of the one is a panic of
    the other.  Past the three tests the error is among the lines
    logged. *)
Theorem Invoke_injection_failure interfere di mem ctx inv :
  outcome_map forget_logs
    (Invoke_with ParseDuration Span injectTraceCtx Mem
       client_Request client_AsyncRequest client_Send interfere di mem ctx inv)
  = outcome_map forget_logs
      (Invoke_with ParseDuration Span quiet Mem
         client_Request client_AsyncRequest client_Send interfere di mem ctx inv)
  /\ forall span e out,
       ctx = Some span ->
       snd (injectTraceCtx span
              (attachments (initAttachments (GetURL (interfere di)) inv))) = Some e ->
       Invoke_with ParseDuration Span injectTraceCtx Mem
         client_Request client_AsyncRequest client_Send interfere di mem ctx inv
       = Returned out ->
       calls out <> [] ->
       In (Errorf "Could not inject the span context into attachments: %v" e)
          (logs out).
Proof.
  split.
  - unfold Invoke_with.
    destruct (negb (BaseInvoker_IsAvailable (base di))); [done|].
    destruct (client (interfere di)) as [c|]; [|done].
    destruct (negb (BaseInvoker_IsAvailable (base (interfere di)))); [done|].
    unfold Invoke_dispatch.
    pose proof (appendCtx_quiet ctx (initAttachments (GetURL (interfere di)) inv))
      as Hq.
    destruct (appendCtx Span quiet ctx _) as [inv1 l1].
    destruct (appendCtx Span injectTraceCtx ctx _) as [inv1' l1'].
    cbn [fst] in Hq. subst inv1'.
    destruct (asyncFlag inv1) as [async l2].
    destruct (getTimeout ParseDuration _ inv1) as [[inv3 t]|]; [|done].
    cbn [outcome_bind].
    by destruct (dispatch Mem client_Request client_AsyncRequest client_Send
                   c async inv3 _ t mem) as [[[err attrs] mem'] called].
  - intros span e out -> He H Hcalls.
    destruct (Invoke_with_cases _ _ _ _ _ _ _ _ _ _ _ _ _ H)
      as [(e0 & l & ->)|[(e0 & l & ->)|(c & _ & _ & _ & Hd)]]; [done..|].
    destruct (Invoke_dispatch_inv _ _ _ _ _ _ _ _ _ _ _ _ _ Hd)
      as (inv3 & t & _ & ->).
    cbv zeta. cbn [logs]. rewrite (appendCtx_logs _ _ _ He).
    by left.
Qed.

(** Once the [sync.Once] of an invoker is done the invoker is destroyed
    and has no client. *)
Definition done_is_destroyed (di : DubboInvoker) : Prop :=
  quitOnce di = true ->
  BaseInvoker_IsAvailable (base di) = false /\ client di = None.

Lemma Destroy_returned di w di' w' :
  done_is_destroyed di ->
  Destroy di w = Returned (di', w') ->
  BaseInvoker_IsAvailable (base di') = false /\ client di' = None
  /\ quitOnce di' = true /\ GetURL di' = GetURL di /\ timeout di' = timeout di.
Proof.
  intros Hwf. unfold Destroy.
  destruct (quitOnce di) eqn:Hq.
  - intros [= <- <-]. destruct (Hwf Hq) as [? ?]. by repeat split.
  - unfold Destroy_body. cbn [getClient with_base client].
    destruct (client di) as [c|] eqn:Hc.
    + destruct (DecreaseActiveNumber c w) as [[n w1]|]; [|done].
      cbn [outcome_bind]. destruct (n =? 0).
      * destruct (Close c _) as [w2|]; [|done]. cbn [outcome_bind].
        intros [= <- <-]. by repeat split.
      * cbn [outcome_bind]. intros [= <- <-]. by repeat split.
    + cbn [outcome_bind]. intros [= <- <-]. cbn. by repeat split.
Qed.

(** X7: once [Destroy] has returned, the invoker is of no use whatever
    the client and the other goroutines do: [IsAvailable] answers false
    in every world, every [Invoke] answers [ErrDestroyedInvoker] without
    a call on a client and without touching the invocation, and a
    further [Destroy] leaves invoker and world as they are.  The URL and
    the timeout are kept.  What is asked of the invoker beforehand, that
    a done [sync.Once] means destroyed and detached, holds of a new
    invoker and of every invoker [Destroy] or [Invoke] returns. *)
Theorem Destroy_then_unusable di w di' w' :
  done_is_destroyed di ->
  Destroy di w = Returned (di', w') ->
  (forall w'', IsAvailable di' w'' = false)
  /\ (forall interfere mem ctx inv,
        Invoke_with ParseDuration Span injectTraceCtx Mem
          client_Request client_AsyncRequest client_Send interfere di' mem ctx inv
        = Returned (early Mem di' inv mem ErrDestroyedInvoker
                      [Warnf "this dubboInvoker is destroyed"]))
  /\ (forall w'', Destroy di' w'' = Returned (di', w''))
  /\ GetURL di' = GetURL di /\ timeout di' = timeout di
  /\ done_is_destroyed di'
  /\ (forall rt u c,
        done_is_destroyed (NewDubboInvoker ParseDuration fallbackTimeout rt u c))
  /\ (forall mem ctx inv out,
        Invoke ParseDuration Span injectTraceCtx Mem
          client_Request client_AsyncRequest client_Send di mem ctx inv
        = Returned out ->
        done_is_destroyed (invoker_after out)).
Proof.
  intros Hwf H.
  destruct (Destroy_returned _ _ _ _ Hwf H) as (Ha & Hc & Hq & Hu & Ht).
  split; [|split; [|split; [|split; [|split; [|split; [|split]]]]]];
    try assumption.
  - intros w''. unfold IsAvailable, getClient. by rewrite Hc.
  - intros interfere mem ctx inv. unfold Invoke_with. by rewrite Ha.
  - intros w''. by apply Destroy_done.
  - by intros _.
  - intros rt u c. by intros [=].
  - intros mem ctx inv out Ho.
    rewrite (Invoke_invoker_after _ _ _ _ _ _ _ _ _ _ _ _ Ho).
    destruct (accepted di); [|done].
    intros Hq'. by apply Hwf.
Qed.

End Lifecycle.

(** *** The invocation as an interface value *)

(** [protocol.Invocation], the interface value [Invoke] is handed: a
    pointer to an [invocation_impl.RPCInvocation], or a value of any
    other dynamic type, nil among them. *)
Inductive Invocation : Type :=
| RPC (inv : RPCInvocation)
| NotRPC (tag : N).

(** The assertion of the invocation to a pointer to
    [invocation_impl.RPCInvocation], made without the comma-ok form: it
    panics on any other dynamic type. *)
Definition asserted (invocation : Invocation) : outcome RPCInvocation :=
  match invocation with
  | RPC inv => Returned inv
  | NotRPC _ => Panicked
  end.

(** What a call of [Invoke] leaves behind, the invocation being of any
    dynamic type. *)
Record answer (Mem : Type) : Type := {
  answer_result : RPCResult;
  answer_invoker : DubboInvoker;
  answer_invocation : Invocation;
  answer_mem : Mem;
  answer_calls : list client_call;
  answer_logs : list log_entry;
}.
Arguments answer_result {Mem} _.
Arguments answer_invoker {Mem} _.
Arguments answer_invocation {Mem} _.
Arguments answer_mem {Mem} _.
Arguments answer_calls {Mem} _.
Arguments answer_logs {Mem} _.

Definition served {Mem : Type} (out : invoked Mem) : answer Mem :=
  {| answer_result := result out; answer_invoker := invoker_after out;
     answer_invocation := RPC (invocation_after out);
     answer_mem := mem_after out; answer_calls := calls out;
     answer_logs := logs out |}.

Definition refused {Mem : Type} (di : DubboInvoker) (invocation : Invocation)
    (mem : Mem) (e : error) (l : list log_entry) : answer Mem :=
  {| answer_result := {| Attrs := ∅; Err := Some e; Rest := Nil |};
     answer_invoker := di; answer_invocation := invocation;
     answer_mem := mem; answer_calls := []; answer_logs := l |}.

Section Assertion.
Variable ParseDuration : string -> option Z.
Variable Span : Type.
Variable injectTraceCtx :
  Span -> gmap string string -> gmap string string * option error.
Variable Mem : Type.
Variable client_Request :
  N -> RPCInvocation -> URL -> Z -> Mem -> option error * gmap string string * Mem.
Variable client_AsyncRequest :
  N -> RPCInvocation -> URL -> Z -> N -> Mem -> option error * gmap string string * Mem.
Variable client_Send :
  N -> RPCInvocation -> URL -> Z -> Mem -> option error * Mem.

(** [Invoke] as it is declared, on a [protocol.Invocation]: the three
    tests, the type assertion, and the rest on the [*RPCInvocation]. *)
Definition Invoke_protocol (interfere : DubboInvoker -> DubboInvoker)
    (di : DubboInvoker) (mem : Mem) (ctx : option Span) (invocation : Invocation)
    : outcome (answer Mem) :=
  if negb (BaseInvoker_IsAvailable (base di)) then
    Returned (refused di invocation mem ErrDestroyedInvoker
                [Warnf "this dubboInvoker is destroyed"])
  else
    (* di.clientGuard.RLock() *)
    let di := interfere di in
    match client di with
    | None =>
        Returned (refused di invocation mem ErrClientClosed
                    [Debugf "result.Err: %v"])
    | Some c =>
        if negb (BaseInvoker_IsAvailable (base di)) then
          Returned (refused di invocation mem ErrDestroyedInvoker
                      [Warnf "this dubboInvoker is destroying"])
        else
          inv <-! asserted invocation;
          outcome_map served
            (Invoke_dispatch ParseDuration Span injectTraceCtx Mem
               client_Request client_AsyncRequest client_Send di c mem ctx inv)
    end.

(** On an [*RPCInvocation] this is [Invoke_with]. *)
Lemma Invoke_protocol_RPC interfere di mem ctx inv :
  Invoke_protocol interfere di mem ctx (RPC inv)
  = outcome_map served
      (Invoke_with ParseDuration Span injectTraceCtx Mem
         client_Request client_AsyncRequest client_Send interfere di mem ctx inv).
Proof.
  unfold Invoke_protocol, Invoke_with.
  destruct (negb (BaseInvoker_IsAvailable (base di))); [done|].
  destruct (client (interfere di)) as [c|]; [|done].
  by destruct (negb (BaseInvoker_IsAvailable (base (interfere di)))).
Qed.

Lemma outcome_map_panicked {A B : Type} (f : A -> B) (o : outcome A) :
  outcome_map f o = Panicked <-> o = Panicked.
Proof. by destruct o. Qed.

(** X5: where [Invoke] panics, the calls into the client, the tracer
    and the invocation's own methods being taken to return.  It never
    panics on an invoker that fails one of the three tests, whatever
    the invocation.  Past the three tests it panics on every invocation
    that is not an [*RPCInvocation], at the type assertion; and on an
    [*RPCInvocation] exactly when the URL has the generic parameter
    true and the invocation has no first argument or one that is not a
    string. *)
Theorem Invoke_panics_iff interfere di mem ctx invocation :
  Invoke_protocol interfere di mem ctx invocation = Panicked
  <-> BaseInvoker_IsAvailable (base di) = true
      /\ client (interfere di) <> None
      /\ BaseInvoker_IsAvailable (base (interfere di)) = true
      /\ match invocation with
         | NotRPC _ => True
         | RPC inv =>
             GetParamBool (GetURL (interfere di)) GENERIC_KEY false = true
             /\ (forall s rest, arguments inv <> Str s :: rest)
         end.
Proof.
  destruct invocation as [inv|tag].
  - rewrite Invoke_protocol_RPC, outcome_map_panicked.
    apply Invoke_with_panics_iff.
  - unfold Invoke_protocol.
    destruct (BaseInvoker_IsAvailable (base di)); cbn [negb].
    2:{ split; [done|]. by intros [? _]. }
    destruct (client (interfere di)) as [c|].
    2:{ split; [done|]. by intros (_ & ? & _). }
    destruct (BaseInvoker_IsAvailable (base (interfere di))); cbn [negb].
    2:{ split; [done|]. by intros (_ & _ & ? & _). }
    cbn [asserted outcome_bind]. by repeat split.
Qed.

End Assertion.


(** [Destroy] on each invoker of a list, one after the other. *)
Fixpoint Destroy_all (dis : list DubboInvoker) (w : World)
    : outcome (list DubboInvoker * World) :=
  match dis with
  | [] => Returned ([], w)
  | di :: dis =>
      r <-! Destroy di w;
      let '(di, w) := r in
      r <-! Destroy_all dis w;
      let '(dis, w) := r in
      Returned (di :: dis, w)
  end.

(** X8: invokers that share a client.  When [Destroy] is called on each
    of the not yet destroyed invokers of a list, all bound to the open
    client [c] whose count is at least their number, every one of them
    ends destroyed and detached, the count of [c] has gone down by their
    number, and no other client has changed.  The client is closed, and
    the pool entry of the last invoker's location deleted, exactly when
    the count has reached zero, which only the last call can bring
    about; until then the client stays open and the pool as it was. *)
Theorem Destroy_all_shared c dis w cl :
  Forall (fun di => quitOnce di = false /\ client di = Some c) dis ->
  clients w !! c = Some cl ->
  closed cl = false ->
  Z.of_nat (length dis) <= activeNum cl ->
  exists w',
    Destroy_all dis w = Returned (map destroyed_of dis, w')
    /\ (forall c', c' <> c -> clients w' !! c' = clients w !! c')
    /\ clients w' !! c
       = Some {| activeNum := activeNum cl - Z.of_nat (length dis);
                 closed := match last dis with
                           | Some _ => activeNum cl =? Z.of_nat (length dis)
                           | None => false
                           end |}
    /\ exchangeClientMap w'
       = match last dis with
         | Some di =>
             if activeNum cl =? Z.of_nat (length dis)
             then delete (Location (GetURL di)) (exchangeClientMap w)
             else exchangeClientMap w
         | None => exchangeClientMap w
         end.
Proof.
  intros Hall. revert w cl.
  induction Hall as [|di rest [Hq Hc] Hrest IH]; intros w cl Hcl Hopen Hlen.
  - exists w. cbn. split; [done|]. split; [done|]. split; [|done].
    rewrite Hcl. f_equal. destruct cl as [n b]. cbn in *. subst b.
    f_equal. lia.
  - cbn [Destroy_all]. rewrite (Destroy_first di w c cl Hq Hc Hcl).
    cbn [outcome_bind]. unfold released. cbv zeta.
    rewrite last_cons. cbn [length] in *.
    destruct (activeNum cl - 1 =? 0) eqn:E.
    + apply Z.eqb_eq in E.
      destruct rest as [|d rest]; [|cbn [length] in Hlen; lia].
      eexists. cbn [Destroy_all outcome_bind map last length].
      split; [reflexivity|]. cbn [clients exchangeClientMap].
      split; [intros c' Hne; by rewrite lookup_insert_ne|].
      assert ((activeNum cl =? Z.of_nat 1) = true) as -> by (apply Z.eqb_eq; lia).
      split; [|done]. by rewrite lookup_insert_eq.
    + apply Z.eqb_neq in E.
      set (w1 := {| clients := _; exchangeClientMap := exchangeClientMap w |}).
      destruct (IH w1 {| activeNum := activeNum cl - 1; closed := closed cl |})
        as (w' & Hrun & Hother & Hc' & Hpool).
      { subst w1. cbn. apply lookup_insert_eq. }
      { done. }
      { cbn. lia. }
      exists w'. rewrite Hrun. cbn [outcome_bind map].
      split; [reflexivity|].
      split.
      { intros c' Hne. rewrite (Hother c' Hne). subst w1. cbn.
        by rewrite lookup_insert_ne. }
      rewrite Hc', Hpool. cbn [activeNum closed]. subst w1.
      cbn [exchangeClientMap].
      destruct (last rest) as [d|] eqn:Hlast.
      * assert ((activeNum cl - 1 =? Z.of_nat (length rest))
                = (activeNum cl =? Z.of_nat (S (length rest)))) as ->.
        { destruct (Z.eqb_spec (activeNum cl - 1) (Z.of_nat (length rest)));
            symmetry; [apply Z.eqb_eq|apply Z.eqb_neq]; lia. }
        split; [|done]. do 2 f_equal; lia.
      * apply last_None in Hlast. subst rest. cbn [length].
        assert ((activeNum cl =? Z.of_nat 1) = false) as ->
          by (apply Z.eqb_neq; lia).
        split; [|done]. do 2 f_equal; lia.
Qed.

(** *** These at work *)

Definition demo_Invoke :=
  Invoke parseSimpleDuration unit demo_inject (gmap N string)
    demo_Request demo_AsyncRequest demo_Send.

(** A call whose caller has set a group and a timeout of its own. *)
Definition grouped_call : RPCInvocation :=
  call "foo" [] (Ptr 7) Nil
    {[ "group"%string := "g1"%string; "timeout"%string := "9"%string ]}.

Definition foo_request : client_call :=
  CallRequest 1 (sent foo_call) (served_url demo_di) (200 * Millisecond).

Definition grouped_request : client_call :=
  CallRequest 1 (sent grouped_call) (served_url demo_di) (200 * Millisecond).

(** A client is available as long as it is not closed. *)
Definition demo_IsAvailable (c : N) (w : World) : bool :=
  match clients w !! c with
  | Some cl => negb (closed cl)
  | None => false
  end.

(** A blocking call that succeeds: one call, and the reply slot in the
    result. *)
Lemma Invoke_result_shape_witness :
  exists out,
    demo_Invoke_with same demo_di ∅ None foo_call = Returned out
    /\ (length (calls out) <= 1)%nat
    /\ (Err (result out) = None ->
          Rest (result out) = Ptr 7 /\ exists k, calls out = [k])
    /\ (Err (result out) <> None ->
          Rest (result out) = Nil /\ Attrs (result out) = ∅).
Proof.
  eexists. split; [reflexivity|].
  apply (Invoke_result_shape parseSimpleDuration unit demo_inject (gmap N string)
           demo_Request demo_AsyncRequest demo_Send same demo_di ∅ None foo_call).
  reflexivity.
Defined.

(** The method timeout of 200ms reaches the client as "200". *)
Lemma Invoke_call_timeout_witness :
  exists out,
    demo_Invoke_with same demo_di ∅ None foo_call = Returned out
    /\ In foo_request (calls out)
    /\ call_invocation foo_request = invocation_after out
    /\ attachments (invocation_after out) !! "timeout" = Some "200"%string.
Proof.
  eexists. split; [reflexivity|]. split; [left; reflexivity|].
  destruct (Invoke_call_timeout parseSimpleDuration unit demo_inject (gmap N string)
              demo_Request demo_AsyncRequest demo_Send same demo_di ∅ None foo_call
              _ foo_request eq_refl) as (_ & Hinv & _ & Ht);
    [left; reflexivity|].
  split; [exact Hinv|exact Ht].
Defined.

(** The caller's group is kept, the URL having none; the caller's
    timeout is not. *)
Lemma Invoke_attachments_witness :
  exists out,
    demo_Invoke_with same demo_di ∅ None grouped_call = Returned out
    /\ In grouped_request (calls out)
    /\ attachments (call_invocation grouped_request) !! "group" = Some "g1"%string
    /\ attachments (call_invocation grouped_request) !! "timeout" = Some "200"%string
    /\ attachments (call_invocation grouped_request) !! "path"
       = Some "com.ikurento.user.UserProvider"%string.
Proof.
  eexists. split; [reflexivity|]. split; [left; reflexivity|].
  pose proof (fun key =>
    Invoke_attachments parseSimpleDuration unit demo_inject (gmap N string)
      demo_Request demo_AsyncRequest demo_Send same demo_di ∅ grouped_call
      _ grouped_request key eq_refl (or_introl eq_refl)) as H.
  split; [exact (H "group"%string)|].
  split; [exact (H "timeout"%string)|exact (H "path"%string)].
Defined.

(** The first call writes hessian2 into the invoker's URL. *)
Lemma Invoke_serialization_witness :
  exists out,
    demo_Invoke demo_di ∅ None foo_call = Returned out
    /\ GetParam (GetURL demo_di) "serialization" "" = EmptyString
    /\ GetParam (GetURL (invoker_after out)) "serialization" ""
       = "hessian2"%string
    /\ call_url foo_request = GetURL (invoker_after out)
    /\ Location (GetURL (invoker_after out)) = "127.0.0.1:20000"%string.
Proof.
  eexists. split; [reflexivity|]. split; [reflexivity|].
  destruct (Invoke_serialization parseSimpleDuration unit demo_inject (gmap N string)
              demo_Request demo_AsyncRequest demo_Send demo_di ∅ None foo_call
              _ eq_refl) as (_ & Hloc & _ & _ & Hcall & _).
  destruct (Hcall foo_request (or_introl eq_refl)) as [Hu Hs].
  split; [exact Hs|]. split; [exact Hu|exact Hloc].
Defined.

Definition demo_destroyed : DubboInvoker := destroyed_of (demo_invoker_of 1).

Definition world_released : World :=
  released 1 {| activeNum := 1; closed := false |} "127.0.0.1:20000" world_one_ref.

(** The last invoker of a client, destroyed, then asked. *)
Lemma Destroy_then_unusable_witness :
  Destroy (demo_invoker_of 1) world_one_ref
  = Returned (demo_destroyed, world_released)
  /\ IsAvailable demo_IsAvailable (demo_invoker_of 1) world_one_ref = true
  /\ IsAvailable demo_IsAvailable demo_destroyed world_released = false
  /\ demo_Invoke_with same demo_destroyed ∅ None foo_call
     = Returned (early (gmap N string) demo_destroyed foo_call ∅ ErrDestroyedInvoker
                   [Warnf "this dubboInvoker is destroyed"]).
Proof.
  split; [reflexivity|]. split; [reflexivity|].
  destruct (Destroy_then_unusable parseSimpleDuration 0 unit demo_inject
              (gmap N string) demo_Request demo_AsyncRequest demo_Send
              demo_IsAvailable (demo_invoker_of 1) world_one_ref
              demo_destroyed world_released)
    as (Hav & Hinv & _); [discriminate|reflexivity|].
  split; [apply Hav|apply Hinv].
Defined.

(** Two invokers of one endpoint: the client is closed by the second
    [Destroy], whichever invoker it is called on. *)
Lemma Destroy_all_shared_witness :
  exists w',
    Destroy_all [demo_invoker_of 1; demo_invoker_of 1] world_two_refs
    = Returned ([destroyed_of (demo_invoker_of 1); destroyed_of (demo_invoker_of 1)], w')
    /\ clients w' !! 1%N = Some {| activeNum := 0; closed := true |}
    /\ exchangeClientMap w' = ∅.
Proof.
  destruct (Destroy_all_shared 1 [demo_invoker_of 1; demo_invoker_of 1]
              world_two_refs {| activeNum := 2; closed := false |})
    as (w' & Hrun & _ & Hc & Hpool).
  - repeat constructor.
  - reflexivity.
  - reflexivity.
  - simpl. lia.
  - exists w'. split; [exact Hrun|]. split; [exact Hc|].
    rewrite Hpool. reflexivity.
Defined.

Definition demo_Invoke_protocol :=
  Invoke_protocol parseSimpleDuration unit demo_inject (gmap N string)
    demo_Request demo_AsyncRequest demo_Send.

(** An invocation of another type: a panic on a live invoker, the
    refusal of a destroyed one. *)
Lemma Invoke_panics_iff_witness :
  demo_Invoke_protocol same demo_di ∅ None (NotRPC 0) = Panicked
  /\ demo_Invoke_protocol same destroyed_invoker ∅ None (NotRPC 0)
     = Returned (refused destroyed_invoker (NotRPC 0) ∅ ErrDestroyedInvoker
                   [Warnf "this dubboInvoker is destroyed"])
  /\ demo_Invoke_protocol same (demo_invoker generic_url (Some 1%N)) ∅ None
       (RPC generic_call_no_args) = Panicked.
Proof.
  split; [|split; [reflexivity|]].
  - apply (Invoke_panics_iff parseSimpleDuration unit demo_inject (gmap N string)
             demo_Request demo_AsyncRequest demo_Send same demo_di ∅ None (NotRPC 0)).
    split; [reflexivity|]. split; [discriminate|]. split; [reflexivity|exact I].
  - apply (Invoke_panics_iff parseSimpleDuration unit demo_inject (gmap N string)
             demo_Request demo_AsyncRequest demo_Send same
             (demo_invoker generic_url (Some 1%N)) ∅ None (RPC generic_call_no_args)).
    split; [reflexivity|]. split; [discriminate|]. split; [reflexivity|].
    split; [reflexivity|discriminate].
Defined.

End Dubbo.

(** ** config_center/zookeeper/impl.go: construction and shutdown *)
Module ZookeeperLifecycle.
Import GoString GoStd.

(** A channel of type [chan struct{}] on which nothing is sent: the nil
    channel, an open one, a closed one. *)
Inductive chan : Type := NilChan | OpenChan | ClosedChan.

(** [close(ch)] panics on the nil channel and on a closed one. *)
Definition close (ch : chan) : outcome chan :=
  match ch with
  | OpenChan => Returned ClosedChan
  | NilChan | ClosedChan => Panicked
  end.

(** The calls that leave the configuration for the zookeeper client
    and its listener. *)
Inductive event : Type :=
| ListenerClose
| ClientClose.

Section Backend.
(** Outside the sources: the zookeeper client and the event listener,
    [zookeeper.ValidateZookeeperClient], which connects and stores the
    client through [SetZkClient], [NewZkEventListener], and the calls
    [Create] and [Close] on the client the configuration holds, nil or
    not. *)
Variable ZkClient : Type.
Variable Listener : Type.
Variable ValidateZookeeperClient : string -> option ZkClient * option error.
Variable NewZkEventListener : option ZkClient -> Listener.
Variable client_Create : option ZkClient -> string -> outcome (option error).
Variable client_Close : option ZkClient -> outcome unit.
(** [constant.CONFIG_NAMESPACE_KEY] and [config_center.DEFAULT_GROUP] *)
Variable CONFIG_NAMESPACE_KEY : string.
Variable DEFAULT_GROUP : string.

(** [zookeeperDynamicConfiguration] with the fields of its life cycle:
    a field the struct literal does not name has its zero value. *)
Record configuration : Type := {
  url : Dubbo.URL;
  conf : Zookeeper.zookeeperDynamicConfiguration;
  done : chan;
  client : option ZkClient;
  listener : option Listener;
}.

(** [Params] is [config.GetRootConfig().ConfigCenter.Params].  The
    goroutine of [HandleClientRestart] and the subscription of the
    cache listener are left out. *)
Definition newZookeeperDynamicConfiguration (Params : gmap string string)
    (url : Dubbo.URL) : outcome (option configuration * option error) :=
  let rootPath :=
    ("/" +:+ Dubbo.GetParam url CONFIG_NAMESPACE_KEY DEFAULT_GROUP) +:+ "/config" in
  base64Enabled <-!
    match Params !! "base64"%string with
    | Some v =>
        let '(base64Enabled, err) := ParseBool v in
        match err with
        | Some _ => Panicked
        | None => Returned base64Enabled
        end
    | None => Returned false
    end;
  let '(client, err) := ValidateZookeeperClient (Dubbo.Location url) in
  match err with
  | Some e => Returned (None, Some e)
  | None =>
      let listener := NewZkEventListener client in
      err <-! client_Create client rootPath;
      Returned
        (Some {| url := url;
                 conf := {| Zookeeper.rootPath := rootPath;
                            Zookeeper.base64Enabled := base64Enabled |};
                 done := NilChan;
                 client := client;
                 listener := Some listener |},
         err)
  end.

(** [IsAvailable]: the receive is ready on a closed channel only. *)
Definition IsAvailable (c : configuration) : bool :=
  match done c with
  | ClosedChan => false
  | NilChan | OpenChan => true
  end.

(** [Destroy]: the calls made on the listener and the client, and the
    configuration afterwards unless a panic came first.  [c.wg.Wait()]
    waits for the goroutine of [HandleClientRestart], which ends when
    the channel is closed. *)
Definition Destroy (c : configuration) : list event * outcome configuration :=
  let closed_listener :=
    match listener c with
    | Some _ => [ListenerClose]
    | None => []
    end in
  match close (done c) with
  | Panicked => (closed_listener, Panicked)
  | Returned done =>
      (* closeConfigs *)
      match client_Close (client c) with
      | Panicked => (closed_listener ++ [ClientClose], Panicked)
      | Returned _ =>
          (closed_listener ++ [ClientClose],
           Returned {| url := url c; conf := conf c; done := done;
                       client := None; listener := listener c |})
      end
  end.

(** X12: what [newZookeeperDynamicConfiguration] builds.  A base64
    parameter that is not a boolean makes it panic before anything is
    asked of zookeeper; without the parameter the flag is off.  When
    the client cannot be validated the error is returned and no
    configuration.  Otherwise the configuration is returned, together
    with the error of creating the root node if there was one; its root
    is [/namespace/config]; and its done channel is nil, so
    [IsAvailable] answers true and [Destroy] closes the listener,
    panics on closing the nil channel and never closes the client. *)
Theorem newZookeeperDynamicConfiguration_spec Params u :
  (forall v, Params !! "base64"%string = Some v -> snd (ParseBool v) <> None ->
     newZookeeperDynamicConfiguration Params u = Panicked)
  /\ (forall c err,
        newZookeeperDynamicConfiguration Params u = Returned (c, err) ->
        match Params !! "base64"%string with
        | Some v => snd (ParseBool v) = None
        | None => True
        end
        /\ (c = None <-> snd (ValidateZookeeperClient (Dubbo.Location u)) <> None)
        /\ (c = None -> err = snd (ValidateZookeeperClient (Dubbo.Location u))))
  /\ (forall c err,
        newZookeeperDynamicConfiguration Params u = Returned (Some c, err) ->
        Zookeeper.rootPath (conf c)
        = ("/" +:+ Dubbo.GetParam u CONFIG_NAMESPACE_KEY DEFAULT_GROUP) +:+ "/config"
        /\ Zookeeper.base64Enabled (conf c)
           = match Params !! "base64"%string with
             | Some v => fst (ParseBool v)
             | None => false
             end
        /\ client c = fst (ValidateZookeeperClient (Dubbo.Location u))
        /\ client_Create (client c) (Zookeeper.rootPath (conf c)) = Returned err
        /\ IsAvailable c = true
        /\ Destroy c = ([ListenerClose], Panicked)).
Proof.
  unfold newZookeeperDynamicConfiguration. cbv zeta.
  split; [|split].
  - intros v -> Hv. destruct (ParseBool v) as [b [e|]]; [done|].
    by destruct Hv.
  - intros c err.
    destruct (Params !! "base64"%string) as [v|].
    + destruct (ParseBool v) as [b [e|]]; [done|]. cbn [outcome_bind snd].
      destruct (ValidateZookeeperClient _) as [cl [e|]]; cbn [snd].
      * intros [= <- <-]. by repeat split.
      * destruct (client_Create cl _) as [e'|]; [|done]. cbn [outcome_bind].
        intros [= <- <-]. repeat split; first [done|by intros []].
    + cbn [outcome_bind].
      destruct (ValidateZookeeperClient _) as [cl [e|]]; cbn [snd].
      * intros [= <- <-]. by repeat split.
      * destruct (client_Create cl _) as [e'|]; [|done]. cbn [outcome_bind].
        intros [= <- <-]. repeat split; first [done|by intros []].
  - intros c err.
    destruct (Params !! "base64"%string) as [v|].
    + destruct (ParseBool v) as [b [e|]]; [done|]. cbn [outcome_bind fst].
      destruct (ValidateZookeeperClient _) as [cl [e|]]; [done|].
      destruct (client_Create cl _) as [e'|] eqn:Hcr; [|done].
      cbn [outcome_bind]. intros [= <- <-]. by repeat split.
    + cbn [outcome_bind].
      destruct (ValidateZookeeperClient _) as [cl [e|]]; [done|].
      destruct (client_Create cl _) as [e'|] eqn:Hcr; [|done].
      cbn [outcome_bind]. intros [= <- <-]. by repeat split.
Qed.

(** X13: the life cycle of a configuration whose done channel is open.
    It is available; [Destroy], provided closing the client returns,
    closes the client once, after the listener if there is one, and
    leaves the configuration without client and unavailable for good;
    a second [Destroy] closes the listener again and panics on the
    closed channel. *)
Theorem Destroy_once c :
  done c = OpenChan ->
  client_Close (client c) = Returned tt ->
  IsAvailable c = true
  /\ exists c',
      snd (Destroy c) = Returned c'
      /\ fst (Destroy c)
         = match listener c with
           | Some _ => [ListenerClose; ClientClose]
           | None => [ClientClose]
           end
      /\ IsAvailable c' = false
      /\ client c' = None
      /\ conf c' = conf c
      /\ Destroy c'
         = (match listener c with Some _ => [ListenerClose] | None => [] end,
            Panicked).
Proof.
  intros Hd Hcl. unfold IsAvailable, Destroy. rewrite Hd, Hcl.
  cbn [close fst snd]. split; [done|]. eexists. split; [reflexivity|].
  cbn [done client conf listener close].
  by destruct (listener c).
Qed.

End Backend.

(** A zookeeper that is there and answers without error. *)
Definition demo_Validate (location : string) : option unit * option error :=
  (Some tt, None).

Definition demo_Create (c : option unit) (path : string) : outcome (option error) :=
  Returned None.

Definition demo_Close (c : option unit) : outcome unit := Returned tt.

Definition demo_new :=
  newZookeeperDynamicConfiguration unit unit demo_Validate (fun _ => tt) demo_Create
    "namespace" "dubbo".

Definition demo_built : configuration unit unit :=
  {| url := Dubbo.demo_url;
     conf := {| Zookeeper.rootPath := "/dubbo/config";
                Zookeeper.base64Enabled := true |};
     done := NilChan; client := Some tt; listener := Some tt |}.

(** The configuration of [127.0.0.1:20000] with base64 on: built, it
    cannot be destroyed; and a base64 flag of "yes" is a panic. *)
Lemma newZookeeperDynamicConfiguration_spec_witness :
  demo_new {[ "base64"%string := "true"%string ]} Dubbo.demo_url
  = Returned (Some demo_built, None)
  /\ IsAvailable unit unit demo_built = true
  /\ Destroy unit unit demo_Close demo_built = ([ListenerClose], Panicked)
  /\ demo_new {[ "base64"%string := "yes"%string ]} Dubbo.demo_url = Panicked.
Proof.
  split; [reflexivity|].
  destruct (newZookeeperDynamicConfiguration_spec unit unit demo_Validate
              (fun _ => tt) demo_Create demo_Close "namespace" "dubbo"
              {[ "base64"%string := "true"%string ]} Dubbo.demo_url)
    as (_ & _ & Hbuilt).
  destruct (Hbuilt demo_built None eq_refl) as (_ & _ & _ & _ & Hav & Hde).
  split; [exact Hav|]. split; [exact Hde|].
  destruct (newZookeeperDynamicConfiguration_spec unit unit demo_Validate
              (fun _ => tt) demo_Create demo_Close "namespace" "dubbo"
              {[ "base64"%string := "yes"%string ]} Dubbo.demo_url)
    as (Hpanic & _).
  apply (Hpanic "yes"%string); [reflexivity|discriminate].
Defined.

Definition demo_open : configuration unit unit :=
  {| url := Dubbo.demo_url;
     conf := {| Zookeeper.rootPath := "/dubbo/config";
                Zookeeper.base64Enabled := true |};
     done := OpenChan; client := Some tt; listener := Some tt |}.

Definition demo_closed : configuration unit unit :=
  {| url := Dubbo.demo_url;
     conf := {| Zookeeper.rootPath := "/dubbo/config";
                Zookeeper.base64Enabled := true |};
     done := ClosedChan; client := None; listener := Some tt |}.

Lemma Destroy_once_witness :
  Destroy unit unit demo_Close demo_open
  = ([ListenerClose; ClientClose], Returned demo_closed)
  /\ IsAvailable unit unit demo_open = true
  /\ IsAvailable unit unit demo_closed = false
  /\ Destroy unit unit demo_Close demo_closed = ([ListenerClose], Panicked).
Proof.
  split; [reflexivity|].
  destruct (Destroy_once unit unit demo_Close demo_open eq_refl eq_refl)
    as (Hav & c' & Hc' & _ & Hav' & _ & _ & Hagain).
  injection Hc' as <-.
  split; [exact Hav|]. split; [exact Hav'|exact Hagain].
Defined.

End ZookeeperLifecycle.

(** ** config_center/apollo/impl.go: the address of the configuration *)
Module ApolloAddress.
Import GoString GoStd.

Definition apolloProtocolPrefix : string := "http://".

(** The class [\s] of Go's regular expressions: tab, line feed, form
    feed, carriage return and space. *)
Definition is_space (c : ascii) : bool :=
  Ascii.eqb c "009" || Ascii.eqb c "010" || Ascii.eqb c "012"
  || Ascii.eqb c "013" || Ascii.eqb c " ".

(** [regexp.MustCompile(`\s+`).ReplaceAllString(s, "")]: every run of
    white space is replaced by nothing. *)
Fixpoint remove_spaces (s : string) : string :=
  match s with
  | EmptyString => EmptyString
  | String a s' =>
      if is_space a then remove_spaces s' else String a (remove_spaces s')
  end.

(** [strings.Split] for a separator of one byte: one more part than
    there are separators. *)
Fixpoint Split (s : string) (sep : ascii) : list string :=
  match s with
  | EmptyString => [EmptyString]
  | String a s' =>
      if Ascii.eqb a sep then EmptyString :: Split s' sep
      else
        match Split s' sep with
        | part :: parts => String a part :: parts
        | [] => [String a EmptyString]
        end
  end.

(** [strings.HasPrefix] *)
Definition HasPrefix (s prefix : string) : bool := String.prefix prefix s.

Definition getAddressWithProtocolPrefix (url : Dubbo.URL) : string :=
  let address := Dubbo.Location url in
  let converted := address in
  if negb (len address =? 0) then
    let addr := remove_spaces address in
    let parts := Split addr ","%char in
    let addrs :=
      fold_left
        (fun addrs part =>
           let addr :=
             if negb (HasPrefix part apolloProtocolPrefix)
             then apolloProtocolPrefix +:+ part
             else part in
           addrs ++ [addr])
        parts [] in
    Join addrs ","
  else converted.

Example address_list :
  getAddressWithProtocolPrefix
    {| Dubbo.Location := "106.12.25.204:8080, http://10.0.0.2:8080";
       Dubbo.params := ∅ |}
  = "http://106.12.25.204:8080,http://10.0.0.2:8080"%string.
Proof. reflexivity. Qed.

(** The part as it enters the list. *)
Definition with_prefix (part : string) : string :=
  if negb (HasPrefix part apolloProtocolPrefix)
  then apolloProtocolPrefix +:+ part
  else part.

Fixpoint spaceless (s : string) : bool :=
  match s with
  | EmptyString => true
  | String a s' => negb (is_space a) && spaceless s'
  end.

Lemma fold_append_map {A B : Type} (f : A -> B) (l : list A) (acc : list B) :
  fold_left (fun addrs part => addrs ++ [f part]) l acc = acc ++ map f l.
Proof.
  revert acc. induction l as [|x l IH]; intros acc; cbn [fold_left map].
  - by rewrite List.app_nil_r.
  - by rewrite IH, <- List.app_assoc.
Qed.

Lemma getAddressWithProtocolPrefix_eq url :
  Dubbo.Location url <> EmptyString ->
  getAddressWithProtocolPrefix url
  = Join (map with_prefix (Split (remove_spaces (Dubbo.Location url)) ",")) ",".
Proof.
  intros Hne. unfold getAddressWithProtocolPrefix. cbv zeta.
  destruct (Dubbo.Location url) as [|a l]; [done|].
  assert ((len (String a l) =? 0) = false) as ->.
  { apply Z.eqb_neq. rewrite len_cons. pose proof (len_nonneg l). lia. }
  cbn [negb]. f_equal. apply (fold_append_map with_prefix).
Qed.

Lemma Split_not_nil s c : Split s c <> [].
Proof.
  destruct s as [|a s]; cbn [Split]; [done|].
  destruct (Ascii.eqb a c); [done|]. by destruct (Split s c).
Qed.

Lemma Split_parts_lack s c : Forall (fun p => lacks c p = true) (Split s c).
Proof.
  induction s as [|a s IH]; cbn [Split].
  - by constructor.
  - destruct (Ascii.eqb a c) eqn:E; [by constructor|].
    destruct (Split s c) as [|p ps]; constructor.
    + cbn [lacks]. by rewrite E.
    + constructor.
    + cbn [lacks]. rewrite E. cbn [negb andb]. by inversion IH.
    + by inversion IH.
Qed.

Lemma Split_lacks x c : lacks c x = true -> Split x c = [x].
Proof.
  induction x as [|a x IH]; cbn [lacks Split]; [done|].
  intros [Ha Hx]%andb_prop. apply negb_true_iff in Ha. rewrite Ha.
  by rewrite IH.
Qed.

Lemma Split_app x y c :
  lacks c x = true -> Split (x +:+ String c y) c = x :: Split y c.
Proof.
  induction x as [|a x IH]; cbn [lacks].
  - intros _. rewrite app_nil_l. cbn [Split]. by rewrite Ascii.eqb_refl.
  - intros [Ha Hx]%andb_prop. apply negb_true_iff in Ha.
    rewrite app_cons. cbn [Split]. by rewrite Ha, IH.
Qed.

Lemma Join_cons x y l sep :
  Join (x :: y :: l) (String sep EmptyString)
  = x +:+ String sep (Join (y :: l) (String sep EmptyString)).
Proof.
  cbn [Join]. by rewrite append_assoc, app_cons, app_nil_l.
Qed.

Lemma Split_Join l c :
  l <> [] -> Forall (fun p => lacks c p = true) l ->
  Split (Join l (String c EmptyString)) c = l.
Proof.
  induction l as [|x l IH]; [done|]. intros _ Hall.
  inversion Hall as [|? ? Hx Hl]; subst.
  destruct l as [|y l].
  - cbn [Join]. by apply Split_lacks.
  - rewrite Join_cons, Split_app by done. f_equal. by apply IH.
Qed.

Lemma lacks_app c a b : lacks c (a +:+ b) = lacks c a && lacks c b.
Proof.
  induction a as [|x a IH]; [done|].
  rewrite app_cons. cbn [lacks]. by rewrite IH, andb_assoc.
Qed.

Lemma spaceless_app a b : spaceless (a +:+ b) = spaceless a && spaceless b.
Proof.
  induction a as [|x a IH]; [done|].
  rewrite app_cons. cbn [spaceless]. by rewrite IH, andb_assoc.
Qed.

Lemma remove_spaces_spaceless s : spaceless (remove_spaces s) = true.
Proof.
  induction s as [|a s IH]; [done|]. cbn [remove_spaces].
  destruct (is_space a) eqn:E; [done|]. cbn [spaceless]. by rewrite E, IH.
Qed.

Lemma remove_spaces_id s : spaceless s = true -> remove_spaces s = s.
Proof.
  induction s as [|a s IH]; [done|]. cbn [spaceless remove_spaces].
  intros [Ha Hs]%andb_prop. apply negb_true_iff in Ha. by rewrite Ha, IH.
Qed.

Lemma Split_spaceless s c :
  spaceless s = true -> Forall (fun p => spaceless p = true) (Split s c).
Proof.
  induction s as [|a s IH]; cbn [Split spaceless].
  - by constructor.
  - intros [Ha Hs]%andb_prop. specialize (IH Hs).
    destruct (Ascii.eqb a c); [by constructor|].
    destruct (Split s c) as [|p ps]; constructor.
    + cbn [spaceless]. by rewrite Ha.
    + constructor.
    + cbn [spaceless]. rewrite Ha. by inversion IH.
    + by inversion IH.
Qed.

Lemma Join_spaceless l :
  Forall (fun p => spaceless p = true) l -> spaceless (Join l ",") = true.
Proof.
  induction l as [|x l IH]; [done|]. intros Hall.
  inversion Hall as [|? ? Hx Hl]; subst.
  destruct l as [|y l]; [done|].
  rewrite Join_cons, spaceless_app. cbn [spaceless]. rewrite Hx.
  by rewrite IH.
Qed.

Lemma HasPrefix_with_prefix part :
  HasPrefix (with_prefix part) apolloProtocolPrefix = true.
Proof.
  unfold with_prefix.
  destruct (HasPrefix part apolloProtocolPrefix) eqn:E; [done|].
  by destruct part.
Qed.

Lemma with_prefix_idemp part : with_prefix (with_prefix part) = with_prefix part.
Proof.
  unfold with_prefix at 1. by rewrite HasPrefix_with_prefix.
Qed.

Lemma with_prefix_lacks part :
  lacks "," part = true -> lacks "," (with_prefix part) = true.
Proof.
  intros H. unfold with_prefix.
  destruct (HasPrefix part apolloProtocolPrefix); [done|].
  cbn [negb]. by rewrite lacks_app, H.
Qed.

Lemma with_prefix_spaceless part :
  spaceless part = true -> spaceless (with_prefix part) = true.
Proof.
  intros H. unfold with_prefix.
  destruct (HasPrefix part apolloProtocolPrefix); [done|].
  cbn [negb]. by rewrite spaceless_app, H.
Qed.

Lemma with_prefix_not_empty part : with_prefix part <> EmptyString.
Proof.
  pose proof (HasPrefix_with_prefix part) as H.
  by destruct (with_prefix part).
Qed.

Lemma Join_not_empty x l : x <> EmptyString -> Join (x :: l) "," <> EmptyString.
Proof.
  intros Hx. destruct l as [|y l]; [done|].
  rewrite Join_cons. by destruct x.
Qed.

(** X15: the address handed to agollo.  An empty location stays empty.
    Any other location is read as a list separated by commas, white
    space aside: the result has as many parts as the location, each is
    the part of the location with [http://] put before it unless it was
    there already, so every part of the result starts with [http://];
    the result contains no white space and is not empty; and the
    function leaves its own result as it is. *)
Theorem getAddressWithProtocolPrefix_spec url :
  (Dubbo.Location url = EmptyString ->
     getAddressWithProtocolPrefix url = EmptyString)
  /\ (Dubbo.Location url <> EmptyString ->
      let r := getAddressWithProtocolPrefix url in
      Split r "," = map with_prefix (Split (remove_spaces (Dubbo.Location url)) ",")
      /\ Forall (fun p => HasPrefix p apolloProtocolPrefix = true) (Split r ",")
      /\ remove_spaces r = r
      /\ r <> EmptyString
      /\ getAddressWithProtocolPrefix
           {| Dubbo.Location := r; Dubbo.params := Dubbo.params url |} = r).
Proof.
  split.
  { unfold getAddressWithProtocolPrefix. by intros ->. }
  intros Hne r. subst r. rewrite (getAddressWithProtocolPrefix_eq url Hne).
  set (parts := Split (remove_spaces (Dubbo.Location url)) ",").
  assert (Forall (fun p => lacks "," p = true) (map with_prefix parts)) as Hlack.
  { apply Forall_map. eapply Forall_impl; [apply Split_parts_lack|].
    intros p Hp. by apply with_prefix_lacks. }
  assert (Forall (fun p => spaceless p = true) (map with_prefix parts)) as Hsp.
  { apply Forall_map. eapply Forall_impl.
    - apply Split_spaceless, remove_spaces_spaceless.
    - intros p Hp. by apply with_prefix_spaceless. }
  assert (map with_prefix parts <> []) as Hnil.
  { pose proof (Split_not_nil (remove_spaces (Dubbo.Location url)) ",") as H.
    fold parts in H. by destruct parts. }
  assert (Split (Join (map with_prefix parts) ",") "," = map with_prefix parts)
    as Hsplit by (by apply Split_Join).
  assert (Join (map with_prefix parts) "," <> EmptyString) as Hjoin.
  { pose proof (Split_not_nil (remove_spaces (Dubbo.Location url)) ",") as H.
    fold parts in H. destruct parts as [|x l]; [done|]. cbn [map].
    apply Join_not_empty, with_prefix_not_empty. }
  assert (remove_spaces (Join (map with_prefix parts) ",")
          = Join (map with_prefix parts) ",") as Hrm
    by (by apply remove_spaces_id, Join_spaceless).
  split; [exact Hsplit|]. split.
  { rewrite Hsplit. apply Forall_map, Forall_forall. intros p _.
    apply HasPrefix_with_prefix. }
  split; [exact Hrm|]. split; [exact Hjoin|].
  rewrite getAddressWithProtocolPrefix_eq by done. cbn [Dubbo.Location].
  rewrite Hrm, Hsplit, map_map. f_equal. apply map_ext. intros p.
  apply with_prefix_idemp.
Qed.

(** An address list with white space, one part of which has the prefix. *)
Lemma getAddressWithProtocolPrefix_spec_witness :
  getAddressWithProtocolPrefix
    {| Dubbo.Location := "106.12.25.204:8080, http://10.0.0.2:8080";
       Dubbo.params := ∅ |}
  <> EmptyString
  /\ Split (getAddressWithProtocolPrefix
              {| Dubbo.Location := "106.12.25.204:8080, http://10.0.0.2:8080";
                 Dubbo.params := ∅ |}) ","
     = ["http://106.12.25.204:8080"; "http://10.0.0.2:8080"]%string.
Proof.
  destruct (getAddressWithProtocolPrefix_spec
              {| Dubbo.Location := "106.12.25.204:8080, http://10.0.0.2:8080";
                 Dubbo.params := ∅ |}) as [_ H].
  destruct H as (Hsplit & _ & _ & Hne & _); [discriminate|].
  split; [exact Hne|exact Hsplit].
Defined.

End ApolloAddress.


